(** * laborer: a goroutine pool, its idle-worker stores and its Future

    A shallow embedding of the Go package [laborer] (pool.go, pool_func.go,
    worker.go, worker_stack.go, worker_loop_queue.go, future.go,
    options.go, errors.go).

    - [time.Time] is the monotonic clock reading, an integer number of
      nanoseconds; [time.Duration] is an integer number of nanoseconds.
    - Workers live in a heap (a list indexed by the worker's address); the
      idle stores hold addresses, as the Go slices hold [*goWorker].
    - Goroutines are program counters over the source lines; a schedule is
      a list of events, each letting one goroutine take its next step. *)

From stdpp Require Import base option list numbers sorting.
From Stdlib Require Import ZArith Lia.

Local Open Scope Z_scope.

(** ** time *)

Definition Before (t u : Z) : bool := t <? u.
Definition After (t u : Z) : bool := u <? t.
Definition Add (t d : Z) : Z := t + d.

(** ** errors.go *)

Inductive error :=
| ErrPoolClosed
| ErrPoolOverload
| ErrInvalidPoolSize
| ErrInvalidPoolExpiry
| ErrInvalidPoolFunc
| ErrTimeout.

(** ** int32 arithmetic ([atomic.AddInt32], [int32(size)]) *)

Definition wrap32 (z : Z) : Z := (z + 2 ^ 31) mod 2 ^ 32 - 2 ^ 31.

(** ** worker.go: the worker object

    [inbox] is the content of the buffered channel [task] (resp. [args]):
    each element is [None] for a nil callable / nil argument, [Some a]
    otherwise.  [inboxClosed] records [close(w.task)]. *)

Record goWorker (A : Type) := GoWorker {
  inbox : list (option A);
  inboxClosed : bool;
  lastUsed : Z;
  recycled : Z
}.
Arguments GoWorker {A}.
Arguments inbox {A}.
Arguments inboxClosed {A}.
Arguments lastUsed {A}.
Arguments recycled {A}.

Definition workerChanCap : nat := 1.

(** Addresses of worker objects, and the heap they index. *)
Abbreviation ptr := nat (only parsing).
Abbreviation heap A := (list (goWorker A)) (only parsing).

Section Workers.
Context {A : Type}.

(** [w.lastUsed] read through the pointer. *)
Definition stamp (h : heap A) (p : ptr) : option Z := lastUsed <$> h !! p.

(** [recycle]: atomic.StoreInt32(&w.recycled, 1). *)
Definition recycle (w : goWorker A) : goWorker A :=
  GoWorker (inbox w) (inboxClosed w) (lastUsed w) 1.

(** [finish]: recycle, then close the inbox.  Closing a closed channel
    panics ([None]). *)
Definition finish (h : heap A) (p : ptr) : option (heap A) :=
  w ← h !! p;
  let w1 := recycle w in
  if inboxClosed w1 then None
  else Some (<[p := GoWorker (inbox w1) true (lastUsed w1) (recycled w1)]> h).

Fixpoint finish_all (h : heap A) (ps : list ptr) : option (heap A) :=
  match ps with
  | [] => Some h
  | p :: ps' => h' ← finish h p; finish_all h' ps'
  end.
End Workers.

(** ** worker_stack.go *)

Module Stack.
Section Stack.
Context {A : Type}.

(** [items] is the live part of the slice (its first [len] slots); the
    scratch slice [expiry] is nil-ed again before [refresh] returns and
    is never read elsewhere. *)
Record workerStack := WorkerStack {
  items : list ptr;
  size : Z
}.

Definition newWorkerStack (sz : Z) : workerStack := WorkerStack [] sz.

Definition len (wq : workerStack) : nat := length (items wq).

Definition isEmpty (wq : workerStack) : bool := Nat.eqb (length (items wq)) 0.

(** [insert] never fails. *)
Definition insert (wq : workerStack) (worker : ptr) : option error * workerStack :=
  (None, WorkerStack (items wq ++ [worker]) (size wq)).

Definition detach (wq : workerStack) : option ptr * workerStack :=
  let l := length (items wq) in
  if Nat.eqb l 0 then (None, wq)
  else (items wq !! (l - 1)%nat, WorkerStack (take (l - 1)%nat (items wq)) (size wq)).

(** The loop [for index < n && items[index].lastUsed.Before(expiryTime)],
    entered with [rest = items[index:]]. *)
Fixpoint scan (h : heap A) (expiryTime : Z) (rest : list ptr) (index : nat)
  : option nat :=
  match rest with
  | [] => Some index
  | p :: rest' =>
      t ← stamp h p;
      if Before t expiryTime then scan h expiryTime rest' (S index)
      else Some index
  end.

(** [refresh]: [None] is a Go panic (nil dereference, double close). *)
Definition refresh (h : heap A) (now duration : Z) (wq : workerStack)
  : option (heap A * workerStack * list Z) :=
  let n := length (items wq) in
  if Nat.eqb n 0 then Some (h, wq, [])
  else
    let expiryTime := Add now (- duration) in
    index ← scan h expiryTime (items wq) 0%nat;
    if Nat.ltb 0 index then
      let expiry := take index (items wq) in
      let moved := drop index (items wq) in
      h' ← finish_all h expiry;
      Some (h', WorkerStack moved (size wq), Z.of_nat <$> seq 0 index)
    else Some (h, wq, []).

Definition reset (h : heap A) (wq : workerStack)
  : option (heap A * workerStack) :=
  h' ← finish_all h (items wq);
  Some (h', WorkerStack [] (size wq)).
End Stack.
End Stack.

(** ** worker_loop_queue.go *)

Module Ring.
Section Ring.
Context {A : Type}.

Record loopQueue := LoopQueue {
  items : list (option ptr);
  head : nat;
  tail : nat;
  size : nat;
  isFull : bool
}.

Definition newWorkerLoopQueue (sz : nat) : loopQueue :=
  LoopQueue (replicate sz None) 0 0 sz false.

Definition len (wq : loopQueue) : nat :=
  if isFull wq then size wq
  else if Nat.leb (head wq) (tail wq) then (tail wq - head wq)%nat
  else (size wq - head wq + tail wq)%nat.

Definition isEmpty (wq : loopQueue) : bool :=
  Nat.eqb (head wq) (tail wq) && negb (isFull wq).

(** [wq.head++; if wq.head == wq.size { wq.head = 0 }] *)
Definition advance (sz i : nat) : nat :=
  if Nat.eqb (S i) sz then 0%nat else S i.

(** [insert]: the outer [None] is an index-out-of-range panic. *)
Definition insert (wq : loopQueue) (worker : ptr)
  : option (option error * loopQueue) :=
  if isFull wq then Some (Some ErrPoolOverload, wq)
  else
    if Nat.ltb (tail wq) (length (items wq)) then
      let items' := <[tail wq := Some worker]> (items wq) in
      let tail' := advance (size wq) (tail wq) in
      Some (None, LoopQueue items' (head wq) tail' (size wq) (Nat.eqb tail' (head wq)))
    else None.

Definition detach (wq : loopQueue) : option (option ptr * loopQueue) :=
  if isEmpty wq then Some (None, wq)
  else
    w ← items wq !! head wq;
    Some (w, LoopQueue (<[head wq := None]> (items wq))
                       (advance (size wq) (head wq)) (tail wq) (size wq) false).

(** Result of the sweep loop: the queue, the indices and the expired
    workers collected so far. *)
Inductive loop_result :=
| LoopDone (wq : loopQueue) (indices : list Z) (expiry : list ptr)
| LoopPanic
| LoopFuel.

(** The loop [for !wq.isEmpty() { ... }] of [refresh]. *)
Fixpoint refresh_loop (fuel : nat) (h : heap A) (expiryTime : Z)
    (wq : loopQueue) (indices : list Z) (expiry : list ptr) : loop_result :=
  match fuel with
  | O => LoopFuel
  | S fuel' =>
      if isEmpty wq then LoopDone wq indices expiry
      else
        match items wq !! head wq with
        | None => LoopPanic
        | Some None => LoopDone wq indices expiry
        | Some (Some p) =>
            match stamp h p with
            | None => LoopPanic
            | Some t =>
                if After t expiryTime then LoopDone wq indices expiry
                else
                  refresh_loop fuel' h expiryTime
                    (LoopQueue (<[head wq := None]> (items wq))
                               (advance (size wq) (head wq)) (tail wq) (size wq) false)
                    (indices ++ [Z.of_nat (head wq)]) (expiry ++ [p])
            end
        end
  end.

(** [refresh]: every iteration of the loop nils one non-nil slot, so
    [length items + 1] iterations always suffice. *)
Definition refresh (h : heap A) (now duration : Z) (wq : loopQueue)
  : option (heap A * loopQueue * list Z) :=
  if isEmpty wq then Some (h, wq, [])
  else
    let expiryTime := Add now (- duration) in
    match refresh_loop (S (length (items wq))) h expiryTime wq [] [] with
    | LoopDone wq' indices expiry =>
        h' ← finish_all h expiry;
        Some (h', wq', indices)
    | _ => None
    end.

(** The three clearing loops of [reset], over the index range
    [from, from + count). *)
Fixpoint clear_range (h : heap A) (its : list (option ptr)) (from count : nat)
  : option (heap A * list (option ptr)) :=
  match count with
  | O => Some (h, its)
  | S count' =>
      slot ← its !! from;
      h' ← match slot with
           | Some p => finish h p
           | None => Some h
           end;
      clear_range h' (<[from := None]> its) (S from) count'
  end.

Definition reset (h : heap A) (wq : loopQueue)
  : option (heap A * loopQueue) :=
  if isEmpty wq then Some (h, wq)
  else
    r ← (if Nat.ltb (head wq) (tail wq) then
           clear_range h (items wq) (head wq) (tail wq - head wq)
         else
           '(h1, its1) ← clear_range h (items wq) (head wq) (size wq - head wq);
           clear_range h1 its1 0 (tail wq));
    Some (r.1, LoopQueue r.2 0 0 (size wq) false).
End Ring.
End Ring.

(** ** options.go *)

Definition second : Z := 1000000000.
Definition DefaultExpiryDuration : Z := 10 * second.

(** [PanicHandler] and [Logger] are kept as "is it non-nil". *)
Record Options := MkOptions {
  ExpiryDuration : Z;
  PreAlloc : bool;
  MaxBlockingTasks : Z;
  Nonblocking : bool;
  PanicHandler : bool;
  Logger : bool
}.

Definition Option := Options -> Options.

Definition WithExpiryDuration (duration : Z) : Option := fun o =>
  MkOptions duration (PreAlloc o) (MaxBlockingTasks o) (Nonblocking o)
            (PanicHandler o) (Logger o).
Definition WithPreAlloc (preAlloc : bool) : Option := fun o =>
  MkOptions (ExpiryDuration o) preAlloc (MaxBlockingTasks o) (Nonblocking o)
            (PanicHandler o) (Logger o).
Definition WithMaxBlockingTasks (n : Z) : Option := fun o =>
  MkOptions (ExpiryDuration o) (PreAlloc o) n (Nonblocking o)
            (PanicHandler o) (Logger o).
Definition WithNonblocking (nonblocking : bool) : Option := fun o =>
  MkOptions (ExpiryDuration o) (PreAlloc o) (MaxBlockingTasks o) nonblocking
            (PanicHandler o) (Logger o).
Definition WithPanicHandler (set : bool) : Option := fun o =>
  MkOptions (ExpiryDuration o) (PreAlloc o) (MaxBlockingTasks o) (Nonblocking o)
            set (Logger o).
Definition WithLogger (set : bool) : Option := fun o =>
  MkOptions (ExpiryDuration o) (PreAlloc o) (MaxBlockingTasks o) (Nonblocking o)
            (PanicHandler o) set.

Definition NewOptions (opts : list Option) : Options :=
  fold_left (fun o opt => opt o) opts
            (MkOptions DefaultExpiryDuration false 0 false false true).

(** ** pool.go / pool_func.go: the pool object and its constructors *)

Definition CLOSED : Z := 1.
Definition OPENED : Z := 0.
Definition queueSizeThreshold : Z := 1000.

(** The two implementations of the interface [workerQueue]. *)
Inductive workerQueue :=
| QStack (wq : Stack.workerStack)
| QRing (wq : Ring.loopQueue).

(** [stopCleaning] and [cleaningDone] are addresses of [chan struct{}]
    objects; [lock], [cond] and the worker heap are part of the world
    the goroutines run in (below). *)
Record Pool := MkPool {
  capacity : Z;
  running : Z;
  state : Z;
  workers : workerQueue;
  options : Options;
  waiting : Z;
  stopCleaning : nat;
  cleaningDone : nat
}.

(** The part of both constructors after validation (pool.go 125-160,
    pool_func.go 119-154). *)
Definition chooseQueue (sz : Z) (opts : Options) : workerQueue :=
  if sz =? -1 then QStack (Stack.newWorkerStack 0)
  else if sz <? queueSizeThreshold then
    if PreAlloc opts then QStack (Stack.newWorkerStack sz)
    else QStack (Stack.newWorkerStack 0)
  else QRing (Ring.newWorkerLoopQueue (Z.to_nat sz)).

Definition buildPool (sz : Z) (opts : Options) : Pool :=
  MkPool (wrap32 sz) 0 OPENED (chooseQueue sz opts) opts 0 0%nat 1%nat.

Definition NewPool (sz : Z) (opts : list Option) : error + Pool :=
  if sz =? 0 then inl ErrInvalidPoolSize
  else
    let o := NewOptions opts in
    if ExpiryDuration o <? 0 then inl ErrInvalidPoolExpiry
    else inr (buildPool sz o).

(** [pf] is [None] for a nil function. *)
Definition NewPoolWithFunc {F : Type} (sz : Z) (pf : option F) (opts : list Option)
  : error + (Pool * F) :=
  if sz =? 0 then inl ErrInvalidPoolSize
  else
    match pf with
    | None => inl ErrInvalidPoolFunc
    | Some f =>
        let o := NewOptions opts in
        if ExpiryDuration o <? 0 then inl ErrInvalidPoolExpiry
        else inr (buildPool sz o, f)
    end.

(** [time.NewTicker(d)] panics when [d <= 0]
    ("non-positive interval for NewTicker"). *)
Definition NewTicker (now d : Z) : option Z :=
  if d <=? 0 then None else Some (now + d).

(** ** future.go *)

Module Fut.
Section Future.
Context {V E : Type}.

(** [done] is "the channel is closed"; [once] is "sync.Once has run". *)
Record future := MkFuture {
  result : option V;
  err : option E;
  done : bool;
  once : bool
}.

Definition newFuture : future := MkFuture None None false false.

Definition setResult (r : option V) (e : option E) (f : future) : future :=
  if once f then f else MkFuture r e true true.

Definition IsDone (f : future) : bool := done f.

(** [Get]: [None] while the receive on [done] blocks. *)
Definition Get (f : future) : option (option V * option E) :=
  if done f then Some (result f, err f) else None.

(** [GetWithTimeout]: [fired] tells whether the timer wins the select. *)
Definition GetWithTimeout (fired : bool) (f : future)
  : option (option V * option error + option V * option E) :=
  if done f then
    if fired then Some (inl (None, Some ErrTimeout)) else Some (inr (result f, err f))
  else
    if fired then Some (inl (None, Some ErrTimeout)) else None.

(** Producers and observers of one future.  Every call of [Get] is a
    goroutine parked on the channel until it is closed; it reads the two
    fields when it resumes.  [gets !! i] is the state of the i-th call:
    [None] while parked, [Some p] once it has returned [p]. *)
Inductive fevent :=
| CallSet (r : option V) (e : option E)
| CallGet
| ResumeGet (i : nat).

Record fstate := MkFState {
  cell : future;
  gets : list (option (option V * option E))
}.

Definition finit : fstate := MkFState newFuture [].

Definition fstep (s : fstate) (ev : fevent) : option fstate :=
  match ev with
  | CallSet r e => Some (MkFState (setResult r e (cell s)) (gets s))
  | CallGet => Some (MkFState (cell s) (gets s ++ [None]))
  | ResumeGet i =>
      match gets s !! i with
      | Some None =>
          p ← Get (cell s);
          Some (MkFState (cell s) (<[i := Some p]> (gets s)))
      | _ => None
      end
  end.

Fixpoint frun (s : fstate) (evs : list fevent) : option fstate :=
  match evs with
  | [] => Some s
  | ev :: evs' => s' ← fstep s ev; frun s' evs'
  end.

(** The pair of the first [setResult] call of a schedule, if any, given
    the pair [o] stored before the schedule starts. *)
Fixpoint first_set (o : option (option V * option E)) (evs : list fevent)
  : option (option V * option E) :=
  match evs with
  | [] => o
  | CallSet r e :: evs' =>
      first_set (match o with None => Some (r, e) | Some _ => o end) evs'
  | _ :: evs' => first_set o evs'
  end.

(** What the first stored pair says about a state. *)
Definition settled (o : option (option V * option E)) (s : fstate) : Prop :=
  match o with
  | None => cell s = newFuture /\ Forall (fun g => g = None) (gets s)
  | Some (r, e) =>
      cell s = MkFuture r e true true /\
      Forall (fun g => g = None \/ g = Some (r, e)) (gets s)
  end.
End Future.
End Fut.

(** ** The scheduler: goroutines of pool.go / pool_func.go / worker.go

    The generic pool and the function pool have the same scheduler text;
    they differ in the payload put in a worker's inbox (a callable, resp.
    an argument) and in what the worker does with it ([task()], resp.
    [w.pool.poolFunc(args)]).  [exec] is that call: it returns or panics. *)

Inductive outcome := Returns | Panics.

Inductive logline := LogExpired (idx : Z) | LogPanic.

(** Goroutine of a worker ([goWorker.run], with [putWorker] inlined). *)
Inductive wpc (A : Type) :=
| WNotStarted
| WRecv                          (* worker.go 45: for task := range w.task *)
| WExec (a : A)                  (* worker.go 52: task() *)
| WPutCheck                      (* pool.go 371 *)
| WPutStamp                      (* pool.go 376 *)
| WPutLock                       (* pool.go 378 *)
| WPutInsert                     (* pool.go 381-384 *)
| WPutSignal                     (* pool.go 388-393 *)
| WDeferDec (panicked : bool)    (* worker.go 29 *)
| WDeferSignal (panicked : bool) (* worker.go 32-41 *)
| WDone.
Arguments WNotStarted {A}.
Arguments WRecv {A}.
Arguments WExec {A}.
Arguments WPutCheck {A}.
Arguments WPutStamp {A}.
Arguments WPutLock {A}.
Arguments WPutInsert {A}.
Arguments WPutSignal {A}.
Arguments WDeferDec {A}.
Arguments WDeferSignal {A}.
Arguments WDone {A}.

(** The API calls a client goroutine can make.  [Submit None] is
    [Submit(nil)]; for the function pool [Submit a] reads [Invoke(a)].
    [SubmitWithResult] takes the path of [Submit] with a non-nil wrapper. *)
Inductive call (A : Type) :=
| Submit (task : option A)
| Release
| Reboot.
Arguments Submit {A}.
Arguments Release {A}.
Arguments Reboot {A}.

(** Goroutine of a client inside [Submit] (with [getWorker] inlined),
    [Release] or [Reboot]. *)
Inductive cpc :=
| SubmitEntry                       (* pool.go 171 *)
| GwLock                            (* 307 *)
| GwDetach                          (* 310-316 *)
| GwLoadCapacity                    (* 319 *)
| GwLoadRunning (cap : Z)           (* 320 *)
| GwBranch (cap run : Z)            (* 322-347 *)
| GwNew                             (* 327-331 *)
| GwIncRunning (w : ptr)            (* 334 *)
| GwRun (w : ptr)                   (* 337-339 *)
| GwIncWaiting                      (* 350 *)
| GwCondWait                        (* 351: join the notify list, unlock *)
| GwParked                          (* 351: sleep until notified, relock *)
| GwDecWaiting                      (* 352 *)
| GwCheckClosed                     (* 355-358 *)
| GwDetachAgain                     (* 361-364 *)
| SubmitSend (w : ptr)              (* 177 *)
| SubmitReturned (r : option error) (* 172, 178, 181 *)
| ReleaseCas                        (* 239 *)
| ReleaseCloseStop                  (* 244 *)
| ReleaseReadDone                   (* 245: evaluate p.cleaningDone *)
| ReleaseWaitDone (c : nat)         (* 245: receive *)
| ReleaseLock                       (* 247 *)
| ReleaseReset                      (* 249-250 *)
| ReleaseBroadcast                  (* 253 *)
| ReleaseReturned
| RebootCas                         (* 293 *)
| RebootMakeStop                    (* 295 *)
| RebootMakeDone                    (* 296 *)
| RebootGo                          (* 298 *)
| RebootReturned.

(** Goroutine of [cleanExpiredWorkers]. *)
Inductive spc :=
| CNewTicker                  (* 398 *)
| CSelect                     (* 405 *)
| CCheckClosed                (* 408 *)
| CLock                       (* 412 *)
| CRefresh                    (* 413-414 *)
| CLog (indices : list Z)     (* 417-421 *)
| CDec (indices : list Z)     (* 424-427 *)
| CDeferred                   (* 399-402 *)
| CDone.

Inductive event (A : Type) :=
| Tick (dt : Z)               (* the clock advances by dt > 0 *)
| Call (c : call A)           (* a new client goroutine enters an API call *)
| Client (i : nat)            (* client i takes its next step *)
| Worker (w : ptr)            (* the goroutine of worker w takes its next step *)
| Sweeper (k : nat)           (* sweeper k steps; at the select: ticker case *)
| SweeperStop (k : nat).      (* sweeper k at the select: stopCleaning case *)
Arguments Tick {A}.
Arguments Call {A}.
Arguments Client {A}.
Arguments Worker {A}.
Arguments Sweeper {A}.
Arguments SweeperStop {A}.

Definition set_running (r : Z) (p : Pool) : Pool :=
  MkPool (capacity p) r (state p) (workers p) (options p) (waiting p)
         (stopCleaning p) (cleaningDone p).
Definition set_state (st : Z) (p : Pool) : Pool :=
  MkPool (capacity p) (running p) st (workers p) (options p) (waiting p)
         (stopCleaning p) (cleaningDone p).
Definition set_workers (q : workerQueue) (p : Pool) : Pool :=
  MkPool (capacity p) (running p) (state p) q (options p) (waiting p)
         (stopCleaning p) (cleaningDone p).
Definition set_waiting (n : Z) (p : Pool) : Pool :=
  MkPool (capacity p) (running p) (state p) (workers p) (options p) n
         (stopCleaning p) (cleaningDone p).
Definition set_stopCleaning (c : nat) (p : Pool) : Pool :=
  MkPool (capacity p) (running p) (state p) (workers p) (options p) (waiting p)
         c (cleaningDone p).
Definition set_cleaningDone (c : nat) (p : Pool) : Pool :=
  MkPool (capacity p) (running p) (state p) (workers p) (options p) (waiting p)
         (stopCleaning p) c.

(** [atomic.AddInt32(&p.running, d)], [atomic.AddInt32(&p.waiting, d)]. *)
Definition add_running (d : Z) (p : Pool) : Pool :=
  set_running (wrap32 (running p + d)) p.
Definition add_waiting (d : Z) (p : Pool) : Pool :=
  set_waiting (wrap32 (waiting p + d)) p.

Section Scheduler.
Context {A : Type}.
Variable exec : A -> outcome.

(** Dispatch through the [workerQueue] interface. *)
Definition q_len (q : workerQueue) : nat :=
  match q with
  | QStack wq => Stack.len wq
  | QRing wq => Ring.len wq
  end.

Definition q_insert (q : workerQueue) (w : ptr) : option (option error * workerQueue) :=
  match q with
  | QStack wq => let '(e, wq') := Stack.insert wq w in Some (e, QStack wq')
  | QRing wq => '(e, wq') ← Ring.insert wq w; Some (e, QRing wq')
  end.

Definition q_detach (q : workerQueue) : option (option ptr * workerQueue) :=
  match q with
  | QStack wq => let '(w, wq') := Stack.detach wq in Some (w, QStack wq')
  | QRing wq => '(w, wq') ← Ring.detach wq; Some (w, QRing wq')
  end.

Definition q_refresh (h : heap A) (now d : Z) (q : workerQueue)
  : option (heap A * workerQueue * list Z) :=
  match q with
  | QStack wq => '(h', wq', ix) ← Stack.refresh h now d wq; Some (h', QStack wq', ix)
  | QRing wq => '(h', wq', ix) ← Ring.refresh h now d wq; Some (h', QRing wq', ix)
  end.

Definition q_reset (h : heap A) (q : workerQueue)
  : option (heap A * workerQueue) :=
  match q with
  | QStack wq => '(h', wq') ← Stack.reset h wq; Some (h', QStack wq')
  | QRing wq => '(h', wq') ← Ring.reset h wq; Some (h', QRing wq')
  end.

(** Everything the goroutines share. *)
Record World := MkWorld {
  pool : Pool;
  locked : bool;                   (* p.lock is held *)
  notify : list nat;               (* p.cond: clients parked in Wait, oldest first *)
  objects : heap A;                (* the worker objects *)
  routines : list (wpc A);         (* the goroutine of each worker *)
  chans : list bool;               (* the chan struct{} objects: closed? *)
  clients : list (call A * cpc);
  sweepers : list (spc * Z);       (* with the ticker's next due time *)
  clock : Z;
  crashed : bool;                  (* a panic left a goroutine unrecovered *)
  logged : list logline
}.

Definition on_pool (f : Pool -> Pool) (s : World) : World :=
  MkWorld (f (pool s)) (locked s) (notify s) (objects s) (routines s) (chans s)
          (clients s) (sweepers s) (clock s) (crashed s) (logged s).
Definition set_locked (b : bool) (s : World) : World :=
  MkWorld (pool s) b (notify s) (objects s) (routines s) (chans s)
          (clients s) (sweepers s) (clock s) (crashed s) (logged s).
Definition set_notify (l : list nat) (s : World) : World :=
  MkWorld (pool s) (locked s) l (objects s) (routines s) (chans s)
          (clients s) (sweepers s) (clock s) (crashed s) (logged s).
Definition set_objects (h : heap A) (s : World) : World :=
  MkWorld (pool s) (locked s) (notify s) h (routines s) (chans s)
          (clients s) (sweepers s) (clock s) (crashed s) (logged s).
Definition set_routines (r : list (wpc A)) (s : World) : World :=
  MkWorld (pool s) (locked s) (notify s) (objects s) r (chans s)
          (clients s) (sweepers s) (clock s) (crashed s) (logged s).
Definition set_chans (c : list bool) (s : World) : World :=
  MkWorld (pool s) (locked s) (notify s) (objects s) (routines s) c
          (clients s) (sweepers s) (clock s) (crashed s) (logged s).
Definition set_clients (c : list (call A * cpc)) (s : World) : World :=
  MkWorld (pool s) (locked s) (notify s) (objects s) (routines s) (chans s)
          c (sweepers s) (clock s) (crashed s) (logged s).
Definition set_sweepers (c : list (spc * Z)) (s : World) : World :=
  MkWorld (pool s) (locked s) (notify s) (objects s) (routines s) (chans s)
          (clients s) c (clock s) (crashed s) (logged s).
Definition set_clock (t : Z) (s : World) : World :=
  MkWorld (pool s) (locked s) (notify s) (objects s) (routines s) (chans s)
          (clients s) (sweepers s) t (crashed s) (logged s).
Definition crash (s : World) : World :=
  MkWorld (pool s) (locked s) (notify s) (objects s) (routines s) (chans s)
          (clients s) (sweepers s) (clock s) true (logged s).
Definition add_log (l : list logline) (s : World) : World :=
  MkWorld (pool s) (locked s) (notify s) (objects s) (routines s) (chans s)
          (clients s) (sweepers s) (clock s) (crashed s) (logged s ++ l).

(** The world right after a constructor returned at time [now]: two
    fresh channels and the sweeper goroutine just spawned. *)
Definition boot (p : Pool) (now : Z) : World :=
  MkWorld p false [] [] [] [false; false] [] [(CNewTicker, 0)] now false [].

(** [cond.Signal] wakes the oldest parked goroutine, [cond.Broadcast]
    all of them. *)
Definition Signal (s : World) : World := set_notify (tail (notify s)) s.
Definition Broadcast (s : World) : World := set_notify [] s.

Definition IsClosed (s : World) : bool := state (pool s) =? CLOSED.

(** [close(c)]: [None] is the panic of closing a closed channel. *)
Definition close_chan (c : nat) (s : World) : option World :=
  match chans s !! c with
  | Some false => Some (set_chans (<[c := true]> (chans s)) s)
  | _ => None
  end.

Definition is_closed_chan (c : nat) (s : World) : bool :=
  match chans s !! c with
  | Some true => true
  | _ => false
  end.

Definition entry (c : call A) : cpc :=
  match c with
  | Submit _ => SubmitEntry
  | Release => ReleaseCas
  | Reboot => RebootCas
  end.

(** *** Clients: [Submit]/[Invoke] with [getWorker], [Release], [Reboot] *)

Definition step_client (i : nat) (s : World) : option World :=
  '(c, pc) ← clients s !! i;
  let goto pc' s' := Some (set_clients (<[i := (c, pc')]> (clients s')) s') in
  match c, pc with
  (* Submit: if p.IsClosed() { return ErrPoolClosed } *)
  | Submit _, SubmitEntry =>
      if IsClosed s then goto (SubmitReturned (Some ErrPoolClosed)) s
      else goto GwLock s
  (* getWorker: p.lock.Lock() *)
  | Submit _, GwLock =>
      if locked s then None else goto GwDetach (set_locked true s)
  (* w = p.workers.detach(); if w != nil { unlock; return w } *)
  | Submit _, GwDetach =>
      match q_detach (workers (pool s)) with
      | None => Some (crash s)
      | Some (Some w, q') =>
          goto (SubmitSend w) (set_locked false (on_pool (set_workers q') s))
      | Some (None, q') => goto GwLoadCapacity (on_pool (set_workers q') s)
      end
  | Submit _, GwLoadCapacity => goto (GwLoadRunning (capacity (pool s))) s
  | Submit _, GwLoadRunning cap => goto (GwBranch cap (running (pool s))) s
  (* if capacity == -1 || running < capacity {...}; if Nonblocking {...} *)
  | Submit _, GwBranch cap run =>
      if (cap =? -1) || (run <? cap) then goto GwNew (set_locked false s)
      else if Nonblocking (options (pool s)) then
        goto (SubmitReturned (Some ErrPoolOverload)) (set_locked false s)
      else goto GwIncWaiting s
  (* w = p.workerPool.Get(); recycled = 0; w.lastUsed = time.Now() *)
  | Submit _, GwNew =>
      let w := length (objects s) in
      goto (GwIncRunning w)
           (set_routines (routines s ++ [WNotStarted])
              (set_objects (objects s ++ [GoWorker [] false (clock s) 0]) s))
  | Submit _, GwIncRunning w => goto (GwRun w) (on_pool (add_running 1) s)
  (* w.run(); return w *)
  | Submit _, GwRun w =>
      goto (SubmitSend w) (set_routines (<[w := WRecv]> (routines s)) s)
  | Submit _, GwIncWaiting => goto GwCondWait (on_pool (add_waiting 1) s)
  | Submit _, GwCondWait =>
      goto GwParked (set_locked false (set_notify (notify s ++ [i]) s))
  | Submit _, GwParked =>
      if bool_decide (i ∈ notify s) || locked s then None
      else goto GwDecWaiting (set_locked true s)
  | Submit _, GwDecWaiting => goto GwCheckClosed (on_pool (add_waiting (-1)) s)
  (* if state == CLOSED { unlock; return nil }: Submit answers ErrPoolOverload *)
  | Submit _, GwCheckClosed =>
      if IsClosed s then
        goto (SubmitReturned (Some ErrPoolOverload)) (set_locked false s)
      else goto GwDetachAgain s
  (* w = p.workers.detach(); unlock; return w *)
  | Submit _, GwDetachAgain =>
      match q_detach (workers (pool s)) with
      | None => Some (crash s)
      | Some (Some w, q') =>
          goto (SubmitSend w) (set_locked false (on_pool (set_workers q') s))
      | Some (None, q') =>
          goto (SubmitReturned (Some ErrPoolOverload))
               (set_locked false (on_pool (set_workers q') s))
      end
  (* w.task <- task; return nil *)
  | Submit task, SubmitSend w =>
      match objects s !! w with
      | None => Some (crash s)
      | Some o =>
          if inboxClosed o then Some (crash s)
          else if Nat.leb workerChanCap (length (inbox o)) then None
          else
            goto (SubmitReturned None)
                 (set_objects
                    (<[w := GoWorker (inbox o ++ [task]) false (lastUsed o) (recycled o)]>
                       (objects s)) s)
      end
  (* Release *)
  | Release, ReleaseCas =>
      if state (pool s) =? OPENED then
        goto ReleaseCloseStop (on_pool (set_state CLOSED) s)
      else goto ReleaseReturned s
  | Release, ReleaseCloseStop =>
      match close_chan (stopCleaning (pool s)) s with
      | None => Some (crash s)
      | Some s' => goto ReleaseReadDone s'
      end
  | Release, ReleaseReadDone => goto (ReleaseWaitDone (cleaningDone (pool s))) s
  | Release, ReleaseWaitDone c =>
      if is_closed_chan c s then goto ReleaseLock s else None
  | Release, ReleaseLock =>
      if locked s then None else goto ReleaseReset (set_locked true s)
  | Release, ReleaseReset =>
      match q_reset (objects s) (workers (pool s)) with
      | None => Some (crash s)
      | Some (h', q') =>
          goto ReleaseBroadcast
               (set_locked false (set_objects h' (on_pool (set_workers q') s)))
      end
  | Release, ReleaseBroadcast => goto ReleaseReturned (Broadcast s)
  (* Reboot *)
  | Reboot, RebootCas =>
      if state (pool s) =? CLOSED then
        goto RebootMakeStop (on_pool (set_state OPENED) s)
      else goto RebootReturned s
  | Reboot, RebootMakeStop =>
      goto RebootMakeDone
           (on_pool (set_stopCleaning (length (chans s)))
              (set_chans (chans s ++ [false]) s))
  | Reboot, RebootMakeDone =>
      goto RebootGo
           (on_pool (set_cleaningDone (length (chans s)))
              (set_chans (chans s ++ [false]) s))
  | Reboot, RebootGo =>
      goto RebootReturned (set_sweepers (sweepers s ++ [(CNewTicker, 0)]) s)
  | _, _ => None
  end.

(** *** Workers: [goWorker.run] with [putWorker] *)

Definition step_worker (w : ptr) (s : World) : option World :=
  pc ← routines s !! w;
  o ← objects s !! w;
  let goto pc' s' := Some (set_routines (<[w := pc']> (routines s')) s') in
  match pc with
  (* for task := range w.task { if task == nil { return } ... } *)
  | WRecv =>
      match inbox o with
      | t :: rest =>
          let s' := set_objects
                      (<[w := GoWorker rest (inboxClosed o) (lastUsed o) (recycled o)]>
                         (objects s)) s in
          match t with
          | None => goto (WDeferDec false) s'
          | Some a => goto (WExec a) s'
          end
      | [] => if inboxClosed o then goto (WDeferDec false) s else None
      end
  (* task() *)
  | WExec a =>
      match exec a with
      | Returns => goto WPutCheck s
      | Panics => goto (WDeferDec true) s
      end
  (* putWorker: if state == CLOSED { return false } *)
  | WPutCheck => if IsClosed s then goto (WDeferDec false) s else goto WPutStamp s
  (* worker.lastUsed = time.Now() *)
  | WPutStamp =>
      goto WPutLock
           (set_objects
              (<[w := GoWorker (inbox o) (inboxClosed o) (clock s) (recycled o)]>
                 (objects s)) s)
  | WPutLock => if locked s then None else goto WPutInsert (set_locked true s)
  (* if err := p.workers.insert(worker); err != nil { unlock; return false } *)
  | WPutInsert =>
      match q_insert (workers (pool s)) w with
      | None => goto (WDeferDec true) s
      | Some (Some _, q') =>
          goto (WDeferDec false) (set_locked false (on_pool (set_workers q') s))
      | Some (None, q') => goto WPutSignal (on_pool (set_workers q') s)
      end
  (* if waiting > 0 { p.cond.Signal() }; unlock; return true *)
  | WPutSignal =>
      goto WRecv
           (set_locked false (if 0 <? waiting (pool s) then Signal s else s))
  (* deferred: atomic.AddInt32(&w.pool.running, -1) *)
  | WDeferDec panicked => goto (WDeferSignal panicked) (on_pool (add_running (-1)) s)
  (* deferred: recover, handler or log line; w.pool.cond.Signal() *)
  | WDeferSignal panicked =>
      let s' := if panicked then
                  if PanicHandler (options (pool s)) then s
                  else if Logger (options (pool s)) then add_log [LogPanic] s
                  else s
                else s in
      goto WDone (Signal s')
  | WNotStarted | WDone => None
  end.

(** *** The sweeper: [cleanExpiredWorkers] *)

(** The ticker keeps one pending tick: after a receive at [now] the next
    tick is the first multiple of the period after [now]. *)
Definition next_due (due d now : Z) : Z := due + d * ((now - due) / d + 1).

Definition step_sweeper (k : nat) (stop : bool) (s : World) : option World :=
  '(pc, due) ← sweepers s !! k;
  let goto pc' due' s' := Some (set_sweepers (<[k := (pc', due')]> (sweepers s')) s') in
  let d := ExpiryDuration (options (pool s)) in
  match pc, stop with
  | CNewTicker, false =>
      match NewTicker (clock s) d with
      | None => Some (crash s)
      | Some due' => goto CSelect due' s
      end
  | CSelect, false =>
      if due <=? clock s then goto CCheckClosed (next_due due d (clock s)) s
      else None
  | CSelect, true =>
      if is_closed_chan (stopCleaning (pool s)) s then goto CDeferred due s else None
  | CCheckClosed, false =>
      if IsClosed s then goto CDeferred due s else goto CLock due s
  | CLock, false => if locked s then None else goto CRefresh due (set_locked true s)
  | CRefresh, false =>
      match q_refresh (objects s) (clock s) d (workers (pool s)) with
      | None => Some (crash s)
      | Some (h', q', ix) =>
          goto (CLog ix) due
               (set_locked false (set_objects h' (on_pool (set_workers q') s)))
      end
  | CLog ix, false =>
      goto (CDec ix) due
           (if Nat.ltb 0 (length ix) && Logger (options (pool s))
            then add_log (LogExpired <$> ix) s else s)
  (* n := int32(len(expiredWorkers)); if n > 0 { AddInt32(&p.running, -n) } *)
  | CDec ix, false =>
      let n := wrap32 (Z.of_nat (length ix)) in
      goto CSelect due (if 0 <? n then on_pool (add_running (- n)) s else s)
  (* deferred: ticker.Stop(); close(p.cleaningDone) *)
  | CDeferred, false =>
      match close_chan (cleaningDone (pool s)) s with
      | None => Some (crash s)
      | Some s' => goto CDone due s'
      end
  | _, _ => None
  end.

(** *** Schedules *)

Definition step (s : World) (ev : event A) : option World :=
  if crashed s then None
  else
    match ev with
    | Tick dt => if 0 <? dt then Some (set_clock (clock s + dt) s) else None
    | Call c => Some (set_clients (clients s ++ [(c, entry c)]) s)
    | Client i => step_client i s
    | Worker w => step_worker w s
    | Sweeper k => step_sweeper k false s
    | SweeperStop k => step_sweeper k true s
    end.

Fixpoint run (s : World) (evs : list (event A)) : option World :=
  match evs with
  | [] => Some s
  | ev :: evs' => s' ← step s ev; run s' evs'
  end.

(** Observations: [Running()], [Free()], [Cap()], [Waiting()]. *)
Definition Running (s : World) : Z := running (pool s).
Definition Free (s : World) : nat := q_len (workers (pool s)).
Definition Cap (s : World) : Z := capacity (pool s).
Definition Waiting (s : World) : Z := waiting (pool s).

(** What the i-th client's call has returned, if it has. *)
Definition answer (i : nat) (s : World) : option (option error) :=
  match clients s !! i with
  | Some (_, SubmitReturned r) => Some r
  | _ => None
  end.
End Scheduler.

(** ** Vocabulary of the properties *)

Definition is_stack (q : workerQueue) : bool :=
  match q with QStack _ => true | QRing _ => false end.
Definition is_ring (q : workerQueue) : bool :=
  match q with QStack _ => false | QRing _ => true end.

Section Idle.
Context {A : Type}.
Implicit Types (h : heap A) (p q : ptr) (ps : list ptr).

Definition lastUsedOf h p : Z := default 0 (stamp h p).

(** An idle worker: allocated, inbox still open. *)
Definition alive h p : bool :=
  match h !! p with
  | Some w => negb (inboxClosed w)
  | None => false
  end.

(** A reclaimed worker: [finish] ran on it. *)
Definition finished h p : bool :=
  match h !! p with
  | Some w => inboxClosed w && (recycled w =? 1)
  | None => false
  end.

(** The idle workers of a store: distinct, all alive. *)
Definition idle_ok h ps : Prop :=
  NoDup ps /\ Forall (fun p => alive h p = true) ps.

(** Non-decreasing [lastUsed], oldest at the head. *)
Definition chronological h ps : Prop :=
  StronglySorted Z.le (lastUsedOf h <$> ps).
End Idle.

(** The slots of the ring between [head] and [tail], oldest first. *)
Definition live (wq : Ring.loopQueue) : list (option ptr) :=
  if Ring.isFull wq || Nat.ltb (Ring.tail wq) (Ring.head wq) then
    drop (Ring.head wq) (Ring.items wq) ++ take (Ring.tail wq) (Ring.items wq)
  else take (Ring.tail wq - Ring.head wq) (drop (Ring.head wq) (Ring.items wq)).

Definition ring_ok (wq : Ring.loopQueue) : Prop :=
  length (Ring.items wq) = Ring.size wq /\
  (Ring.head wq < Ring.size wq)%nat /\
  (Ring.tail wq < Ring.size wq)%nat /\
  (Ring.isFull wq = true -> Ring.head wq = Ring.tail wq).

(** The ring holds exactly the idle workers [ps], oldest first. *)
Definition holds (wq : Ring.loopQueue) (ps : list ptr) : Prop :=
  ring_ok wq /\ live wq = Some <$> ps.

(** The ring after one removal at the head. *)
Definition popped (wq : Ring.loopQueue) : Ring.loopQueue :=
  Ring.LoopQueue (<[Ring.head wq := None]> (Ring.items wq))
                 (Ring.advance (Ring.size wq) (Ring.head wq))
                 (Ring.tail wq) (Ring.size wq) false.

(** Number of non-nil slots of the ring's array. *)
Definition occupied (its : list (option ptr)) : nat :=
  length (filter is_Some its).

Section LifecycleVocabulary.
Context {A : Type}.
Implicit Types (s : World (A:=A)) (ev : event A).

(** A [Reboot] call that has not yet executed its compare-and-swap. *)
Definition reboot_pending s : Prop :=
  exists i, clients s !! i = Some (Reboot, RebootCas).

Definition is_reboot_call ev : bool :=
  match ev with
  | Call Reboot => true
  | _ => false
  end.

Definition no_reboot_call (evs : list (event A)) : bool :=
  forallb (fun ev => negb (is_reboot_call ev)) evs.

(** No [Reboot] is about to execute its compare-and-swap, and once the
    i-th call, a [Release], is past its own the pool is closed. *)
Definition released (i : nat) s : Prop :=
  (state (pool s) = OPENED \/ state (pool s) = CLOSED) /\
  ~ reboot_pending s /\
  (forall pc, clients s !! i = Some (Release, pc) -> pc <> ReleaseCas ->
              state (pool s) = CLOSED).

(** The pool is closed, and the submissions made since the n-th call
    have been answered [ErrPoolClosed] or have not started yet. *)
Definition closed_since (n : nat) s : Prop :=
  state (pool s) = CLOSED /\
  ~ reboot_pending s /\
  (forall j t pc, (n <= j)%nat -> clients s !! j = Some (Submit t, pc) ->
                  pc = SubmitEntry \/ pc = SubmitReturned (Some ErrPoolClosed)).

(** A worker is available to a submission: [w] is the idle worker that
    [detach] hands out, parked at its inbox; or the store is empty, the
    capacity allows a new worker, and [w] is the address the new worker
    gets.  [q'] is the store after the detach. *)
Definition worker_available s (w : ptr) (q' : workerQueue) : Prop :=
  (exists o, q_detach (workers (pool s)) = Some (Some w, q') /\
             objects s !! w = Some o /\ inbox o = [] /\ inboxClosed o = false /\
             routines s !! w = Some WRecv) \/
  (q_detach (workers (pool s)) = Some (None, q') /\
   (capacity (pool s) = -1 \/ running (pool s) < capacity (pool s)) /\
   w = length (objects s)).
End LifecycleVocabulary.

(** ** Example pools and schedules

    The payload is the behaviour of the callable; [id] runs it. *)

(** NewPool(1, WithExpiryDuration(time.Second)) *)
Definition pool_one : World (A:=outcome) :=
  boot (buildPool 1 (NewOptions [WithExpiryDuration second])) 0.

(** One task is submitted and completes; its worker is back in the idle
    store. *)
Definition one_task_done : list (event outcome) :=
  [Sweeper 0%nat; Call (Submit (Some Returns))] ++ replicate 10 (Client 0%nat)
  ++ replicate 7 (Worker 0%nat).

(** Two seconds later the sweeper's ticker fires and the sweep runs, up
    to the decrement of [running]. *)
Definition expiry_sweep : list (event outcome) :=
  [Tick (2 * second)] ++ replicate 6 (Sweeper 0%nat).

(** The reclaimed worker finds its inbox closed and exits through its
    deferred function. *)
Definition worker_exit : list (event outcome) := replicate 3 (Worker 0%nat).

(** NewPool(1): blocking mode. *)
Definition blocking_one : World (A:=outcome) :=
  boot (buildPool 1 (NewOptions [])) 0.

(** Client 0 occupies the only worker; client 1 parks in [cond.Wait]; the
    worker finishes, re-enters the store and signals; client 2 takes the
    worker before client 1 has the lock again. *)
Definition steal : list (event outcome) :=
  [Sweeper 0%nat; Call (Submit (Some Returns))] ++ replicate 10 (Client 0%nat)
  ++ [Worker 0%nat]
  ++ [Call (Submit (Some Returns))] ++ replicate 8 (Client 1%nat)
  ++ replicate 6 (Worker 0%nat)
  ++ [Call (Submit (Some Returns))] ++ replicate 4 (Client 2%nat)
  ++ replicate 4 (Client 1%nat).

(** Two clients pass the capacity check of [getWorker] one after the
    other, each before the other's [atomic.AddInt32(&p.running, 1)]. *)
Definition both_create : list (event outcome) :=
  [Sweeper 0%nat; Call (Submit (Some Returns)); Call (Submit (Some Returns))]
  ++ replicate 6 (Client 0%nat) ++ replicate 6 (Client 1%nat)
  ++ replicate 4 (Client 0%nat) ++ replicate 4 (Client 1%nat).

(** NewPool(2, WithExpiryDuration(time.Second)) *)
Definition pool_two : World (A:=outcome) :=
  boot (buildPool 2 (NewOptions [WithExpiryDuration second])) 0.

(** Two workers finish their tasks.  Worker 0 stamps [lastUsed] at time 5
    and is delayed before [p.lock.Lock()]; worker 1 stamps at time 10 and
    inserts; then worker 0 inserts. *)
Definition race : list (event outcome) :=
  [Sweeper 0%nat; Call (Submit (Some Returns)); Call (Submit (Some Returns))]
  ++ replicate 10 (Client 0%nat) ++ replicate 10 (Client 1%nat)
  ++ [Tick 5] ++ replicate 4 (Worker 0%nat)
  ++ [Tick 5] ++ replicate 7 (Worker 1%nat)
  ++ replicate 3 (Worker 0%nat).

(** The first tick of the sweeper, 7 ns after the expiry period, up to
    the end of [refresh]. *)
Definition late_sweep : list (event outcome) :=
  [Tick (second - 3)] ++ replicate 4 (Sweeper 0%nat).

(** [Release] runs to its return while the sweeper stops. *)
Definition shutdown : list (event outcome) :=
  [Sweeper 0%nat; Call Release; Client 0%nat; Client 0%nat; Client 0%nat;
   SweeperStop 0%nat; Sweeper 0%nat]
  ++ replicate 4 (Client 0%nat).

(** A submission and a second [Release] after the shutdown. *)
Definition after_shutdown : list (event outcome) :=
  [Call (Submit (Some Returns)); Client 1%nat; Call Release; Client 2%nat].

(** Three idle workers, stamped 1, 5 and 9. *)
Definition three_idle : heap outcome :=
  [GoWorker [] false 1 0; GoWorker [] false 5 0; GoWorker [] false 9 0].

(** The ring of size 4 after one insert and one detach, then the three
    workers inserted in order: head = 1, tail = 0. *)
Definition ring_three : Ring.loopQueue :=
  Ring.LoopQueue [None; Some 0%nat; Some 1%nat; Some 2%nat] 1 0 4 false.

(** ** Further vocabulary *)

(** worker.go: [isRecycled]. *)
Definition isRecycled {A : Type} (w : goWorker A) : bool := recycled w =? 1.

(** How many elements of a list satisfy a test. *)
Fixpoint tally {X : Type} (f : X -> bool) (l : list X) : nat :=
  match l with
  | [] => 0%nat
  | x :: l' => ((if f x then 1 else 0) + tally f l')%nat
  end.

(** A submitter between [atomic.AddInt32(&p.waiting, 1)] and
    [atomic.AddInt32(&p.waiting, -1)] (pool.go 350-352). *)
Definition in_wait (pc : cpc) : bool :=
  match pc with
  | GwCondWait | GwParked | GwDecWaiting => true
  | _ => false
  end.

(** The blocking path of [getWorker] (pool.go 350-364). *)
Definition on_wait_path (pc : cpc) : bool :=
  match pc with
  | GwIncWaiting | GwCondWait | GwParked | GwDecWaiting
  | GwCheckClosed | GwDetachAgain => true
  | _ => false
  end.

(** Program points between [p.lock.Lock()] and [p.lock.Unlock()]. *)
Definition client_in_lock (pc : cpc) : bool :=
  match pc with
  | GwDetach | GwLoadCapacity | GwLoadRunning _ | GwBranch _ _
  | GwIncWaiting | GwCondWait | GwDecWaiting | GwCheckClosed | GwDetachAgain
  | ReleaseReset => true
  | _ => false
  end.

Definition worker_in_lock {A : Type} (pc : wpc A) : bool :=
  match pc with
  | WPutInsert | WPutSignal => true
  | _ => false
  end.

Definition sweeper_in_lock (pc : spc) : bool :=
  match pc with
  | CRefresh => true
  | _ => false
  end.

(** Program points a submitter to an unbounded pool can be at: off the
    blocking path, not answered ErrPoolOverload, and with -1 as the
    capacity it loaded. *)
Definition unbounded_pc (pc : cpc) : bool :=
  match pc with
  | GwLoadRunning cap | GwBranch cap _ => cap =? -1
  | SubmitReturned (Some ErrPoolOverload) => false
  | _ => negb (on_wait_path pc)
  end.

(** Program points a submitter can be at while no worker exists and
    none may be created: the loaded capacity is the pool's, the loaded
    count is 0, and the call has not succeeded. *)
Definition workerless_pc (cap : Z) (pc : cpc) : bool :=
  match pc with
  | GwLoadRunning c => c =? cap
  | GwBranch c r => (c =? cap) && (r =? 0)
  | GwNew | GwIncRunning _ | GwRun _ | SubmitSend _ | SubmitReturned None => false
  | _ => true
  end.

(** The sweeper is not carrying indices of expired workers. *)
Definition sweeper_empty_handed (pc : spc) : bool :=
  match pc with
  | CLog (_ :: _) | CDec (_ :: _) => false
  | _ => true
  end.

Definition store_empty (q : workerQueue) : bool :=
  match q with
  | QStack wq => Stack.isEmpty wq
  | QRing wq => Ring.isEmpty wq
  end.

(** What [finish] does to a worker object, or nothing at all. *)
Definition closed_from {A : Type} (o o' : goWorker A) : Prop :=
  o' = o \/
  (inboxClosed o = false /\ o' = GoWorker (inbox o) true (lastUsed o) 1).

(** The heap [h'] is [h] with some open inboxes closed. *)
Definition closes_only {A : Type} (h h' : heap A) : Prop :=
  Forall2 closed_from h h'.

Section SchedulerVocabulary.
Context {A : Type}.
Implicit Types (s : World (A:=A)).

(** The pool is saturated for a submission: open, lock free, no idle
    worker to detach, bounded, and [running] at or above the capacity.
    [q'] is the store as the failed detach leaves it. *)
Definition saturated s (q' : workerQueue) : Prop :=
  crashed s = false /\ IsClosed s = false /\ locked s = false /\
  q_detach (workers (pool s)) = Some (None, q') /\
  capacity (pool s) <> -1 /\ capacity (pool s) <= running (pool s).

Definition waiters s : nat := tally (fun c => in_wait c.2) (clients s).

Definition lock_holders s : nat :=
  (tally (fun c => client_in_lock c.2) (clients s)
   + tally worker_in_lock (routines s)
   + tally (fun k => sweeper_in_lock k.1) (sweepers s))%nat.

(** No submitter is on the blocking path. *)
Definition nobody_waits s : Prop :=
  forall i c pc, clients s !! i = Some (c, pc) -> on_wait_path pc = false.

(** Every worker's time stamp is in the past. *)
Definition stamps_past s : Prop :=
  Forall (fun o => lastUsed o <= clock s) (objects s).

(** Every worker object has its goroutine slot, a time stamp in the
    past, and is marked recycled exactly when its inbox is closed. *)
Definition heap_ok s : Prop :=
  length (routines s) = length (objects s) /\
  Forall (fun o => lastUsed o <= clock s /\ isRecycled o = inboxClosed o)
         (objects s).

(** From [s] to [s']: same capacity and options, the clock not turned
    back, no worker object freed. *)
Definition unchanged_config s s' : Prop :=
  capacity (pool s') = capacity (pool s) /\
  options (pool s') = options (pool s) /\
  clock s <= clock s' /\
  (length (objects s) <= length (objects s'))%nat.

(** A non-blocking pool at rest on its condition variable. *)
Definition never_blocking s : Prop :=
  Nonblocking (options (pool s)) = true /\
  waiting (pool s) = 0 /\ notify s = [] /\
  Forall (fun c => on_wait_path c.2 = false) (clients s).

Definition unbounded s : Prop :=
  capacity (pool s) = -1 /\ notify s = [] /\
  Forall (fun c => unbounded_pc c.2 = true) (clients s).

(** A pool without workers whose capacity forbids creating one. *)
Definition workerless s : Prop :=
  capacity (pool s) < -1 /\ running (pool s) = 0 /\
  objects s = [] /\ routines s = [] /\
  store_empty (workers (pool s)) = true /\
  Forall (fun c => workerless_pc (capacity (pool s)) c.2 = true) (clients s) /\
  Forall (fun k => sweeper_empty_handed k.1 = true) (sweepers s).
End SchedulerVocabulary.

(** ** Further example pools

    A pool of capacity 1 whose only worker is executing the task [o]:
    NewPool(1, opts...), one Submit run to its return, and the worker
    has taken the task from its inbox. *)
Definition busy (o : outcome) (opts : list Option) : World (A:=outcome) :=
  default pool_one
    (run id (boot (buildPool 1 (NewOptions opts)) 0)
         ([Sweeper 0%nat; Call (Submit (Some o))] ++ replicate 10 (Client 0%nat)
          ++ [Worker 0%nat])).

(** The same after the compare-and-swap of a [Release]. *)
Definition busy_closed : World (A:=outcome) :=
  default pool_one (run id (busy Returns []) [Call Release; Client 1%nat]).

(** [pool_one] after [shutdown]. *)
Definition pool_one_closed : World (A:=outcome) :=
  default pool_one (run id pool_one shutdown).

(** A ring store that is full while one more worker executes a task. *)
Definition full_ring : World (A:=outcome) :=
  MkWorld (MkPool 1 2 OPENED (QRing (Ring.LoopQueue [Some 0%nat] 0 0 1 true))
                  (NewOptions []) 0 0%nat 1%nat)
          false [] [GoWorker [] false 0 0; GoWorker [] false 0 0]
          [WRecv; WExec Returns] [false; false] [] [(CSelect, DefaultExpiryDuration)]
          0 false [].

(** NewPool(-5): accepted by the constructor, capacity -5. *)
Definition pool_minus_five : World (A:=outcome) :=
  boot (buildPool (-5) (NewOptions [])) 0.

(** Two submissions to it, each run until it sleeps in [cond.Wait]. *)
Definition two_submissions : list (event outcome) :=
  [Sweeper 0%nat; Call (Submit (Some Returns))] ++ replicate 8 (Client 0%nat)
  ++ [Call (Submit (Some Returns))] ++ replicate 8 (Client 1%nat).

(** A [Release] is overtaken by a [Reboot] between its compare-and-swap
    and [close(p.stopCleaning)]; then the pool is released again. *)
Definition reboot_race : list (event outcome) :=
  [Sweeper 0%nat; Call Release; Client 0%nat; Call Reboot]
  ++ replicate 4 (Client 1%nat)
  ++ [Client 0%nat; Call Release; Client 2%nat; Client 2%nat].

(** A [Release] is overtaken by a [Reboot] between its compare-and-swap
    and [close(p.stopCleaning)]: it closes the channels Reboot has just
    made, waits for the new sweeper to stop, and returns. *)
Definition release_overtaken : list (event outcome) :=
  [Sweeper 0%nat; Call Release; Client 0%nat; Call Reboot]
  ++ replicate 4 (Client 1%nat)
  ++ [Client 0%nat; Client 0%nat; Sweeper 1%nat; SweeperStop 1%nat; Sweeper 1%nat]
  ++ replicate 4 (Client 0%nat).

(** One submission, run to its return. *)
Definition submit_next (i : nat) : list (event outcome) :=
  Call (Submit (Some Returns)) :: replicate 10 (Client i).

(** [pool_one] after [shutdown] and a [Reboot] run to its return: open
    again, with a second sweeper about to start. *)
Definition rebooted : World (A:=outcome) :=
  default pool_one
    (run id pool_one_closed (Call Reboot :: replicate 4 (Client 1%nat))).

(** The rebooted pool is released: the second sweeper starts, the third
    call, a [Release], closes the pool and stops that sweeper. *)
Definition release_again : list (event outcome) :=
  [Sweeper 1%nat; Call Release; Client 2%nat; Client 2%nat; Client 2%nat;
   SweeperStop 1%nat; Sweeper 1%nat]
  ++ replicate 4 (Client 2%nat).

(** A submission and one more [Release] after that. *)
Definition after_release_again : list (event outcome) :=
  [Call (Submit (Some Returns)); Client 3%nat; Call Release; Client 4%nat].

(** ** Vocabulary of memory safety *)

(** The worker a submitter holds between [getWorker] and the send. *)
Definition holds_worker (w : ptr) (pc : cpc) : bool :=
  match pc with
  | GwIncRunning v | GwRun v | SubmitSend v => Nat.eqb w v
  | _ => false
  end.

(** A goroutine that is not started, waits at its inbox, or is about to. *)
Definition resting_pc {A : Type} (pc : wpc A) : bool :=
  match pc with
  | WNotStarted | WRecv | WPutSignal => true
  | _ => false
  end.

(** A goroutine between the receipt of a task and its re-insertion. *)
Definition busy_pc {A : Type} (pc : wpc A) : bool :=
  match pc with
  | WExec _ | WPutCheck | WPutStamp | WPutLock | WPutInsert => true
  | _ => false
  end.

Definition at_close_stop (pc : cpc) : bool :=
  match pc with
  | ReleaseCloseStop => true
  | _ => false
  end.

(** The idle store holds exactly the workers [ps]. *)
Definition stored (q : workerQueue) (ps : list ptr) : Prop :=
  match q with
  | QStack wq => Stack.items wq = ps
  | QRing wq => holds wq ps
  end.

Section SafetyVocabulary.
Context {A : Type}.
Implicit Types (s : World (A:=A)) (ps : list ptr) (w : ptr).

(** How many places own the worker [w]: submitters holding it, and
    slots of the idle store. *)
Definition owners s ps w : nat :=
  (tally (fun c => holds_worker w c.2) (clients s) + tally (Nat.eqb w) ps)%nat.

(** Every worker has at most one owner; an owned worker rests with an
    open, empty inbox; a busy worker has an open, empty inbox; an inbox
    holds at most one task, and none once it is closed; there is no
    owner of an address that is not allocated. *)
Definition worker_sound s ps w : Prop :=
  (owners s ps w <= 1)%nat /\
  ((length (objects s) <= w)%nat -> owners s ps w = 0%nat) /\
  forall pc o, routines s !! w = Some pc -> objects s !! w = Some o ->
    (length (inbox o) <= 1)%nat /\
    (inboxClosed o = true -> inbox o = []) /\
    (owners s ps w = 1%nat ->
     resting_pc pc = true /\ inboxClosed o = false /\ inbox o = []) /\
    (busy_pc pc = true -> inboxClosed o = false /\ inbox o = []).

Definition workers_sound s : Prop :=
  length (routines s) = length (objects s) /\
  exists ps, stored (workers (pool s)) ps /\ forall w, worker_sound s ps w.

(** The shutdown machinery of a pool that is never rebooted: the two
    channels of the constructor, one sweeper, a positive expiry period;
    [stopCleaning] is closed by the one [Release] that won the
    compare-and-swap, [cleaningDone] by the sweeper when it is done. *)
Definition lifecycle_sound s : Prop :=
  stopCleaning (pool s) = 0%nat /\ cleaningDone (pool s) = 1%nat /\
  (state (pool s) = OPENED \/ state (pool s) = CLOSED) /\
  0 < ExpiryDuration (options (pool s)) /\
  (forall i c pc, clients s !! i = Some (c, pc) -> c <> Reboot) /\
  exists b0 pc due,
    chans s = [b0; match pc with CDone => true | _ => false end] /\
    sweepers s = [(pc, due)] /\
    (tally (fun c => at_close_stop c.2) (clients s) + (if b0 then 1 else 0))%nat
    = (if (state (pool s) =? CLOSED)%Z then 1 else 0)%nat.
End SafetyVocabulary.

(** * Proofs *)

(** ** Construction *)

Lemma wrap32_small z : - 2 ^ 31 <= z < 2 ^ 31 -> wrap32 z = z.
Proof.
  intros Hz. unfold wrap32.
  rewrite Z.mod_small by lia. lia.
Qed.

Lemma NewPool_inr sz opts p :
  NewPool sz opts = inr p ->
  sz <> 0 /\ 0 <= ExpiryDuration (NewOptions opts) /\ p = buildPool sz (NewOptions opts).
Proof.
  unfold NewPool. destruct (Z.eqb_spec sz 0); [discriminate|].
  destruct (Z.ltb_spec (ExpiryDuration (NewOptions opts)) 0); [discriminate|].
  intros [= <-]. auto.
Qed.

Lemma NewPoolWithFunc_inr {F} sz (pf : option F) opts p f :
  NewPoolWithFunc sz pf opts = inr (p, f) ->
  sz <> 0 /\ pf = Some f /\ 0 <= ExpiryDuration (NewOptions opts)
  /\ p = buildPool sz (NewOptions opts).
Proof.
  unfold NewPoolWithFunc. destruct (Z.eqb_spec sz 0); [discriminate|].
  destruct pf as [g|]; [|discriminate].
  destruct (Z.ltb_spec (ExpiryDuration (NewOptions opts)) 0); [discriminate|].
  intros [= <- <-]. auto.
Qed.

(** C6.  Both constructors fail exactly on the listed inputs and produce
    no pool then: size 0 gives ErrInvalidPoolSize; a nil function gives
    ErrInvalidPoolFunc (function pool, size not 0); a negative expiry
    duration gives ErrInvalidPoolExpiry (size not 0, function not nil).
    Every other input, size -1 included, is accepted, and size -1 gives
    capacity -1, the unbounded pool. *)
Theorem construction_errors (F : Type) (sz : Z) (pf : option F) (opts : list Option) :
  let d := ExpiryDuration (NewOptions opts) in
  (NewPool sz opts = inl ErrInvalidPoolSize <-> sz = 0) /\
  (NewPool sz opts = inl ErrInvalidPoolExpiry <-> sz <> 0 /\ d < 0) /\
  (NewPool sz opts = inr (buildPool sz (NewOptions opts)) <-> sz <> 0 /\ 0 <= d) /\
  (NewPoolWithFunc sz pf opts = inl ErrInvalidPoolSize <-> sz = 0) /\
  (NewPoolWithFunc sz pf opts = inl ErrInvalidPoolFunc <-> sz <> 0 /\ pf = None) /\
  (NewPoolWithFunc sz pf opts = inl ErrInvalidPoolExpiry <->
     sz <> 0 /\ pf <> None /\ d < 0) /\
  (forall f, NewPoolWithFunc sz pf opts = inr (buildPool sz (NewOptions opts), f) <->
     sz <> 0 /\ pf = Some f /\ 0 <= d) /\
  (forall e, NewPool sz opts = inl e ->
     e = ErrInvalidPoolSize \/ e = ErrInvalidPoolExpiry) /\
  (forall e, NewPoolWithFunc sz pf opts = inl e ->
     e = ErrInvalidPoolSize \/ e = ErrInvalidPoolFunc \/ e = ErrInvalidPoolExpiry) /\
  capacity (buildPool (-1) (NewOptions opts)) = -1.
Proof.
  intros d. unfold NewPool, NewPoolWithFunc. fold d.
  destruct (Z.eqb_spec sz 0) as [Hz|Hz];
    destruct (Z.ltb_spec d 0) as [Hd|Hd]; destruct pf as [g|];
    repeat split; intros; simplify_eq; auto; try lia;
    try (destruct_and?; simplify_eq; done);
    try (destruct_and?; lia).
Qed.

Lemma construction_errors_witness :
  NewPool 0 [] = inl ErrInvalidPoolSize /\
  NewPool 5 [WithExpiryDuration (-1)] = inl ErrInvalidPoolExpiry /\
  NewPoolWithFunc (F:=unit) 5 None [] = inl ErrInvalidPoolFunc /\
  NewPool (-1) [] = inr (buildPool (-1) (NewOptions [])).
Proof.
  split; [|split; [|split]].
  - apply (construction_errors unit 0 None []). reflexivity.
  - apply (construction_errors unit 5 None [WithExpiryDuration (-1)]).
    split; [lia | reflexivity].
  - apply (construction_errors unit 5 None []). split; [lia | reflexivity].
  - apply (construction_errors unit (-1) None []). split; [lia | vm_compute; discriminate].
Defined.

Lemma chooseQueue_threshold sz o :
  is_stack (chooseQueue sz o) = (sz <? queueSizeThreshold) /\
  is_ring (chooseQueue sz o) = (queueSizeThreshold <=? sz).
Proof.
  unfold chooseQueue, queueSizeThreshold.
  destruct (Z.eqb_spec sz (-1)) as [->|Hne]; [done|].
  destruct (Z.ltb_spec sz 1000), (Z.leb_spec 1000 sz); try lia;
    destruct (PreAlloc o); done.
Qed.

(** C8.  The threshold is 1000.  For every accepted size, in both
    constructors: size -1 and every size below 1000 select the stack
    store, every size at or above 1000 selects the ring store. *)
Theorem store_threshold (F : Type) (sz : Z) (pf : option F) (opts : list Option) :
  queueSizeThreshold = 1000 /\
  (forall p, NewPool sz opts = inr p ->
     (sz = -1 \/ sz < 1000 -> is_stack (workers p) = true) /\
     (1000 <= sz -> is_ring (workers p) = true)) /\
  (forall p (f : F), NewPoolWithFunc sz pf opts = inr (p, f) ->
     (sz = -1 \/ sz < 1000 -> is_stack (workers p) = true) /\
     (1000 <= sz -> is_ring (workers p) = true)).
Proof.
  assert (Hq : (sz = -1 \/ sz < 1000 ->
                is_stack (workers (buildPool sz (NewOptions opts))) = true) /\
               (1000 <= sz ->
                is_ring (workers (buildPool sz (NewOptions opts))) = true)).
  { simpl. destruct (chooseQueue_threshold sz (NewOptions opts)) as [-> ->].
    unfold queueSizeThreshold. split; intros H.
    - apply Z.ltb_lt. lia.
    - apply Z.leb_le. lia. }
  split; [done|]. split.
  - intros p (_ & _ & ->)%NewPool_inr. exact Hq.
  - intros p f (_ & _ & _ & ->)%NewPoolWithFunc_inr. exact Hq.
Qed.

Lemma store_threshold_witness :
  is_stack (workers (buildPool 999 (NewOptions []))) = true /\
  is_ring (workers (buildPool 1000 (NewOptions []))) = true.
Proof.
  split.
  - apply (store_threshold unit 999 (Some tt) []); [reflexivity | lia].
  - apply (store_threshold unit 1000 (Some tt) []); [reflexivity | lia].
Defined.

Section SweeperStart.
Context {A : Type} (exec : A -> outcome).

(** C9.  Construction accepts every expiry duration that is not
    negative, 0 included.  The sweeper goroutine spawned by the
    constructor creates its ticker in its first step: with duration 0
    that step panics (the world it leaves is crashed, the process is
    dead and no goroutine takes another step), with a positive duration
    it reaches the select and nothing has panicked.  So the sweeper needs a positive duration, which
    the constructor does not check. *)
Theorem zero_expiry_panics (sz now : Z) (opts : list Option) (p : Pool) :
  NewPool sz opts = inr p ->
  let d := ExpiryDuration (options p) in
  0 <= d /\
  NewPool 1 [WithExpiryDuration 0]
    = inr (buildPool 1 (NewOptions [WithExpiryDuration 0])) /\
  crashed (boot (A:=A) p now) = false /\
  (d = 0 -> exists s, step exec (boot p now) (Sweeper 0) = Some s /\
                      crashed s = true /\ pool s = p /\
                      forall ev, step exec s ev = None) /\
  (0 < d -> exists s, step exec (boot p now) (Sweeper 0) = Some s /\
                      crashed s = false /\ sweepers s = [(CSelect, now + d)]).
Proof.
  intros (Hsz & Hd & ->)%NewPool_inr. simpl.
  split; [done|]. split; [done|]. split; [done|]. split.
  - intros Hz. unfold step at 1. unfold step_sweeper. simpl. rewrite Hz. simpl.
    eexists. split; [done|]. split; [done|]. split; [done|].
    intros ev. unfold step. done.
  - intros Hpos. unfold step, step_sweeper, NewTicker. simpl.
    destruct (Z.leb_spec (ExpiryDuration (NewOptions opts)) 0); [lia|].
    eexists. split; [done|]. done.
Qed.
End SweeperStart.

Lemma zero_expiry_panics_witness :
  exists s,
    step id (boot (buildPool 1 (NewOptions [WithExpiryDuration 0])) 7) (Sweeper 0)
    = Some s /\ crashed s = true.
Proof.
  destruct (zero_expiry_panics id 1 7 [WithExpiryDuration 0]
              (buildPool 1 (NewOptions [WithExpiryDuration 0])) eq_refl)
    as (_ & _ & _ & Hz & _).
  destruct (Hz eq_refl) as (s & Hs & Hc & _).
  exists s. split; [exact Hs|exact Hc].
Defined.

(** ** Future *)

Section FutureFacts.
Context {V E : Type}.
Implicit Types (f : Fut.future (V:=V) (E:=E)) (s : Fut.fstate (V:=V) (E:=E)).

Lemma setResult_once r e f : Fut.once f = true -> Fut.setResult r e f = f.
Proof. unfold Fut.setResult. by intros ->. Qed.

Lemma settled_step o s ev s' :
  Fut.settled o s -> Fut.fstep s ev = Some s' -> Fut.settled (Fut.first_set o [ev]) s'.
Proof.
  intros Hs Hstep. destruct ev as [r e| |i]; simpl in *.
  - injection Hstep as <-. destruct o as [[r0 e0]|]; simpl in *.
    + destruct Hs as [-> Hg]. done.
    + destruct Hs as [-> Hg]. split; [done|].
      rewrite Forall_forall in Hg |- *. intros g Hin. left. by apply Hg.
  - injection Hstep as <-. destruct o as [[r0 e0]|]; simpl in *;
      destruct Hs as [-> Hg]; (split; [done|]);
      apply Forall_app; (split; [done|]); repeat constructor.
  - destruct (Fut.gets s !! i) as [[p|]|] eqn:Hi; try discriminate.
    destruct o as [[r0 e0]|]; simpl in *; destruct Hs as [Hc Hg];
      rewrite Hc in Hstep; simpl in Hstep; [|discriminate].
    injection Hstep as <-. simpl. split; [done|].
    apply Forall_insert; [done|]. by right.
Qed.

Lemma settled_run evs : forall o s s',
  Fut.settled o s -> Fut.frun s evs = Some s' -> Fut.settled (Fut.first_set o evs) s'.
Proof.
  induction evs as [|ev evs IH]; intros o s s' Hs Hrun; simpl in Hrun.
  - injection Hrun as <-. exact Hs.
  - destruct (Fut.fstep s ev) as [s1|] eqn:Hstep; [|discriminate]. simpl in Hrun.
    pose proof (settled_step _ _ _ _ Hs Hstep) as H1.
    replace (Fut.first_set o (ev :: evs))
      with (Fut.first_set (Fut.first_set o [ev]) evs)
      by (destruct ev; reflexivity).
    eauto.
Qed.

(** C4.  Take any schedule of setResult calls, Get calls and resumptions
    of parked Get calls on a new future.  Before the first setResult the
    latch is open and every Get is parked.  From the first setResult
    (r, e) on: the future stores (r, e) and the latch is tripped; any
    further setResult leaves the future unchanged; every Get that has
    returned, returned (r, e); every Get still parked can resume and
    then returns (r, e). *)
Theorem future_single_shot (evs : list Fut.fevent) s :
  Fut.frun Fut.finit evs = Some s ->
  match Fut.first_set None evs with
  | None =>
      Fut.IsDone (Fut.cell s) = false /\ Fut.Get (Fut.cell s) = None /\
      (forall i g, Fut.gets s !! i = Some g -> g = None)
  | Some (r, e) =>
      Fut.cell s = Fut.MkFuture r e true true /\
      Fut.IsDone (Fut.cell s) = true /\
      Fut.Get (Fut.cell s) = Some (r, e) /\
      (forall r' e', Fut.setResult r' e' (Fut.cell s) = Fut.cell s) /\
      (forall i p, Fut.gets s !! i = Some (Some p) -> p = (r, e)) /\
      (forall i, Fut.gets s !! i = Some None ->
         exists s', Fut.fstep s (Fut.ResumeGet i) = Some s' /\
                    Fut.gets s' !! i = Some (Some (r, e)))
  end.
Proof.
  intros Hrun.
  assert (H0 : Fut.settled (V:=V) (E:=E) None Fut.finit)
    by (split; [done|simpl; constructor]).
  pose proof (settled_run _ _ _ _ H0 Hrun) as Hs.
  destruct (Fut.first_set None evs) as [[r e]|]; simpl in Hs; destruct Hs as [Hc Hg].
  - rewrite Hc. repeat split; try done.
    + intros i p Hi. rewrite Forall_lookup in Hg.
      destruct (Hg _ _ Hi) as [?|?]; congruence.
    + intros i Hi. simpl. rewrite Hi, Hc. simpl. eexists. split; [done|].
      simpl. apply list_lookup_insert_eq. by eapply lookup_lt_Some.
  - rewrite Hc. repeat split; try done.
    intros i g Hi. rewrite Forall_lookup in Hg. eauto.
Qed.
End FutureFacts.

(** One observer parks before completion, two producers call setResult
    with different pairs, a second observer calls Get afterwards. *)
Lemma future_single_shot_witness :
  let evs := [Fut.CallGet; Fut.CallSet (Some 42) None;
              Fut.CallSet (Some 7) (Some ErrTimeout);
              Fut.ResumeGet 0; Fut.CallGet; Fut.ResumeGet 1] in
  let s : Fut.fstate (V:=Z) (E:=error) :=
    Fut.MkFState (Fut.MkFuture (Some 42) None true true)
                 [Some (Some 42, None); Some (Some 42, None)] in
  Fut.frun Fut.finit evs = Some s /\
  Fut.Get (Fut.cell s) = Some (Some 42, None) /\
  (forall r' e', Fut.setResult r' e' (Fut.cell s) = Fut.cell s).
Proof.
  intros evs s. split; [reflexivity|].
  pose proof (future_single_shot evs s eq_refl) as H. simpl in H.
  destruct H as (_ & _ & Hg & Hn & _). split; [exact Hg | exact Hn].
Defined.

(** ** The idle-worker stores *)

Section IdleFacts.
Context {A : Type}.
Implicit Types (h : heap A) (p q : ptr) (ps : list ptr).

Lemma finish_spec h p :
  alive h p = true ->
  exists h', finish h p = Some h' /\ finished h' p = true /\
             (forall q, q <> p -> h' !! q = h !! q) /\
             (forall q, stamp h' q = stamp h q).
Proof.
  unfold alive, finish, finished. destruct (h !! p) as [w|] eqn:Hw; [|done].
  intros Hopen%negb_true_iff. simpl. rewrite Hopen.
  eexists. split; [done|].
  assert (Hlt : (p < length h)%nat) by (by eapply lookup_lt_Some).
  split; [|split].
  - by rewrite list_lookup_insert_eq.
  - intros q Hq. by rewrite list_lookup_insert_ne.
  - intros q. unfold stamp. destruct (decide (q = p)) as [->|Hq].
    + by rewrite list_lookup_insert_eq, Hw.
    + by rewrite list_lookup_insert_ne.
Qed.

Lemma alive_stamp_agree h h' p :
  (h' !! p = h !! p) -> alive h' p = alive h p.
Proof. unfold alive. by intros ->. Qed.

Lemma finish_all_spec ps : forall h,
  idle_ok h ps ->
  exists h', finish_all h ps = Some h' /\
             (forall q, q ∈ ps -> finished h' q = true) /\
             (forall q, q ∉ ps -> h' !! q = h !! q) /\
             (forall q, stamp h' q = stamp h q).
Proof.
  induction ps as [|p ps IH]; intros h [Hnd Hal]; simpl.
  - exists h. split; [done|]. split; [|done]. intros q Hq. by apply elem_of_nil in Hq.
  - apply NoDup_cons in Hnd as [Hp Hnd]. apply Forall_cons in Hal as [Hap Hal].
    destruct (finish_spec h p Hap) as (h1 & -> & Hfin & Hother & Hst). simpl.
    destruct (IH h1) as (h' & -> & Hf' & Hother' & Hst').
    { split; [done|]. rewrite Forall_forall in Hal |- *. intros q Hq.
      rewrite (alive_stamp_agree h h1); [by apply Hal|].
      apply Hother. intros ->. done. }
    exists h'. split; [done|]. split; [|split].
    + intros q [->|Hq]%elem_of_cons; [|by apply Hf'].
      unfold finished. rewrite Hother' by done. exact Hfin.
    + intros q Hq. apply not_elem_of_cons in Hq as [Hne Hq].
      rewrite Hother' by done. by apply Hother.
    + intros q. by rewrite Hst', Hst.
Qed.

Lemma alive_stamp h p : alive h p = true -> stamp h p = Some (lastUsedOf h p).
Proof.
  unfold alive, lastUsedOf, stamp. destruct (h !! p); [done|discriminate].
Qed.

Lemma scan_spec h T : forall rest index,
  Forall (fun p => alive h p = true) rest ->
  exists k, Stack.scan h T rest index = Some (index + k)%nat /\
            (k <= length rest)%nat /\
            Forall (fun p => lastUsedOf h p < T) (take k rest) /\
            (forall p, rest !! k = Some p -> T <= lastUsedOf h p).
Proof.
  induction rest as [|p rest IH]; intros index Hal; simpl.
  - exists 0%nat. rewrite Nat.add_0_r. repeat split; try done; try constructor.
  - apply Forall_cons in Hal as [Hp Hal].
    rewrite (alive_stamp _ _ Hp). simpl. unfold Before.
    destruct (Z.ltb_spec (lastUsedOf h p) T) as [Hlt|Hge].
    + destruct (IH (S index) Hal) as (k & -> & Hk & Hst & Hfr).
      exists (S k). split; [f_equal; lia|]. split; [simpl; lia|]. split.
      * simpl. by constructor.
      * done.
    + exists 0%nat. rewrite Nat.add_0_r. split; [done|]. split; [lia|].
      split; [constructor|]. intros q [= <-]. done.
Qed.

(** Stack sweep, for any order of the idle workers: the maximal leading
    run of workers with [lastUsed < now - duration] is removed and
    finished, nothing else. *)
Lemma stack_refresh_prefix h now duration (wq : Stack.workerStack) :
  idle_ok h (Stack.items wq) ->
  exists h' gone rest,
    Stack.refresh h now duration wq
      = Some (h', Stack.WorkerStack rest (Stack.size wq),
              Z.of_nat <$> seq 0 (length gone)) /\
    Stack.items wq = gone ++ rest /\
    Forall (fun p => lastUsedOf h p < now - duration) gone /\
    (forall p, head rest = Some p -> now - duration <= lastUsedOf h p) /\
    (forall q, q ∈ gone -> finished h' q = true) /\
    (forall q, q ∉ gone -> h' !! q = h !! q) /\
    (forall q, stamp h' q = stamp h q).
Proof.
  intros [Hnd Hal]. unfold Stack.refresh.
  destruct wq as [its sz]. simpl in *.
  destruct (Nat.eqb_spec (length its) 0) as [Hz|Hnz].
  { apply length_zero_iff_nil in Hz as ->.
    exists h, [], []. repeat split; try done; try constructor.
    by intros q ?%elem_of_nil. }
  destruct (scan_spec h (Add now (- duration)) its 0%nat Hal)
    as (k & -> & Hk & Hst & Hfr). simpl. unfold Add in *.
  replace (now + - duration) with (now - duration) in * by lia.
  destruct (Nat.ltb_spec 0 k) as [Hpos|Hzero].
  - destruct (finish_all_spec (take k its) h) as (h' & -> & Hf & Ho & Hs).
    { split; [|by apply Forall_take].
      rewrite <- (take_drop k its) in Hnd. by apply NoDup_app in Hnd as [? _]. }
    exists h', (take k its), (drop k its). simpl.
    rewrite length_take_le by done. repeat split; try done.
    + by rewrite take_drop.
    + intros p Hp. apply Hfr. rewrite head_lookup, lookup_drop in Hp.
      by rewrite Nat.add_0_r in Hp.
  - assert (k = 0)%nat as -> by lia.
    exists h, [], its. repeat split; try done.
    + intros p Hp. apply Hfr. by destruct its.
    + intros q Hq. by apply elem_of_nil in Hq.
Qed.
End IdleFacts.

Ltac ring_proj :=
  cbn [Ring.items Ring.head Ring.tail Ring.size Ring.isFull orb] in *.

Section RingFacts.
Implicit Types (wq : Ring.loopQueue).

Lemma ring_empty_live wq : ring_ok wq -> Ring.isEmpty wq = true -> live wq = [].
Proof.
  intros _ [Heq Hf]%andb_true_iff. apply Nat.eqb_eq in Heq.
  apply negb_true_iff in Hf. unfold live. rewrite Hf, Heq. simpl.
  rewrite Nat.ltb_irrefl, Nat.sub_diag. done.
Qed.

Lemma ring_live_nonempty wq :
  ring_ok wq -> Ring.isEmpty wq = false ->
  exists x l, live wq = x :: l /\ Ring.items wq !! Ring.head wq = Some x.
Proof.
  intros (Hlen & Hh & Ht & Hfull) Hne.
  destruct (lookup_lt_is_Some_2 (Ring.items wq) (Ring.head wq)) as [x Hx]; [lia|].
  unfold live. rewrite (drop_S _ _ _ Hx).
  destruct (Ring.isFull wq || Nat.ltb (Ring.tail wq) (Ring.head wq)) eqn:Hc.
  - simpl. eauto.
  - apply orb_false_iff in Hc as [Hf Hlt]. apply Nat.ltb_ge in Hlt.
    unfold Ring.isEmpty in Hne. rewrite Hf in Hne. simpl in Hne.
    rewrite andb_true_r in Hne. apply Nat.eqb_neq in Hne.
    destruct (Ring.tail wq - Ring.head wq)%nat as [|n] eqn:Hn; [lia|].
    simpl. eauto.
Qed.

Lemma ring_pop wq x l :
  ring_ok wq -> live wq = x :: l ->
  Ring.items wq !! Ring.head wq = Some x /\ ring_ok (popped wq) /\ live (popped wq) = l.
Proof.
  intros (Hlen & Hh & Ht & Hfull) Hl.
  destruct (lookup_lt_is_Some_2 (Ring.items wq) (Ring.head wq)) as [y Hy]; [lia|].
  assert (Hok : ring_ok (popped wq)).
  { unfold ring_ok, popped, Ring.advance. ring_proj. rewrite length_insert.
    repeat split; try done; try lia.
    destruct (Nat.eqb_spec (S (Ring.head wq)) (Ring.size wq)); lia. }
  unfold live in Hl. rewrite (drop_S _ _ _ Hy) in Hl.
  unfold live, popped, Ring.advance. ring_proj.
  destruct (Ring.isFull wq || Nat.ltb (Ring.tail wq) (Ring.head wq)) eqn:Hc.
  - (* the live range wraps around *)
    simpl in Hl. injection Hl as <- <-. split; [done|]. split; [done|].
    assert (Hle : (Ring.tail wq <= Ring.head wq)%nat).
    { apply orb_true_iff in Hc as [Hf|Hlt]; [rewrite (Hfull Hf); lia|].
      apply Nat.ltb_lt in Hlt. lia. }
    destruct (Nat.eqb_spec (S (Ring.head wq)) (Ring.size wq)) as [Hend|Hmid].
    + replace (Nat.ltb (Ring.tail wq) 0) with false by (symmetry; apply Nat.ltb_ge; lia).
      rewrite Nat.sub_0_r, drop_0. rewrite drop_ge by lia. simpl.
      by rewrite take_insert_ge.
    + replace (Nat.ltb (Ring.tail wq) (S (Ring.head wq))) with true
        by (symmetry; apply Nat.ltb_lt; lia).
      rewrite drop_insert_lt by lia. by rewrite take_insert_ge.
  - apply orb_false_iff in Hc as [Hf Hlt]. apply Nat.ltb_ge in Hlt.
    destruct (Ring.tail wq - Ring.head wq)%nat as [|n] eqn:Hn; [done|].
    simpl in Hl. injection Hl as <- <-. split; [done|]. split; [done|].
    destruct (Nat.eqb_spec (S (Ring.head wq)) (Ring.size wq)) as [Hend|Hmid]; [lia|].
    replace (Nat.ltb (Ring.tail wq) (S (Ring.head wq))) with false
      by (symmetry; apply Nat.ltb_ge; lia).
    rewrite drop_insert_lt by lia. f_equal. lia.
Qed.

Lemma live_length wq : ring_ok wq -> (length (live wq) <= length (Ring.items wq))%nat.
Proof.
  intros (Hlen & Hh & Ht & Hfull). unfold live.
  destruct (Ring.isFull wq || Nat.ltb (Ring.tail wq) (Ring.head wq)) eqn:Hc.
  - assert (Hle : (Ring.tail wq <= Ring.head wq)%nat).
    { apply orb_true_iff in Hc as [Hf|Hlt]; [rewrite (Hfull Hf); lia|].
      apply Nat.ltb_lt in Hlt. lia. }
    rewrite length_app, length_drop, length_take. lia.
  - rewrite length_take, length_drop. lia.
Qed.
End RingFacts.

Section RingSweep.
Context {A : Type}.
Implicit Types (h : heap A) (wq : Ring.loopQueue) (ps : list ptr).

Lemma holds_nil_empty wq : holds wq [] -> Ring.isEmpty wq = true.
Proof.
  intros [Hok Hl]. destruct (Ring.isEmpty wq) eqn:He; [done|].
  destruct (ring_live_nonempty wq Hok He) as (x & l & Hx & _).
  rewrite Hx in Hl. discriminate.
Qed.

Lemma holds_cons_nonempty wq p ps : holds wq (p :: ps) -> Ring.isEmpty wq = false.
Proof.
  intros [Hok Hl]. destruct (Ring.isEmpty wq) eqn:He; [|done].
  rewrite (ring_empty_live wq Hok He) in Hl. discriminate.
Qed.

Lemma ring_loop_spec h T : forall ps wq ix ex fuel,
  holds wq ps ->
  Forall (fun p => alive h p = true) ps ->
  (length ps < fuel)%nat ->
  exists gone rest wq' ix',
    Ring.refresh_loop fuel h T wq ix ex = Ring.LoopDone wq' (ix ++ ix') (ex ++ gone) /\
    ps = gone ++ rest /\ holds wq' rest /\ length ix' = length gone /\
    Forall (fun p => lastUsedOf h p <= T) gone /\
    (forall p, head rest = Some p -> T < lastUsedOf h p).
Proof.
  induction ps as [|p ps IH]; intros wq ix ex fuel Hh Hal Hfuel;
    (destruct fuel as [|fuel]; [simpl in Hfuel; lia|]); simpl.
  - rewrite (holds_nil_empty wq Hh).
    exists [], [], wq, []. rewrite !app_nil_r. repeat split; try done; try apply Hh; try constructor.
  - rewrite (holds_cons_nonempty wq p ps Hh).
    destruct Hh as [Hok Hl]. rewrite fmap_cons in Hl.
    destruct (ring_pop wq _ _ Hok Hl) as (Hhd & Hok' & Hl').
    rewrite Hhd. apply Forall_cons in Hal as [Hp Hal].
    rewrite (alive_stamp _ _ Hp). unfold After.
    destruct (Z.ltb_spec T (lastUsedOf h p)) as [Hafter|Hnot].
    + exists [], (p :: ps), wq, []. rewrite !app_nil_r.
      repeat split; try done; try apply Hok; try constructor.
      intros q [= <-]. done.
    + destruct (IH (popped wq) (ix ++ [Z.of_nat (Ring.head wq)]) (ex ++ [p]) fuel)
        as (gone & rest & wq' & ix' & Hrun & -> & Hh' & Hlen & Hgone & Hrest).
      { by split. }
      { done. }
      { simpl in Hfuel. lia. }
      exists (p :: gone), rest, wq', (Z.of_nat (Ring.head wq) :: ix').
      unfold popped in Hrun. rewrite Hrun.
      rewrite <- !app_assoc. simpl. repeat split; try done; try apply Hh'.
      * by rewrite Hlen.
      * by constructor.
Qed.

(** Ring sweep, for any order of the idle workers: the maximal leading
    run of workers with [lastUsed <= now - duration] (not [After]) is
    removed and finished, nothing else. *)
Lemma ring_refresh_prefix h now duration wq ps :
  holds wq ps -> idle_ok h ps ->
  exists h' wq' gone rest ix,
    Ring.refresh h now duration wq = Some (h', wq', ix) /\
    ps = gone ++ rest /\ holds wq' rest /\ length ix = length gone /\
    Forall (fun p => lastUsedOf h p <= now - duration) gone /\
    (forall p, head rest = Some p -> now - duration < lastUsedOf h p) /\
    (forall q, q ∈ gone -> finished h' q = true) /\
    (forall q, q ∉ gone -> h' !! q = h !! q) /\
    (forall q, stamp h' q = stamp h q).
Proof.
  intros Hh [Hnd Hal]. unfold Ring.refresh.
  destruct (Ring.isEmpty wq) eqn:He.
  - destruct Hh as [Hok Hl]. pose proof (ring_empty_live wq Hok He) as Hl0.
    rewrite Hl0 in Hl. symmetry in Hl. apply fmap_nil_inv in Hl as ->.
    exists h, wq, [], [], [].
    repeat split; try done; try apply Hok; try constructor.
    by intros q ?%elem_of_nil.
  - destruct (ring_loop_spec h (Add now (- duration)) ps wq [] []
                (S (length (Ring.items wq))) Hh Hal)
      as (gone & rest & wq' & ix' & Hrun & -> & Hh' & Hlen & Hgone & Hrest).
    { destruct Hh as [Hok Hl]. pose proof (live_length wq Hok) as Hle.
      rewrite Hl, length_fmap in Hle. lia. }
    rewrite Hrun. cbn [app]. unfold Add in *.
    replace (now + - duration) with (now - duration) in * by lia.
    destruct (finish_all_spec gone h) as (h' & -> & Hf & Ho & Hs).
    { apply NoDup_app in Hnd as [? _]. apply Forall_app in Hal as [? _]. by split. }
    exists h', wq', gone, rest, ix'. simpl. repeat split; try done; apply Hh'.
Qed.
End RingSweep.

Lemma occupied_clear its : forall i p,
  its !! i = Some (Some p) -> S (occupied (<[i := None]> its)) = occupied its.
Proof.
  unfold occupied. induction its as [|x its IH]; intros i p Hi;
    [destruct i; discriminate Hi|].
  destruct i as [|i]; simpl in *.
  - simplify_eq. rewrite filter_cons_False by (by intros [? ?]).
    rewrite filter_cons_True by (by eexists). done.
  - destruct x as [q|].
    + rewrite !filter_cons_True by (by eexists). simpl. f_equal. by eapply IH.
    + rewrite !filter_cons_False by (by intros [? ?]). by eapply IH.
Qed.

Section Fuel.
Context {A : Type}.

(** The sweep loop of the ring never runs out of iterations: each one
    nils a slot. *)
Lemma refresh_loop_fuel (h : heap A) T : forall fuel wq ix ex,
  (occupied (Ring.items wq) < fuel)%nat ->
  Ring.refresh_loop fuel h T wq ix ex <> Ring.LoopFuel.
Proof.
  induction fuel as [|fuel IH]; intros wq ix ex Hm; [lia|]. simpl.
  destruct (Ring.isEmpty wq); [done|].
  destruct (Ring.items wq !! Ring.head wq) as [[p|]|] eqn:Hh; [|done|done].
  destruct (stamp h p) as [t|]; [|done].
  destruct (After t T); [done|].
  apply IH. simpl. pose proof (occupied_clear _ _ _ Hh). lia.
Qed.

(** So the bound used by [Ring.refresh] is enough, whatever the queue. *)
Lemma refresh_fuel_suffices (h : heap A) T wq :
  Ring.refresh_loop (S (length (Ring.items wq))) h T wq [] [] <> Ring.LoopFuel.
Proof.
  apply refresh_loop_fuel. unfold occupied.
  pose proof (length_filter is_Some (Ring.items wq)). lia.
Qed.
End Fuel.

Section Chronology.
Context {A : Type}.
Implicit Types (h : heap A) (p q : ptr) (ps : list ptr).

Lemma lastUsedOf_stamps h h' p :
  (forall q, stamp h' q = stamp h q) -> lastUsedOf h' p = lastUsedOf h p.
Proof. intros Hs. unfold lastUsedOf. by rewrite Hs. Qed.

Lemma chronological_stamps h h' ps :
  (forall q, stamp h' q = stamp h q) -> chronological h ps -> chronological h' ps.
Proof.
  intros Hs. unfold chronological.
  replace (lastUsedOf h' <$> ps) with (lastUsedOf h <$> ps); [done|].
  apply list_fmap_ext. intros _ p _. symmetry. by apply lastUsedOf_stamps.
Qed.

Lemma chronological_app h l1 l2 :
  chronological h (l1 ++ l2) -> chronological h l1 /\ chronological h l2.
Proof.
  unfold chronological. rewrite fmap_app. intros H. split.
  - by eapply StronglySorted_app_1_l.
  - by eapply StronglySorted_app_1_r.
Qed.

(** In a chronological store every worker is at least as recent as the
    head. *)
Lemma chronological_from_head h T rest :
  chronological h rest ->
  (forall p, head rest = Some p -> T <= lastUsedOf h p) ->
  Forall (fun q => T <= lastUsedOf h q) rest.
Proof.
  destruct rest as [|p rest]; [constructor|].
  unfold chronological. rewrite fmap_cons.
  intros [Hall _]%StronglySorted_cons Hp.
  specialize (Hp p eq_refl). constructor; [done|].
  rewrite Forall_fmap in Hall. eapply Forall_impl; [exact Hall|].
  intros q Hq. simpl in Hq. lia.
Qed.

Lemma chronological_snoc h ps w :
  chronological h ps ->
  (forall p, last ps = Some p -> lastUsedOf h p <= lastUsedOf h w) ->
  chronological h (ps ++ [w]).
Proof.
  unfold chronological. induction ps as [|p ps IH]; intros Hs Hl; simpl.
  - repeat constructor.
  - rewrite fmap_cons in Hs. apply StronglySorted_cons in Hs as [Hall Hs].
    apply StronglySorted_cons. split.
    + rewrite fmap_app. apply Forall_app. split; [done|].
      constructor; [|constructor]. destruct ps as [|p' ps'].
      * by apply Hl.
      * assert (Hin : exists x, last (p' :: ps') = Some x).
        { destruct (last (p' :: ps')) eqn:E; [eauto|].
          by apply last_None in E. }
        destruct Hin as [x Hx].
        assert (Hxw : lastUsedOf h x <= lastUsedOf h w).
        { apply Hl. by rewrite last_cons, Hx. }
        assert (Hpx : lastUsedOf h p <= lastUsedOf h x).
        { rewrite Forall_fmap, Forall_forall in Hall. apply Hall.
          apply last_Some_elem_of. done. }
        lia.
    + apply IH; [done|]. intros x Hx. apply Hl.
      rewrite last_cons, Hx. done.
Qed.
End Chronology.

Section SweepExpired.
Context {A : Type}.
Implicit Types (h : heap A) (p q : ptr) (ps : list ptr).

Lemma not_in_suffix (gone rest : list ptr) p :
  NoDup (gone ++ rest) -> p ∈ gone ++ rest -> (p ∉ rest <-> p ∈ gone).
Proof.
  intros (_ & Hdis & _)%NoDup_app Hin. split.
  - intros Hn. by apply elem_of_app in Hin as [Hg|Hr].
  - intros Hg. by apply Hdis.
Qed.

(** C3 (amended).  Let the idle workers be stored in non-decreasing
    [lastUsed] order, oldest at the head.  On the stack store the sweep
    removes and finishes exactly the workers with
    [lastUsed < now - duration]; the others stay, in order and alive.
    On the ring store the sweep removes and finishes every worker with
    [lastUsed < now - duration] and keeps, in order and alive, every
    worker with [lastUsed > now - duration]. *)
Theorem sweep_expired_chronological h (now duration : Z) :
  (forall wq : Stack.workerStack,
     idle_ok h (Stack.items wq) -> chronological h (Stack.items wq) ->
     exists h' wq' ix gone,
       Stack.refresh h now duration wq = Some (h', wq', ix) /\
       Stack.items wq = gone ++ Stack.items wq' /\
       length ix = length gone /\
       (forall p, p ∈ Stack.items wq ->
          (p ∉ Stack.items wq' <-> lastUsedOf h p < now - duration)) /\
       (forall p, p ∈ gone -> finished h' p = true) /\
       (forall p, p ∈ Stack.items wq' ->
          alive h' p = true /\ lastUsedOf h' p = lastUsedOf h p)) /\
  (forall (wq : Ring.loopQueue) ps,
     holds wq ps -> idle_ok h ps -> chronological h ps ->
     exists h' wq' ix gone rest,
       Ring.refresh h now duration wq = Some (h', wq', ix) /\
       holds wq' rest /\ ps = gone ++ rest /\
       length ix = length gone /\
       (forall p, p ∈ ps -> lastUsedOf h p < now - duration -> p ∈ gone) /\
       (forall p, p ∈ ps -> now - duration < lastUsedOf h p -> p ∈ rest) /\
       (forall p, p ∈ gone -> finished h' p = true) /\
       (forall p, p ∈ rest ->
          alive h' p = true /\ lastUsedOf h' p = lastUsedOf h p)).
Proof.
  split.
  - intros wq Hok Hch.
    destruct (stack_refresh_prefix h now duration wq Hok)
      as (h' & gone & rest & Hr & Hit & Hgone & Hhead & Hfin & Hoth & Hst).
    exists h', (Stack.WorkerStack rest (Stack.size wq)),
           (Z.of_nat <$> seq 0 (length gone)), gone.
    simpl. rewrite Hit in *. destruct Hok as [Hnd Hal].
    destruct (chronological_app _ _ _ Hch) as [_ Hchr].
    pose proof (chronological_from_head h _ rest Hchr Hhead) as Hfresh.
    split; [done|]. split; [done|].
    split; [by rewrite length_fmap, length_seq|]. split; [|split; [done|]].
    + intros p Hp. rewrite (not_in_suffix gone rest p Hnd Hp). split.
      * intros Hg. rewrite Forall_forall in Hgone. by apply Hgone.
      * intros Hlt. apply elem_of_app in Hp as [Hp|Hp]; [done|].
        rewrite Forall_forall in Hfresh. specialize (Hfresh p Hp). lia.
    + intros p Hp. split; [|by apply lastUsedOf_stamps].
      rewrite (alive_stamp_agree h h').
      * rewrite Forall_forall in Hal. apply Hal. apply elem_of_app. by right.
      * apply Hoth. apply NoDup_app in Hnd as (_ & Hdis & _).
        intros Hg. by eapply Hdis.
  - intros wq ps Hh Hok Hch.
    destruct (ring_refresh_prefix h now duration wq ps Hh Hok)
      as (h' & wq' & gone & rest & ix & Hr & -> & Hh' & Hlen & Hgone & Hhead
          & Hfin & Hoth & Hst).
    exists h', wq', ix, gone, rest. destruct Hok as [Hnd Hal].
    destruct (chronological_app _ _ _ Hch) as [_ Hchr].
    assert (Hfresh : Forall (fun q => now - duration + 1 <= lastUsedOf h q) rest).
    { apply chronological_from_head; [done|]. intros p Hp.
      specialize (Hhead p Hp). lia. }
    split; [done|]. split; [done|]. split; [done|]. split; [done|].
    split; [|split; [|split; [done|]]].
    + intros p [Hp|Hp]%elem_of_app Hlt; [done|].
      rewrite Forall_forall in Hfresh. specialize (Hfresh p Hp). lia.
    + intros p [Hp|Hp]%elem_of_app Hlt; [|done].
      rewrite Forall_forall in Hgone. specialize (Hgone p Hp). lia.
    + intros p Hp. split; [|by apply lastUsedOf_stamps].
      rewrite (alive_stamp_agree h h').
      * rewrite Forall_forall in Hal. apply Hal. apply elem_of_app. by right.
      * apply Hoth. apply NoDup_app in Hnd as (_ & Hdis & _).
        intros Hg. by eapply Hdis.
Qed.
End SweepExpired.

Lemma three_idle_ok : idle_ok three_idle [0; 1; 2]%nat.
Proof. split; [apply NoDup_ListNoDup; repeat constructor; simpl; lia|by repeat constructor]. Qed.

Lemma three_idle_chronological : chronological three_idle [0; 1; 2]%nat.
Proof. unfold chronological. simpl. repeat constructor; vm_compute; discriminate. Qed.

(** Horizon 6 = 16 - 10: workers 0 and 1 (stamps 1 and 5) go, worker 2
    (stamp 9) stays, in the stack and in the ring. *)
Lemma sweep_expired_chronological_witness :
  (exists h',
     Stack.refresh three_idle 16 10 (Stack.WorkerStack [0; 1; 2]%nat 0)
     = Some (h', Stack.WorkerStack [2%nat] 0, [0; 1])) /\
  (exists h' wq' ix gone rest,
     Ring.refresh three_idle 16 10 ring_three = Some (h', wq', ix) /\
     holds wq' rest /\ [0; 1; 2]%nat = gone ++ rest /\ 2%nat ∈ rest).
Proof.
  destruct (sweep_expired_chronological three_idle 16 10) as [Hstack Hring]. split.
  - destruct (Hstack (Stack.WorkerStack [0; 1; 2]%nat 0) three_idle_ok
                three_idle_chronological)
      as (h' & wq' & ix & gone & Hr & _).
    exists h'. rewrite Hr. vm_compute in Hr. injection Hr as <- <- <-. reflexivity.
  - destruct (Hring ring_three [0; 1; 2]%nat) as
      (h' & wq' & ix & gone & rest & Hr & Hh & Hps & _ & _ & Hkeep & _).
    + split; [|reflexivity]. repeat split; simpl; try lia; try discriminate.
    + exact three_idle_ok.
    + exact three_idle_chronological.
    + exists h', wq', ix, gone, rest. repeat split; try done; try apply Hh.
      apply Hkeep; [by repeat constructor|]. vm_compute. reflexivity.
Defined.

(** C3, as stated, fails on the code.  After the schedule [race] the
    stack holds worker 1 (stamp 10) below worker 0 (stamp 5).  The sweep
    at time 1 s + 7 ns with duration 1 s stops at worker 1 and removes
    nothing, although worker 0 has [lastUsed = 5 < 7 = now - duration]. *)
Lemma sweep_misses_stale_worker :
  exists s s',
    run id pool_two race = Some s /\
    run id s late_sweep = Some s' /\
    workers (pool s) = QStack (Stack.WorkerStack [1; 0]%nat 0) /\
    clock s' = second + 7 /\
    ExpiryDuration (options (pool s')) = second /\
    Stack.refresh (objects s) (second + 7) second (Stack.WorkerStack [1; 0]%nat 0)
      = Some (objects s, Stack.WorkerStack [1; 0]%nat 0, []) /\
    workers (pool s') = QStack (Stack.WorkerStack [1; 0]%nat 0) /\
    lastUsedOf (objects s') 0 = 5 /\
    5 < (second + 7) - second /\
    alive (objects s') 0 = true.
Proof.
  eexists _, _. split; [vm_compute; reflexivity|].
  split; [vm_compute; reflexivity|]. by vm_compute.
Qed.

(** The two stores disagree at the horizon itself: a worker with
    [lastUsed = now - duration] is kept by the stack ([Before]) and
    removed by the ring (not [After]). *)
Lemma ring_sweeps_at_horizon :
  let h : heap outcome := [GoWorker [] false 6 0] in
  Stack.refresh h 16 10 (Stack.WorkerStack [0%nat] 0)
    = Some (h, Stack.WorkerStack [0%nat] 0, []) /\
  Ring.refresh h 16 10 (Ring.LoopQueue [Some 0%nat; None] 0 1 2 false)
    = Some ([GoWorker [] true 6 1], Ring.LoopQueue [None; None] 1 1 2 false, [0]).
Proof. by vm_compute. Qed.

Section StackOrder.
Context {A : Type}.
Implicit Types (h : heap A) (wq : Stack.workerStack).

(** C7 (amended).  On a stack store in non-decreasing [lastUsed] order:
    a pop leaves it in order; a sweep leaves it in order; a push leaves
    it in order when the pushed worker's [lastUsed] is not earlier than
    that of the worker at the tail. *)
Theorem stack_order_preserved h wq :
  chronological h (Stack.items wq) ->
  chronological h (Stack.items (Stack.detach wq).2) /\
  (forall now duration,
     idle_ok h (Stack.items wq) ->
     exists h' wq' ix,
       Stack.refresh h now duration wq = Some (h', wq', ix) /\
       chronological h' (Stack.items wq')) /\
  (forall w,
     (forall p, last (Stack.items wq) = Some p -> lastUsedOf h p <= lastUsedOf h w) ->
     chronological h (Stack.items (Stack.insert wq w).2)).
Proof.
  intros Hch. split; [|split].
  - unfold Stack.detach. destruct (Nat.eqb (length (Stack.items wq)) 0); [done|].
    simpl. rewrite <- (take_drop (length (Stack.items wq) - 1) (Stack.items wq)) in Hch.
    by apply chronological_app in Hch as [? _].
  - intros now duration Hok.
    destruct (stack_refresh_prefix h now duration wq Hok)
      as (h' & gone & rest & Hr & Hit & _ & _ & _ & _ & Hst).
    eexists _, _, _. split; [exact Hr|]. simpl.
    rewrite Hit in Hch. apply chronological_app in Hch as [_ Hch].
    by eapply chronological_stamps.
  - intros w Hw. simpl. by apply chronological_snoc.
Qed.
End StackOrder.

(** Workers 0 and 1 idle (stamps 1 and 5); worker 2 (stamp 9) is pushed. *)
Lemma stack_order_preserved_witness :
  chronological three_idle [0%nat] /\
  chronological three_idle [0; 1; 2]%nat.
Proof.
  assert (Hch : chronological three_idle [0; 1]%nat).
  { unfold chronological. simpl. repeat constructor; vm_compute; discriminate. }
  destruct (stack_order_preserved three_idle (Stack.WorkerStack [0; 1]%nat 0) Hch)
    as (Hpop & _ & Hpush).
  split; [exact Hpop|]. apply (Hpush 2%nat).
  intros p [= <-]. vm_compute. discriminate.
Defined.

(** C7, as stated, fails on the code: [putWorker] stamps [lastUsed]
    before it takes the lock.  In the schedule [race] worker 0 stamps at
    time 5, worker 1 stamps at time 10 and inserts first; the stack then
    holds stamps 10, 5 from head to tail. *)
Lemma release_race_breaks_order :
  exists s,
    run id pool_two race = Some s /\
    workers (pool s) = QStack (Stack.WorkerStack [1; 0]%nat 0) /\
    lastUsedOf (objects s) 1 = 10 /\
    lastUsedOf (objects s) 0 = 5 /\
    ~ chronological (objects s) [1; 0]%nat.
Proof.
  eexists. split; [vm_compute; reflexivity|].
  split; [reflexivity|]. split; [reflexivity|]. split; [reflexivity|].
  unfold chronological. intros [Hall _]%StronglySorted_cons.
  apply Forall_cons in Hall as [Hle _]. vm_compute in Hle. by apply Hle.
Qed.

(** ** Shutdown *)

Section Lifecycle.
Context {A : Type} (exec : A -> outcome).
Implicit Types (s : World (A:=A)) (ev : event A).

Lemma close_chan_frame c s s' :
  close_chan c s = Some s' ->
  pool s' = pool s /\ clients s' = clients s.
Proof. unfold close_chan. intros. repeat case_match; simplify_eq; done. Qed.

Lemma step_worker_frame w s s' :
  step_worker exec w s = Some s' ->
  state (pool s') = state (pool s) /\ clients s' = clients s.
Proof.
  unfold step_worker. intros H.
  destruct (routines s !! w) as [pc|]; [|done].
  destruct (objects s !! w) as [o|]; [|done]. simpl in H.
  repeat case_match; simplify_eq; done.
Qed.

Lemma step_sweeper_frame k b s s' :
  step_sweeper k b s = Some s' ->
  state (pool s') = state (pool s) /\ clients s' = clients s.
Proof.
  unfold step_sweeper. intros H.
  destruct (sweepers s !! k) as [[pc due]|]; [|done]. simpl in H.
  repeat case_match; simplify_eq; try done;
    match goal with
    | H : close_chan _ _ = Some _ |- _ =>
        apply close_chan_frame in H as [Hp Hc]; simpl; by rewrite Hp, Hc
    end.
Qed.

Lemma released_frame i s s' :
  released i s -> state (pool s') = state (pool s) -> clients s' = clients s ->
  released i s'.
Proof. unfold released, reboot_pending. intros H -> ->. exact H. Qed.

Lemma released_goto i s s0 j c pc pc' :
  released i s -> clients s !! j = Some (c, pc) ->
  (state (pool s0) = OPENED \/ state (pool s0) = CLOSED) ->
  (state (pool s) = CLOSED -> state (pool s0) = CLOSED) ->
  pc' <> RebootCas ->
  (j = i -> c = Release -> pc' <> ReleaseCas -> state (pool s0) = CLOSED) ->
  released i (set_clients (<[j := (c, pc')]> (clients s)) s0).
Proof.
  intros (Hst & Hnr & Hrel) Hj Hst0 Hmono Hpc' Hnew. unfold released. simpl.
  split; [done|]. split.
  - intros [k Hk]. simpl in Hk.
    destruct (decide (k = j)) as [->|Hne].
    + rewrite list_lookup_insert_eq in Hk by (by eapply lookup_lt_Some).
      by simplify_eq.
    + rewrite list_lookup_insert_ne in Hk by done. apply Hnr. by exists k.
  - intros pc1 Hi Hpc1.
    destruct (decide (i = j)) as [->|Hne].
    + rewrite list_lookup_insert_eq in Hi by (by eapply lookup_lt_Some).
      simplify_eq. by apply Hnew.
    + rewrite list_lookup_insert_ne in Hi by done. apply Hmono. by eapply Hrel.
Qed.

Lemma released_step i s ev s' :
  released i s -> is_reboot_call ev = false -> step exec s ev = Some s' ->
  released i s'.
Proof.
  intros Hrel Hev Hstep. unfold step in Hstep.
  destruct (crashed s); [done|]. destruct ev as [dt|c|j|w|k|k].
  - case_match; simplify_eq. by eapply released_frame.
  - simplify_eq. destruct Hrel as (Hst & Hnr & Hr). split; [done|]. simpl. split.
    + intros [k Hk]. simpl in Hk.
      apply lookup_app_Some in Hk as [Hk|[_ Hk]]; [apply Hnr; by exists k|].
      apply list_lookup_singleton_Some in Hk as [_ Hk].
      destruct c; simplify_eq.
    + intros pc1 [Hi|[_ Hi]]%lookup_app_Some Hpc; [by eapply Hr|].
      apply list_lookup_singleton_Some in Hi as [_ [= Hc <-]].
      destruct c; simplify_eq.
  - unfold step_client in Hstep.
    destruct (clients s !! j) as [[c pc]|] eqn:Hj; [|done]. simpl in Hstep.
    pose proof Hrel as (Hst & Hnr & Hr).
    assert (Hpast : j = i -> c = Release -> pc <> ReleaseCas ->
                    state (pool s) = CLOSED)
      by (intros -> ->; by eapply Hr).
    assert (Hnb : c = Reboot -> pc <> RebootCas).
    { intros -> ->. apply Hnr. by exists j. }
    destruct c; destruct pc; try done; repeat case_match; simplify_eq;
      try (by eapply released_frame);
      try (by exfalso; apply Hnb);
      try match goal with H : close_chan _ _ = Some _ |- _ =>
        apply close_chan_frame in H as [Hp Hc]; rewrite Hc end;
      simpl;
      try (eapply released_goto; [done|done|simpl; rewrite ?Hp..]; by auto).
    (* left: the compare-and-swap of Release fails *)
    eapply released_goto; [done|done|simpl..]; auto.
    intros _ _ _. destruct Hst as [Ho|Hc]; [|done].
      match goal with H : (_ =? OPENED) = false |- _ => apply Z.eqb_neq in H end. done.
  - apply step_worker_frame in Hstep as [? ?]. by eapply released_frame.
  - apply step_sweeper_frame in Hstep as [? ?]. by eapply released_frame.
  - apply step_sweeper_frame in Hstep as [? ?]. by eapply released_frame.
Qed.

Lemma released_run i evs : forall s s',
  released i s -> no_reboot_call evs = true -> run exec s evs = Some s' ->
  released i s'.
Proof.
  induction evs as [|ev evs IH]; intros s s' Hrel Hno Hrun; simpl in *.
  - by simplify_eq.
  - apply andb_true_iff in Hno as [Hev%negb_true_iff Hno].
    destruct (step exec s ev) as [s1|] eqn:Hstep; [|done]. simpl in Hrun.
    eapply IH; [|done|done]. by eapply released_step.
Qed.

Lemma closed_since_frame n s s' :
  closed_since n s -> state (pool s') = state (pool s) -> clients s' = clients s ->
  closed_since n s'.
Proof. unfold closed_since, reboot_pending. intros H -> ->. exact H. Qed.

Lemma closed_since_goto n s s0 i c pc pc' :
  closed_since n s -> clients s !! i = Some (c, pc) ->
  state (pool s0) = CLOSED ->
  pc' <> RebootCas ->
  ((n <= i)%nat -> forall t, c = Submit t ->
     pc' = SubmitEntry \/ pc' = SubmitReturned (Some ErrPoolClosed)) ->
  closed_since n (set_clients (<[i := (c, pc')]> (clients s)) s0).
Proof.
  intros (Hst & Hnr & Hsub) Hi Hst0 Hpc' Hnew. unfold closed_since. simpl.
  split; [done|]. split.
  - intros [j Hj]. simpl in Hj.
    destruct (decide (j = i)) as [->|Hne].
    + rewrite list_lookup_insert_eq in Hj by (by eapply lookup_lt_Some).
      by simplify_eq.
    + rewrite list_lookup_insert_ne in Hj by done. apply Hnr. by exists j.
  - intros j t pc1 Hn Hj.
    destruct (decide (j = i)) as [->|Hne].
    + rewrite list_lookup_insert_eq in Hj by (by eapply lookup_lt_Some).
      simplify_eq. by eapply Hnew.
    + rewrite list_lookup_insert_ne in Hj by done. by eapply Hsub.
Qed.

Lemma closed_since_step n s ev s' :
  closed_since n s -> is_reboot_call ev = false -> step exec s ev = Some s' ->
  closed_since n s'.
Proof.
  intros Hcl Hev Hstep. unfold step in Hstep.
  destruct (crashed s); [done|]. destruct ev as [dt|c|i|w|k|k].
  - case_match; simplify_eq. by eapply closed_since_frame.
  - simplify_eq. destruct Hcl as (Hst & Hnr & Hsub). split; [done|]. simpl. split.
    + intros [j Hj]. simpl in Hj.
      apply lookup_app_Some in Hj as [Hj|[_ Hj]]; [apply Hnr; by exists j|].
      apply list_lookup_singleton_Some in Hj as [_ Hj].
      destruct c; simplify_eq.
    + intros j t pc1 Hn [Hj|[_ Hj]]%lookup_app_Some; [by eapply Hsub|].
      apply list_lookup_singleton_Some in Hj as [_ Hj].
      destruct c; simplify_eq. by left.
  - unfold step_client in Hstep.
    destruct (clients s !! i) as [[c pc]|] eqn:Hi; [|done]. simpl in Hstep.
    pose proof Hcl as (Hst & Hnr & Hsub).
    assert (Hcur : (n <= i)%nat -> forall t, c = Submit t ->
              pc = SubmitEntry \/ pc = SubmitReturned (Some ErrPoolClosed))
      by (intros Hn t ->; by eapply Hsub).
    assert (Hnb : c = Reboot -> pc <> RebootCas).
    { intros -> ->. apply Hnr. by exists i. }
    assert (Hclosed : IsClosed s = true) by (unfold IsClosed; by rewrite Hst).
    unfold IsClosed in *.
    assert (Hopen : (state (pool s) =? OPENED) = false) by (by rewrite Hst).
    destruct c; destruct pc; try done; rewrite ?Hclosed, ?Hopen in Hstep;
      repeat case_match; simplify_eq;
      try (by eapply closed_since_frame);
      try (by exfalso; apply Hnb);
      try match goal with H : close_chan _ _ = Some _ |- _ =>
        apply close_chan_frame in H as [Hp Hc]; rewrite Hc end;
      simpl;
      (eapply closed_since_goto; [done|done|simpl; rewrite ?Hp; done|done|]);
      intros Hn t Ht; destruct (Hcur Hn _ Ht) as [?|?]; simplify_eq; auto.
  - apply step_worker_frame in Hstep as [? ?]. by eapply closed_since_frame.
  - apply step_sweeper_frame in Hstep as [? ?]. by eapply closed_since_frame.
  - apply step_sweeper_frame in Hstep as [? ?]. by eapply closed_since_frame.
Qed.

Lemma closed_since_run n evs : forall s s',
  closed_since n s -> no_reboot_call evs = true -> run exec s evs = Some s' ->
  closed_since n s'.
Proof.
  induction evs as [|ev evs IH]; intros s s' Hcl Hno Hrun; simpl in *.
  - by simplify_eq.
  - apply andb_true_iff in Hno as [Hev%negb_true_iff Hno].
    destruct (step exec s ev) as [s1|] eqn:Hstep; [|done]. simpl in Hrun.
    eapply IH; [|done|done]. by eapply closed_since_step.
Qed.

(** A submission that finds the pool closed is answered [ErrPoolClosed]
    in its first step; nothing but the caller's own state changes. *)
Lemma submit_on_closed s j t :
  crashed s = false -> IsClosed s = true ->
  clients s !! j = Some (Submit t, SubmitEntry) ->
  step exec s (Client j)
  = Some (set_clients
            (<[j := (Submit t, SubmitReturned (Some ErrPoolClosed))]> (clients s)) s).
Proof.
  intros Hc Hcl Hj. unfold step, step_client. by rewrite Hc, Hj; simpl; rewrite Hcl.
Qed.

(** A [Release] that finds the pool closed returns at once. *)
Lemma release_on_closed s j :
  crashed s = false -> IsClosed s = true ->
  clients s !! j = Some (Release, ReleaseCas) ->
  step exec s (Client j)
  = Some (set_clients (<[j := (Release, ReleaseReturned)]> (clients s)) s).
Proof.
  intros Hc Hcl Hj. unfold step, step_client. rewrite Hc, Hj; simpl.
  unfold IsClosed in Hcl. apply Z.eqb_eq in Hcl. by rewrite Hcl.
Qed.

(** C5.  Take any state of the pool in which the pool is open (or
    already closed) and no Reboot is about to execute its
    compare-and-swap, a call of Release that has not yet executed its
    own, and any schedule from there that holds no Reboot call.  Once
    that Release has returned, the pool is closed and stays closed;
    every submission made afterwards is answered ErrPoolClosed, in its
    first step, which changes nothing but the caller's own state
    (nothing is enqueued, no worker is touched); every later Release
    finds the compare-and-swap failing and returns at once, changing
    nothing else. *)
Theorem release_closes_pool (s0 s s2 : World (A:=A))
    (evs evs2 : list (event A)) (i : nat) :
  state (pool s0) = OPENED \/ state (pool s0) = CLOSED ->
  ~ reboot_pending s0 ->
  (forall pc, clients s0 !! i = Some (Release, pc) -> pc = ReleaseCas) ->
  no_reboot_call evs = true -> no_reboot_call evs2 = true ->
  run exec s0 evs = Some s ->
  clients s !! i = Some (Release, ReleaseReturned) ->
  run exec s evs2 = Some s2 ->
  IsClosed s = true /\ IsClosed s2 = true /\
  (forall j t pc, (length (clients s) <= j)%nat ->
     clients s2 !! j = Some (Submit t, pc) ->
     pc = SubmitReturned (Some ErrPoolClosed) \/
     (pc = SubmitEntry /\
      (crashed s2 = false ->
       step exec s2 (Client j)
       = Some (set_clients
                 (<[j := (Submit t, SubmitReturned (Some ErrPoolClosed))]> (clients s2))
                 s2)))) /\
  (forall j, clients s2 !! j = Some (Release, ReleaseCas) ->
     crashed s2 = false ->
     step exec s2 (Client j)
     = Some (set_clients (<[j := (Release, ReleaseReturned)]> (clients s2)) s2)).
Proof.
  intros Hst0 Hnr0 Hi0 Hno Hno2 Hrun Hi Hrun2.
  assert (Hrel0 : released i s0).
  { split; [done|]. split; [done|]. intros pc Hpc Hne. by apply Hi0 in Hpc. }
  pose proof (released_run _ _ _ _ Hrel0 Hno Hrun) as (Hst & Hnr & Hr).
  assert (Hs : state (pool s) = CLOSED) by (by eapply Hr).
  assert (Hcl : closed_since (length (clients s)) s).
  { split; [done|]. split; [done|].
    intros j t pc Hn Hj. apply lookup_lt_Some in Hj. lia. }
  pose proof (closed_since_run _ _ _ _ Hcl Hno2 Hrun2) as (Hs2 & Hnr2 & Hsub2).
  assert (Hc2 : IsClosed s2 = true) by (unfold IsClosed; by rewrite Hs2).
  split; [unfold IsClosed; by rewrite Hs|]. split; [done|]. split.
  - intros j t pc Hn Hj. destruct (Hsub2 _ _ _ Hn Hj) as [-> | ->]; [right|by left].
    split; [done|]. intros Hc. by apply submit_on_closed.
  - intros j Hj Hc. by apply release_on_closed.
Qed.
End Lifecycle.

(** ** The nil payload *)

Section NilTask.
Context {A : Type} (exec : A -> outcome).
Implicit Types (s : World (A:=A)) (ev : event A).

Lemma run_cons_Some s ev evs s1 :
  step exec s ev = Some s1 -> run exec s (ev :: evs) = run exec s1 evs.
Proof. intros H. simpl. by rewrite H. Qed.

Lemma lookup_last {X} (l : list X) x : (l ++ [x]) !! length l = Some x.
Proof. by rewrite list_lookup_middle. Qed.

Lemma insert_last {X} (l : list X) x y : <[length l := y]> (l ++ [x]) = l ++ [y].
Proof.
  rewrite insert_app_r_alt by lia. by rewrite Nat.sub_diag.
Qed.

Ltac world_proj :=
  cbn [crashed clients pool locked objects routines notify chans sweepers clock logged
       set_clients set_locked on_pool set_objects set_routines set_notify set_chans
       set_sweepers set_clock add_log crash
       capacity running state workers options waiting stopCleaning cleaningDone
       set_running set_state set_workers set_waiting add_running add_waiting].

(** One step of the client that was called last. *)
Ltac client_step :=
  erewrite run_cons_Some;
  [| unfold step, step_client, IsClosed; world_proj;
     rewrite ?lookup_last; cbn [mbind option_bind]; world_proj;
     repeat match goal with
            | H : _ = _ |- _ => rewrite H
            end;
     rewrite ?insert_last; reflexivity ].

Lemma submit_nil_idle s w q' o :
  crashed s = false -> IsClosed s = false -> locked s = false ->
  q_detach (workers (pool s)) = Some (Some w, q') ->
  objects s !! w = Some o -> inbox o = [] -> inboxClosed o = false ->
  let i := length (clients s) in
  run exec s (Call (Submit None) :: replicate 4 (Client i))
  = Some (set_clients (clients s ++ [(Submit None, SubmitReturned None)])
            (set_objects (<[w := GoWorker [None] false (lastUsed o) (recycled o)]> (objects s))
               (set_locked false (on_pool (set_workers q') s)))).
Proof.
  intros Hc Hopen Hl Hd Ho Hin Hcl i. subst i. unfold IsClosed in Hopen.
  erewrite run_cons_Some; [|unfold step; rewrite Hc; reflexivity].
  cbn [replicate entry].
  client_step.
  client_step.
  client_step.
  client_step.
  reflexivity.
Qed.

Lemma submit_nil_fresh s q' :
  crashed s = false -> IsClosed s = false -> locked s = false ->
  length (routines s) = length (objects s) ->
  q_detach (workers (pool s)) = Some (None, q') ->
  capacity (pool s) = -1 \/ running (pool s) < capacity (pool s) ->
  let i := length (clients s) in
  let w := length (objects s) in
  run exec s (Call (Submit None) :: replicate 10 (Client i))
  = Some (set_clients (clients s ++ [(Submit None, SubmitReturned None)])
            (set_objects (objects s ++ [GoWorker [None] false (clock s) 0])
               (set_routines (routines s ++ [WRecv])
                  (set_locked false
                     (on_pool (add_running 1) (on_pool (set_workers q') s)))))).
Proof.
  intros Hc Hopen Hl Hlen Hd Hcap i w. subst i w. unfold IsClosed in Hopen.
  assert (Hb : (capacity (pool s) =? -1) || (running (pool s) <? capacity (pool s)) = true).
  { apply orb_true_iff. destruct Hcap as [Hm|Hlt]; [left; by apply Z.eqb_eq|].
    right. by apply Z.ltb_lt. }
  erewrite run_cons_Some; [|unfold step; rewrite Hc; reflexivity].
  cbn [replicate entry].
  do 7 client_step.
  client_step.
  erewrite run_cons_Some;
    [| unfold step, step_client; world_proj; rewrite Hc, lookup_last;
       cbn [mbind option_bind]; world_proj; rewrite insert_last, <- Hlen, insert_last;
       reflexivity ].
  erewrite run_cons_Some;
    [| unfold step, step_client; world_proj; rewrite Hc, lookup_last;
       cbn [mbind option_bind]; world_proj; rewrite ?Hlen, lookup_last;
       cbn [inboxClosed inbox length workerChanCap Nat.leb];
       rewrite insert_last, insert_last; reflexivity ].
  reflexivity.
Qed.

(** The goroutine of a worker that finds nil in its inbox: it leaves the
    loop, decrements [running], signals, and is gone. *)
Lemma worker_takes_nil s w o :
  crashed s = false ->
  objects s !! w = Some o -> inbox o = [None] ->
  routines s !! w = Some WRecv ->
  exists s2 s3,
    step exec s (Worker w) = Some s2 /\
    routines s2 !! w = Some (WDeferDec false) /\
    run exec s2 [Worker w; Worker w] = Some s3 /\
    routines s3 !! w = Some WDone /\
    step exec s3 (Worker w) = None /\
    workers (pool s3) = workers (pool s) /\
    Running s3 = wrap32 (Running s - 1) /\
    logged s3 = logged s.
Proof.
  intros Hc Ho Hin Hr.
  assert (Hw : (w < length (routines s))%nat) by (by eapply lookup_lt_Some).
  assert (Hw' : (w < length (objects s))%nat) by (by eapply lookup_lt_Some).
  eexists _, _. split; [|split; [|split; [|split; [|split]]]].
  - unfold step, step_worker. rewrite Hc, Hr, Ho. cbn [mbind option_bind].
    rewrite Hin. reflexivity.
  - world_proj. by rewrite list_lookup_insert_eq.
  - unfold run, step, step_worker. world_proj. rewrite Hc.
    rewrite !list_lookup_insert_eq by (by rewrite ?length_insert).
    cbn [mbind option_bind]. world_proj. rewrite Hc.
    rewrite !list_lookup_insert_eq by (by rewrite ?length_insert).
    cbn [mbind option_bind]. reflexivity.
  - world_proj. unfold Signal. world_proj.
    rewrite !list_lookup_insert_eq by (by rewrite ?length_insert). done.
  - unfold step, step_worker, Signal. world_proj. rewrite Hc.
    rewrite !list_lookup_insert_eq by (by rewrite ?length_insert). done.
  - unfold Signal, Running. world_proj. by repeat split.
Qed.

(** C10.  In an open pool with a worker available (an idle one, or
    room to create one), Submit(nil) -- Invoke(nil) for the function
    pool -- run to its return answers success.  The worker that got the
    nil reads it as the order to stop: it leaves its loop without
    executing anything, runs its deferred function and is gone; it is
    not put back into the idle store, and running is one less. *)
Theorem nil_submission_destroys_worker s (w : ptr) (q' : workerQueue) :
  crashed s = false -> IsClosed s = false -> locked s = false ->
  length (routines s) = length (objects s) ->
  worker_available s w q' ->
  let i := length (clients s) in
  exists k s1 s2 s3,
    (* the call Submit(nil), run to its return: success *)
    run exec s (Call (Submit None) :: replicate k (Client i)) = Some s1 /\
    answer i s1 = Some None /\
    inbox <$> objects s1 !! w = Some [None] /\
    routines s1 !! w = Some WRecv /\
    (* the worker reads nil and leaves its loop: no task is executed *)
    step exec s1 (Worker w) = Some s2 /\
    routines s2 !! w = Some (WDeferDec false) /\
    (* its deferred function runs; the goroutine is gone for good *)
    run exec s2 [Worker w; Worker w] = Some s3 /\
    routines s3 !! w = Some WDone /\
    step exec s3 (Worker w) = None /\
    (* the idle store is what the detach left; running went down by one *)
    workers (pool s3) = q' /\
    Running s3 = wrap32 (Running s1 - 1) /\
    logged s3 = logged s.
Proof.
  intros Hc Hopen Hl Hlen Hav i. subst i.
  destruct Hav as [(o & Hd & Ho & Hin & Hcl & Hr)|(Hd & Hcap & ->)].
  - pose proof (submit_nil_idle s w q' o Hc Hopen Hl Hd Ho Hin Hcl) as Hrun.
    cbv zeta in Hrun.
    assert (Hw : (w < length (objects s))%nat) by (by eapply lookup_lt_Some).
    edestruct (worker_takes_nil
                 (set_clients (clients s ++ [(Submit None, SubmitReturned None)])
                    (set_objects
                       (<[w := GoWorker [None] false (lastUsed o) (recycled o)]> (objects s))
                       (set_locked false (on_pool (set_workers q') s)))) w)
      as (s2 & s3 & H1 & H2 & H3 & H4 & H5 & H6 & H7 & H8);
      [done| by apply list_lookup_insert_eq | done | done |].
    eexists 4%nat, _, s2, s3. split; [exact Hrun|].
    split; [unfold answer; simpl; by rewrite lookup_last|].
    split; [simpl; by rewrite list_lookup_insert_eq|].
    by repeat split.
  - pose proof (submit_nil_fresh s q' Hc Hopen Hl Hlen Hd Hcap) as Hrun.
    cbv zeta in Hrun.
    edestruct (worker_takes_nil
                 (set_clients (clients s ++ [(Submit None, SubmitReturned None)])
                    (set_objects (objects s ++ [GoWorker [None] false (clock s) 0])
                       (set_routines (routines s ++ [WRecv])
                          (set_locked false
                             (on_pool (add_running 1) (on_pool (set_workers q') s))))))
                 (length (objects s)))
      as (s2 & s3 & H1 & H2 & H3 & H4 & H5 & H6 & H7 & H8);
      [done| by apply lookup_last | done | simpl; rewrite <- Hlen; by apply lookup_last |].
    eexists 10%nat, _, s2, s3. split; [exact Hrun|].
    split; [unfold answer; simpl; by rewrite lookup_last|].
    split; [simpl; by rewrite lookup_last|].
    split; [simpl; rewrite <- Hlen; by apply lookup_last|].
    by repeat split.
Qed.
End NilTask.

Lemma release_closes_pool_witness :
  exists s s2,
    run id rebooted release_again = Some s /\
    run id s after_release_again = Some s2 /\
    IsClosed rebooted = false /\
    IsClosed s = true /\ IsClosed s2 = true /\
    clients s2 !! 3%nat = Some (Submit (Some Returns), SubmitReturned (Some ErrPoolClosed)).
Proof.
  eexists _, _. split; [vm_compute; reflexivity|].
  split; [vm_compute; reflexivity|].
  split; [vm_compute; reflexivity|].
  match goal with
  | |- IsClosed ?s = true /\ IsClosed ?s2 = true /\ _ =>
      destruct (release_closes_pool id rebooted s s2
                  release_again after_release_again 2)
        as (H1 & H2 & _)
  end.
  - left. vm_compute. reflexivity.
  - intros [[|[|[|j]]] Hj]; vm_compute in Hj; discriminate Hj.
  - intros pc Hpc. vm_compute in Hpc. discriminate Hpc.
  - vm_compute. reflexivity.
  - vm_compute. reflexivity.
  - vm_compute. reflexivity.
  - vm_compute. reflexivity.
  - vm_compute. reflexivity.
  - split; [exact H1|]. split; [exact H2|]. vm_compute. reflexivity.
Defined.

(** C5 as stated fails when Reboot is in play.  On the pool NewPool(1):
    a Release whose compare-and-swap has closed the pool is overtaken by
    a Reboot, which reopens it; the Release then returns on an open
    pool, and the next submission is accepted and handed to a worker. *)
Lemma release_returns_on_open_pool :
  exists s s2,
    run id pool_one release_overtaken = Some s /\
    crashed s = false /\
    clients s !! 0%nat = Some (Release, ReleaseReturned) /\
    IsClosed s = false /\
    run id s (submit_next 2) = Some s2 /\
    crashed s2 = false /\
    clients s2 !! 2%nat = Some (Submit (Some Returns), SubmitReturned None) /\
    objects s2 = [GoWorker [Some Returns] false 0 0].
Proof.
  eexists _, _. split; [vm_compute; reflexivity|].
  do 3 (split; [vm_compute; reflexivity|]).
  split; [vm_compute; reflexivity|].
  repeat split; vm_compute; reflexivity.
Qed.

(** Without any race: after a Release has returned, a Reboot run to its
    return reopens the pool, and the next submission is accepted. *)
Lemma reboot_after_release_accepts :
  exists s s2,
    run id pool_one shutdown = Some s /\
    clients s !! 0%nat = Some (Release, ReleaseReturned) /\
    IsClosed s = true /\
    run id s (Call Reboot :: replicate 4 (Client 1%nat) ++ submit_next 2) = Some s2 /\
    crashed s2 = false /\ IsClosed s2 = false /\
    clients s2 !! 2%nat = Some (Submit (Some Returns), SubmitReturned None).
Proof.
  eexists _, _. split; [vm_compute; reflexivity|].
  do 2 (split; [vm_compute; reflexivity|]).
  split; [vm_compute; reflexivity|].
  repeat split; vm_compute; reflexivity.
Qed.

Lemma nil_submission_destroys_worker_witness :
  exists k s1 s2 s3,
    run id pool_one (Call (Submit None) :: replicate k (Client 0)) = Some s1 /\
    answer 0 s1 = Some None /\
    inbox <$> objects s1 !! 0%nat = Some [None] /\
    routines s1 !! 0%nat = Some WRecv /\
    step id s1 (Worker 0) = Some s2 /\
    routines s2 !! 0%nat = Some (WDeferDec false) /\
    run id s2 [Worker 0%nat; Worker 0%nat] = Some s3 /\
    routines s3 !! 0%nat = Some WDone /\
    step id s3 (Worker 0) = None /\
    workers (pool s3) = QStack (Stack.newWorkerStack 0) /\
    Running s3 = wrap32 (Running s1 - 1) /\
    logged s3 = logged pool_one.
Proof.
  apply (nil_submission_destroys_worker id pool_one 0 (QStack (Stack.newWorkerStack 0)));
    try reflexivity.
  right. split; [reflexivity|]. split; [right; vm_compute; reflexivity | reflexivity].
Defined.

(** ** The running counter *)

(** C1 fails on the code.  Pool of capacity 1: one task is submitted and
    completes, so one worker is idle and running is 1.  The expiry sweep
    reclaims that worker ([refresh] returns one index) and the sweeper
    subtracts 1: running is 0.  Closing the inbox makes the worker's
    goroutine leave its loop, and its deferred function subtracts 1
    again: running is -1, below 0, with no worker left. *)
Theorem sweep_decrements_twice :
  exists s1 s2 s3,
    run id pool_one one_task_done = Some s1 /\
    Running s1 = 1 /\ Free s1 = 1%nat /\
    run id s1 expiry_sweep = Some s2 /\
    Running s2 = 0 /\ Free s2 = 0%nat /\ finished (objects s2) 0 = true /\
    run id s2 worker_exit = Some s3 /\
    Cap s3 = 1 /\ Running s3 = -1 /\ routines s3 = [WDone] /\ crashed s3 = false.
Proof.
  eexists _, _, _. split; [vm_compute; reflexivity|].
  split; [reflexivity|]. split; [reflexivity|].
  split; [vm_compute; reflexivity|].
  split; [reflexivity|]. split; [reflexivity|]. split; [reflexivity|].
  split; [vm_compute; reflexivity|]. by repeat split.
Qed.

(** The upper bound fails too: the capacity check of [getWorker] and the
    increment of [running] are not one atomic action.  With capacity 1,
    two submissions that both read running = 0 both create a worker. *)
Lemma concurrent_creation_exceeds_capacity :
  exists s,
    run id blocking_one both_create = Some s /\
    Cap s = 1 /\ Running s = 2 /\ routines s = [WRecv; WRecv] /\
    answer 0 s = Some None /\ answer 1 s = Some None.
Proof. eexists. split; [vm_compute; reflexivity|]. by repeat split. Qed.

(** ** Blocking submissions *)

(** C2 fails on the code.  Pool of capacity 1 in blocking mode, schedule
    [steal]: client 1 parks because the only worker is busy; the worker
    re-enters the store and signals; client 2 takes it first; client 1
    wakes up, finds the store empty and is answered ErrPoolOverload, in
    blocking mode, on an open pool. *)
Theorem blocking_submit_overload :
  exists s,
    run id blocking_one steal = Some s /\
    Nonblocking (options (pool s)) = false /\
    IsClosed s = false /\ crashed s = false /\
    answer 0 s = Some None /\
    answer 2 s = Some None /\
    answer 1 s = Some (Some ErrPoolOverload) /\
    Running s = 1 /\ Cap s = 1 /\ Free s = 0%nat.
Proof.
  eexists. split; [vm_compute; reflexivity|]. by repeat split.
Qed.

(** * Further properties of the code *)

(** ** The stack store *)

Section StackStore.
Implicit Types (wq : Stack.workerStack) (w : ptr).

(** Last in, first out: [detach] after [insert] hands back the inserted
    worker and restores the stack; [insert] never reports an error and
    makes the stack one longer. *)
Lemma stack_insert_detach wq w :
  (Stack.insert wq w).1 = None /\
  Stack.len (Stack.insert wq w).2 = S (Stack.len wq) /\
  Stack.isEmpty (Stack.insert wq w).2 = false /\
  Stack.detach (Stack.insert wq w).2 = (Some w, wq).
Proof.
  destruct wq as [its sz]. unfold Stack.len, Stack.isEmpty, Stack.detach. simpl.
  rewrite length_app. simpl.
  replace (length its + 1)%nat with (S (length its)) by lia. simpl.
  rewrite Nat.sub_0_r, list_lookup_middle by done. by rewrite take_app_length.
Qed.

(** [detach] takes the worker at the tail; on the empty stack it returns
    nil and changes nothing. *)
Lemma stack_detach_spec wq :
  match Stack.items wq with
  | [] => Stack.detach wq = (None, wq) /\ Stack.isEmpty wq = true
  | _ :: _ =>
      exists w rest,
        Stack.items wq = rest ++ [w] /\
        Stack.detach wq = (Some w, Stack.WorkerStack rest (Stack.size wq)) /\
        Stack.isEmpty wq = false
  end.
Proof.
  destruct wq as [its sz]. simpl.
  destruct its as [|x its] using rev_ind; [done|].
  destruct (its ++ [x]) as [|y l] eqn:E; [by destruct its|]. rewrite <- E.
  exists x, its. unfold Stack.detach, Stack.isEmpty. simpl.
  rewrite length_app. simpl.
  replace (length its + 1)%nat with (S (length its)) by lia. simpl.
  rewrite Nat.sub_0_r, list_lookup_middle by done. by rewrite take_app_length.
Qed.
End StackStore.

Section StackReset.
Context {A : Type}.
Implicit Types (h : heap A) (wq : Stack.workerStack).

(** [reset] finishes every idle worker of the stack, touches no other
    worker, and leaves the stack empty. *)
Lemma stack_reset_spec h wq :
  idle_ok h (Stack.items wq) ->
  exists h',
    Stack.reset h wq = Some (h', Stack.WorkerStack [] (Stack.size wq)) /\
    (forall p, p ∈ Stack.items wq -> finished h' p = true) /\
    (forall p, p ∉ Stack.items wq -> h' !! p = h !! p) /\
    (forall p, stamp h' p = stamp h p).
Proof.
  intros Hok. destruct (finish_all_spec _ h Hok) as (h' & Hf & H1 & H2 & H3).
  exists h'. unfold Stack.reset. rewrite Hf. done.
Qed.
End StackReset.

Lemma stack_reset_spec_witness :
  exists h',
    Stack.reset three_idle (Stack.WorkerStack [0; 1; 2]%nat 0)
    = Some (h', Stack.WorkerStack [] 0) /\
    finished h' 1 = true.
Proof.
  destruct (stack_reset_spec three_idle (Stack.WorkerStack [0; 1; 2]%nat 0) three_idle_ok)
    as (h' & Hr & Hf & _).
  exists h'. split; [exact Hr|]. apply Hf. by repeat constructor.
Defined.

(** ** The ring store *)

Section RingStore.
Implicit Types (wq : Ring.loopQueue) (ps : list ptr) (w : ptr).

Lemma ring_len_live wq : ring_ok wq -> Ring.len wq = length (live wq).
Proof.
  intros (Hlen & Hh & Ht & Hfull). unfold Ring.len, live.
  destruct (Ring.isFull wq) eqn:Hf; simpl.
  - rewrite length_app, length_drop, length_take, (Hfull eq_refl). lia.
  - destruct (Nat.leb_spec (Ring.head wq) (Ring.tail wq)) as [Hle|Hgt].
    + replace (Nat.ltb (Ring.tail wq) (Ring.head wq)) with false
        by (symmetry; apply Nat.ltb_ge; lia).
      rewrite length_take, length_drop. lia.
    + replace (Nat.ltb (Ring.tail wq) (Ring.head wq)) with true
        by (symmetry; apply Nat.ltb_lt; lia).
      rewrite length_app, length_drop, length_take. lia.
Qed.

Lemma ring_full_iff wq ps :
  holds wq ps -> (Ring.isFull wq = true <-> length ps = Ring.size wq).
Proof.
  intros [Hok Hl]. pose proof (ring_len_live wq Hok) as Hlen.
  rewrite Hl, length_fmap in Hlen.
  destruct Hok as (Hsz & Hh & Ht & Hfull).
  rewrite <- Hlen. unfold Ring.len. destruct (Ring.isFull wq); [done|].
  split; [done|]. destruct (Nat.leb_spec (Ring.head wq) (Ring.tail wq)); lia.
Qed.

(** [len] counts the idle workers; [isEmpty] holds exactly when there is
    none; the full flag is set exactly when all [size] slots are taken. *)
Lemma ring_len_spec wq ps :
  holds wq ps ->
  Ring.len wq = length ps /\
  (length ps <= Ring.size wq)%nat /\
  (Ring.isEmpty wq = true <-> ps = []) /\
  (Ring.isFull wq = true <-> length ps = Ring.size wq).
Proof.
  intros [Hok Hl]. pose proof (ring_len_live wq Hok) as Hlen.
  rewrite Hl, length_fmap in Hlen.
  pose proof (live_length wq Hok) as Hle. rewrite Hl, length_fmap in Hle.
  destruct Hok as (Hsz & Hh & Ht & Hfull).
  split; [done|]. split; [lia|]. split.
  - split.
    + intros He. assert (Hok : ring_ok wq) by done.
      pose proof (ring_empty_live wq Hok He) as H0. rewrite H0 in Hl.
      symmetry in Hl. by apply fmap_nil_inv in Hl.
    + intros ->. apply holds_nil_empty. by split.
  - apply ring_full_iff. by split.
Qed.

(** A new ring of positive size is empty. *)
Lemma ring_new_empty (sz : nat) :
  (0 < sz)%nat -> holds (Ring.newWorkerLoopQueue sz) [].
Proof.
  intros Hsz. split.
  - unfold ring_ok. simpl. rewrite length_replicate. repeat split; try done.
  - done.
Qed.

Lemma insert_at_end {X} (l : list X) n x :
  length l = S n -> <[n := x]> l = take n l ++ [x].
Proof.
  intros Hl. rewrite insert_take_drop by lia. by rewrite drop_ge by lia.
Qed.

Lemma take_S_insert {X} (l : list X) n x :
  (n < length l)%nat -> take (S n) (<[n := x]> l) = take n l ++ [x].
Proof.
  intros Hl. erewrite take_S_r by (by apply list_lookup_insert_eq).
  by rewrite take_insert_ge.
Qed.

Lemma ring_push wq w :
  ring_ok wq -> Ring.isFull wq = false ->
  exists wq', Ring.insert wq w = Some (None, wq') /\ ring_ok wq' /\
              live wq' = live wq ++ [Some w].
Proof.
  intros (Hlen & Hh & Ht & Hfull) Hnf. unfold Ring.insert. rewrite Hnf.
  replace (Nat.ltb (Ring.tail wq) (length (Ring.items wq))) with true
    by (symmetry; apply Nat.ltb_lt; lia).
  eexists. split; [done|]. unfold Ring.advance.
  split.
  - unfold ring_ok. ring_proj. rewrite length_insert.
    destruct (Nat.eqb_spec (S (Ring.tail wq)) (Ring.size wq)); repeat split; try done;
      try lia; by intros ?%Nat.eqb_eq.
  - unfold live. ring_proj. rewrite Hnf. cbn [orb].
    destruct (Nat.ltb_spec (Ring.tail wq) (Ring.head wq)) as [Hwrap|Hflat].
    + (* the live range already wraps *)
      destruct (Nat.eqb_spec (S (Ring.tail wq)) (Ring.size wq)) as [?|_]; [lia|].
      replace (Nat.eqb (S (Ring.tail wq)) (Ring.head wq)
               || Nat.ltb (S (Ring.tail wq)) (Ring.head wq)) with true.
      2:{ symmetry. apply orb_true_iff.
          destruct (Nat.eqb_spec (S (Ring.tail wq)) (Ring.head wq)); [by left|].
          right. apply Nat.ltb_lt. lia. }
      rewrite drop_insert_lt by lia. rewrite take_S_insert by lia.
      by rewrite app_assoc.
    + destruct (Nat.eqb_spec (S (Ring.tail wq)) (Ring.size wq)) as [Hend|Hmid].
      * (* the tail wraps to slot 0 *)
        replace (Nat.eqb 0 (Ring.head wq) || Nat.ltb 0 (Ring.head wq)) with true.
        2:{ symmetry. destruct (Ring.head wq); [done|]. done. }
        rewrite take_0, app_nil_r. rewrite drop_insert_ge by lia.
        rewrite insert_at_end by (rewrite length_drop; lia).
        done.
      * replace (Nat.eqb (S (Ring.tail wq)) (Ring.head wq)
                 || Nat.ltb (S (Ring.tail wq)) (Ring.head wq)) with false.
        2:{ symmetry. apply orb_false_iff. split.
            - apply Nat.eqb_neq. lia.
            - apply Nat.ltb_ge. lia. }
        rewrite drop_insert_ge by lia.
        replace (S (Ring.tail wq) - Ring.head wq)%nat
          with (S (Ring.tail wq - Ring.head wq)) by lia.
        rewrite take_S_insert by (rewrite length_drop; lia). done.
Qed.

(** First in, first out, bounded.  On a ring that is not full [insert]
    appends the worker behind the others and reports no error; on a full
    ring it reports ErrPoolOverload and changes nothing. *)
Theorem ring_insert_spec wq ps w :
  holds wq ps ->
  ((length ps < Ring.size wq)%nat ->
     exists wq', Ring.insert wq w = Some (None, wq') /\ holds wq' (ps ++ [w])) /\
  (length ps = Ring.size wq ->
     Ring.insert wq w = Some (Some ErrPoolOverload, wq)).
Proof.
  intros Hh. pose proof (ring_full_iff wq ps Hh) as Hfull.
  destruct Hh as [Hok Hl]. split.
  - intros Hlt. assert (Hnf : Ring.isFull wq = false).
    { destruct (Ring.isFull wq); [|done]. destruct Hfull as [Hf _].
      specialize (Hf eq_refl). lia. }
    destruct (ring_push wq w Hok Hnf) as (wq' & Hi & Hok' & Hl').
    exists wq'. split; [done|]. split; [done|].
    by rewrite Hl', Hl, fmap_app.
  - intros Heq. apply Hfull in Heq. unfold Ring.insert. by rewrite Heq.
Qed.

(** [detach] hands out the oldest worker and keeps the others in order;
    on the empty ring it returns nil and changes nothing. *)
Theorem ring_detach_spec wq ps :
  holds wq ps ->
  match ps with
  | [] => Ring.detach wq = Some (None, wq)
  | p :: rest =>
      exists wq', Ring.detach wq = Some (Some p, wq') /\ holds wq' rest
  end.
Proof.
  intros Hh. destruct ps as [|p rest]; unfold Ring.detach.
  - by rewrite (holds_nil_empty wq Hh).
  - rewrite (holds_cons_nonempty wq p rest Hh).
    destruct Hh as [Hok Hl]. rewrite fmap_cons in Hl.
    destruct (ring_pop wq _ _ Hok Hl) as (Hhd & Hok' & Hl').
    rewrite Hhd. simpl. exists (popped wq). split; [done|]. by split.
Qed.
End RingStore.

Lemma ring_three_holds : holds ring_three [0; 1; 2]%nat.
Proof. split; [|reflexivity]. repeat split; simpl; try lia; try discriminate. Qed.

Lemma ring_len_spec_witness :
  Ring.len ring_three = 3%nat /\ (Ring.isEmpty ring_three = true <-> [0; 1; 2]%nat = []).
Proof.
  destruct (ring_len_spec ring_three [0; 1; 2]%nat ring_three_holds) as (Hl & _ & He & _).
  split; [exact Hl | exact He].
Defined.

Lemma ring_new_empty_witness : holds (Ring.newWorkerLoopQueue 1000) [].
Proof. apply ring_new_empty. lia. Defined.

Lemma ring_insert_spec_witness :
  exists wq', Ring.insert ring_three 7%nat = Some (None, wq') /\
              holds wq' [0; 1; 2; 7]%nat.
Proof.
  destruct (ring_insert_spec ring_three [0; 1; 2]%nat 7%nat ring_three_holds) as [Hins _].
  apply Hins. simpl. lia.
Defined.

Lemma ring_detach_spec_witness :
  exists wq', Ring.detach ring_three = Some (Some 0%nat, wq') /\ holds wq' [1; 2]%nat.
Proof. exact (ring_detach_spec ring_three [0; 1; 2]%nat ring_three_holds). Defined.

Section RingReset.
Context {A : Type}.
Implicit Types (h : heap A) (wq : Ring.loopQueue) (ps qs : list ptr).

Lemma finish_all_app h ps qs :
  finish_all h (ps ++ qs) = h' ← finish_all h ps; finish_all h' qs.
Proof.
  revert h. induction ps as [|p ps IH]; intros h; simpl; [done|].
  destruct (finish h p) as [h1|]; simpl; [apply IH|done].
Qed.

Lemma idle_ok_after h h1 ps qs :
  idle_ok h (ps ++ qs) -> finish_all h ps = Some h1 -> idle_ok h1 qs.
Proof.
  intros [Hnd Hal] Hf.
  apply NoDup_app in Hnd as (Hnd1 & Hdis & Hnd2).
  apply Forall_app in Hal as [Hal1 Hal2].
  destruct (finish_all_spec ps h) as (h' & Hf' & _ & Hoth & _); [by split|].
  rewrite Hf in Hf'. injection Hf' as <-.
  split; [done|]. rewrite Forall_forall in Hal2 |- *. intros q Hq.
  rewrite (alive_stamp_agree h h1); [by apply Hal2|].
  apply Hoth. intros Hp. by eapply Hdis.
Qed.

Lemma clear_range_spec : forall count from h its qs,
  (from + count <= length its)%nat ->
  take count (drop from its) = Some <$> qs ->
  idle_ok h qs ->
  exists h',
    finish_all h qs = Some h' /\
    Ring.clear_range h its from count
    = Some (h', take from its ++ replicate count None ++ drop (from + count) its).
Proof.
  induction count as [|c IH]; intros from h its qs Hlen Hseg Hok.
  - rewrite take_0 in Hseg. symmetry in Hseg. apply fmap_nil_inv in Hseg as ->.
    exists h. split; [done|]. simpl. by rewrite Nat.add_0_r, take_drop.
  - destruct (lookup_lt_is_Some_2 its from) as [x Hx]; [lia|].
    rewrite (drop_S _ _ _ Hx) in Hseg. simpl in Hseg.
    destruct qs as [|q qs]; [done|]. rewrite fmap_cons in Hseg.
    injection Hseg as -> Hseg.
    pose proof Hok as [Hnd Hal]. apply Forall_cons in Hal as [Hq _].
    destruct (finish_spec h q Hq) as (h1 & Hf1 & _).
    destruct (IH (S from) h1 (<[from := None]> its) qs) as (h' & Hf & Hc).
    { rewrite length_insert. lia. }
    { by rewrite drop_insert_lt by lia. }
    { apply (idle_ok_after h h1 [q] qs); [done|]. simpl. by rewrite Hf1. }
    exists h'. split; [simpl; by rewrite Hf1|].
    simpl. rewrite Hx. simpl. rewrite Hf1. simpl. rewrite Hc. do 2 f_equal.
    rewrite drop_insert_lt by lia.
    rewrite (take_S_r _ _ None) by (apply list_lookup_insert_eq; lia).
    rewrite take_insert_ge by lia. rewrite <- app_assoc. simpl.
    by replace (from + S c)%nat with (S from + c)%nat by lia.
Qed.

Lemma ring_reset_nonempty h wq ps :
  holds wq ps -> idle_ok h ps -> ps <> [] ->
  exists h' wq',
    Ring.reset h wq = Some (h', wq') /\
    holds wq' [] /\ Ring.head wq' = 0%nat /\ Ring.tail wq' = 0%nat /\
    Ring.size wq' = Ring.size wq /\
    (forall p, p ∈ ps -> finished h' p = true) /\
    (forall p, p ∉ ps -> h' !! p = h !! p) /\
    (forall p, stamp h' p = stamp h p).
Proof.
  intros Hh Hok Hne.
  destruct (finish_all_spec ps h Hok) as (hf & Hfin & Hf1 & Hf2 & Hf3).
  assert (Hnonempty : Ring.isEmpty wq = false).
  { destruct ps as [|p ps]; [done|]. by eapply holds_cons_nonempty. }
  destruct Hh as [Hrok Hl]. pose proof Hrok as (Hlen & Hh & Ht & Hfull).
  assert (Hres : forall its', length its' = Ring.size wq ->
            holds (Ring.LoopQueue its' 0 0 (Ring.size wq) false) []).
  { intros its' Hl'. split; [|done]. unfold ring_ok. simpl.
    repeat split; try done; lia. }
  unfold Ring.reset. rewrite Hnonempty. unfold live in Hl.
  destruct (Nat.ltb_spec (Ring.head wq) (Ring.tail wq)) as [Hlt|Hge].
  - (* one segment *)
    assert (Hnf : Ring.isFull wq = false).
    { destruct (Ring.isFull wq); [|done]. specialize (Hfull eq_refl). lia. }
    rewrite Hnf in Hl. cbn [orb] in Hl.
    replace (Nat.ltb (Ring.tail wq) (Ring.head wq)) with false in Hl
      by (symmetry; apply Nat.ltb_ge; lia).
    destruct (clear_range_spec (Ring.tail wq - Ring.head wq) (Ring.head wq) h
                (Ring.items wq) ps) as (h' & Hf & Hc); [lia|done|done|].
    rewrite Hfin in Hf. injection Hf as <-. rewrite Hc. simpl.
    eexists _, _. split; [done|]. split; [|done].
    apply Hres. rewrite !length_app, length_take, length_replicate, length_drop. lia.
  - (* two segments: head .. size, then 0 .. tail *)
    assert (Hwrap : Ring.isFull wq || Nat.ltb (Ring.tail wq) (Ring.head wq) = true).
    { destruct (Ring.isFull wq) eqn:Hf; [done|]. simpl. apply Nat.ltb_lt.
      unfold Ring.isEmpty in Hnonempty. rewrite Hf, andb_true_r in Hnonempty.
      apply Nat.eqb_neq in Hnonempty. lia. }
    rewrite Hwrap in Hl.
    assert (Hsplit : exists ps1 ps2, ps = ps1 ++ ps2 /\
              drop (Ring.head wq) (Ring.items wq) = Some <$> ps1 /\
              take (Ring.tail wq) (Ring.items wq) = Some <$> ps2).
    { symmetry in Hl. apply fmap_app_inv in Hl as (ps1 & ps2 & H1 & H2 & H3).
      by exists ps1, ps2. }
    destruct Hsplit as (ps1 & ps2 & -> & Hs1 & Hs2).
    rewrite finish_all_app in Hfin.
    destruct (clear_range_spec (Ring.size wq - Ring.head wq) (Ring.head wq) h
                (Ring.items wq) ps1) as (h1 & Hfa & Hc1).
    { lia. }
    { rewrite take_ge; [done|rewrite length_drop; lia]. }
    { destruct Hok as [Hnd Hal]. apply NoDup_app in Hnd as (? & _ & _).
      apply Forall_app in Hal as [? _]. by split. }
    rewrite Hfa in Hfin. simpl in Hfin.
    destruct (clear_range_spec (Ring.tail wq) 0 h1
                (take (Ring.head wq) (Ring.items wq)
                 ++ replicate (Ring.size wq - Ring.head wq) None
                 ++ drop (Ring.head wq + (Ring.size wq - Ring.head wq)) (Ring.items wq))
                ps2) as (h2 & Hfb & Hc2).
    { rewrite !length_app, length_take, length_replicate. lia. }
    { rewrite drop_0, take_app_le by (rewrite length_take; lia).
      rewrite take_take. by replace (Ring.tail wq `min` Ring.head wq)%nat
        with (Ring.tail wq) by lia. }
    { by eapply idle_ok_after. }
    rewrite Hfb in Hfin. injection Hfin as <-.
    rewrite Hc1. simpl. rewrite Hc2. simpl.
    eexists _, _. split; [done|]. split; [|done].
    apply Hres.
    repeat first [rewrite length_app | rewrite length_take
                 | rewrite length_replicate | rewrite length_drop]. lia.
Qed.

(** [reset] on a ring that holds idle workers finishes each of them once,
    touches no other worker, and leaves an empty ring of the same size,
    with head and tail at slot 0 unless the ring was empty already (then
    it is left as it is). *)
Theorem ring_reset_spec h wq ps :
  holds wq ps -> idle_ok h ps ->
  exists h' wq',
    Ring.reset h wq = Some (h', wq') /\
    holds wq' [] /\ Ring.size wq' = Ring.size wq /\
    (ps <> [] -> Ring.head wq' = 0%nat /\ Ring.tail wq' = 0%nat) /\
    (ps = [] -> h' = h /\ wq' = wq) /\
    (forall p, p ∈ ps -> finished h' p = true) /\
    (forall p, p ∉ ps -> h' !! p = h !! p) /\
    (forall p, stamp h' p = stamp h p).
Proof.
  intros Hh Hok. destruct ps as [|p ps].
  - exists h, wq. unfold Ring.reset. rewrite (holds_nil_empty wq Hh).
    repeat split; try done; try apply Hh. by intros q ?%elem_of_nil.
  - destruct (ring_reset_nonempty h wq (p :: ps) Hh Hok)
      as (h' & wq' & Hr & Hh' & H0 & H1 & Hsz & Hf & Ho & Hs); [done|].
    exists h', wq'. repeat split; try done; apply Hh'.
Qed.
End RingReset.

Lemma ring_reset_spec_witness :
  exists h' wq',
    Ring.reset three_idle ring_three = Some (h', wq') /\
    holds wq' [] /\ Ring.head wq' = 0%nat /\ finished h' 2 = true.
Proof.
  destruct (ring_reset_spec three_idle ring_three [0; 1; 2]%nat
              ring_three_holds three_idle_ok)
    as (h' & wq' & Hr & Hh & _ & H0 & _ & Hf & _).
  exists h', wq'. split; [exact Hr|]. split; [exact Hh|].
  split; [by apply H0|]. apply Hf. by repeat constructor.
Defined.

(** ** Options and the future's other observers *)

(** The defaults of [NewOptions]; whatever options came before, each of
    the six options, given last, sets its own field to its argument and
    leaves each of the five other fields as the earlier options made
    it. *)
Theorem options_last_wins (opts : list Option) (d : Z) (b : bool) :
  let o := NewOptions opts in
  NewOptions [] = MkOptions DefaultExpiryDuration false 0 false false true /\
  DefaultExpiryDuration = 10000000000 /\
  (let o' := NewOptions (opts ++ [WithExpiryDuration d]) in
   ExpiryDuration o' = d /\
   PreAlloc o' = PreAlloc o /\ MaxBlockingTasks o' = MaxBlockingTasks o /\
   Nonblocking o' = Nonblocking o /\ PanicHandler o' = PanicHandler o /\
   Logger o' = Logger o) /\
  (let o' := NewOptions (opts ++ [WithPreAlloc b]) in
   PreAlloc o' = b /\
   ExpiryDuration o' = ExpiryDuration o /\ MaxBlockingTasks o' = MaxBlockingTasks o /\
   Nonblocking o' = Nonblocking o /\ PanicHandler o' = PanicHandler o /\
   Logger o' = Logger o) /\
  (let o' := NewOptions (opts ++ [WithMaxBlockingTasks d]) in
   MaxBlockingTasks o' = d /\
   ExpiryDuration o' = ExpiryDuration o /\ PreAlloc o' = PreAlloc o /\
   Nonblocking o' = Nonblocking o /\ PanicHandler o' = PanicHandler o /\
   Logger o' = Logger o) /\
  (let o' := NewOptions (opts ++ [WithNonblocking b]) in
   Nonblocking o' = b /\
   ExpiryDuration o' = ExpiryDuration o /\ PreAlloc o' = PreAlloc o /\
   MaxBlockingTasks o' = MaxBlockingTasks o /\ PanicHandler o' = PanicHandler o /\
   Logger o' = Logger o) /\
  (let o' := NewOptions (opts ++ [WithPanicHandler b]) in
   PanicHandler o' = b /\
   ExpiryDuration o' = ExpiryDuration o /\ PreAlloc o' = PreAlloc o /\
   MaxBlockingTasks o' = MaxBlockingTasks o /\ Nonblocking o' = Nonblocking o /\
   Logger o' = Logger o) /\
  (let o' := NewOptions (opts ++ [WithLogger b]) in
   Logger o' = b /\
   ExpiryDuration o' = ExpiryDuration o /\ PreAlloc o' = PreAlloc o /\
   MaxBlockingTasks o' = MaxBlockingTasks o /\ Nonblocking o' = Nonblocking o /\
   PanicHandler o' = PanicHandler o).
Proof.
  unfold NewOptions. rewrite !fold_left_app. simpl. by repeat split.
Qed.

Section FutureObservers.
Context {V E : Type}.
Implicit Types (s : Fut.fstate (V:=V) (E:=E)).

(** Over any schedule on a new future: [IsDone] is true exactly when a
    [setResult] call has happened; [GetWithTimeout] answers ErrTimeout
    with a nil value only when its timer fires, otherwise it returns the
    first stored pair, and it keeps waiting only while nothing is stored
    and the timer has not fired. *)
Theorem future_timed_get (evs : list Fut.fevent) s (fired : bool) :
  Fut.frun Fut.finit evs = Some s ->
  (Fut.IsDone (Fut.cell s) = true <-> Fut.first_set None evs <> None) /\
  match Fut.GetWithTimeout fired (Fut.cell s) with
  | Some (inl r) => fired = true /\ r = (None, Some ErrTimeout)
  | Some (inr p) => fired = false /\ Fut.first_set None evs = Some p
  | None => fired = false /\ Fut.first_set None evs = None
  end.
Proof.
  intros Hrun.
  assert (H0 : Fut.settled (V:=V) (E:=E) None Fut.finit)
    by (split; [done|simpl; constructor]).
  pose proof (settled_run _ _ _ _ H0 Hrun) as Hs.
  destruct (Fut.first_set None evs) as [[r e]|]; simpl in Hs; destruct Hs as [Hc _];
    rewrite Hc; unfold Fut.GetWithTimeout, Fut.IsDone; simpl; destruct fired; done.
Qed.
End FutureObservers.


(** ** A sweep settles the store *)

Section SweepTwice.
Context {A : Type}.
Implicit Types (h : heap A) (ps : list ptr).

Lemma idle_ok_rest h h' gone rest :
  idle_ok h (gone ++ rest) ->
  (forall q, q ∉ gone -> h' !! q = h !! q) ->
  idle_ok h' rest.
Proof.
  intros [Hnd Hal] Ho. apply NoDup_app in Hnd as (_ & Hdis & Hnd').
  apply Forall_app in Hal as [_ Hal]. split; [done|].
  rewrite Forall_forall in Hal |- *. intros q Hq.
  rewrite (alive_stamp_agree h h'); [by apply Hal|].
  apply Ho. intros Hg. by eapply Hdis.
Qed.

(** Stack: the sweep removes as many workers as it reports indices, the
    workers left are still idle, and a second sweep at the same instant
    finds nothing to remove and changes nothing. *)
Theorem stack_sweep_settles h now duration (wq : Stack.workerStack) :
  idle_ok h (Stack.items wq) ->
  exists h' wq' ix,
    Stack.refresh h now duration wq = Some (h', wq', ix) /\
    (length ix + Stack.len wq' = Stack.len wq)%nat /\
    idle_ok h' (Stack.items wq') /\
    Stack.refresh h' now duration wq' = Some (h', wq', []).
Proof.
  intros Hok.
  destruct (stack_refresh_prefix h now duration wq Hok)
    as (h' & gone & rest & Hr & Hits & Hgone & Hrest & Hfin & Hoth & Hst).
  rewrite Hits in Hok.
  pose proof (idle_ok_rest h h' gone rest Hok Hoth) as Hok'.
  exists h', (Stack.WorkerStack rest (Stack.size wq)), (Z.of_nat <$> seq 0 (length gone)).
  split; [done|]. split.
  { unfold Stack.len. rewrite Hits, length_fmap, length_seq, length_app. simpl. lia. }
  split; [done|].
  unfold Stack.refresh. simpl.
  destruct rest as [|p rest]; [done|]. simpl.
  destruct Hok' as [_ Hal]. apply Forall_cons in Hal as [Hp _].
  rewrite (alive_stamp _ _ Hp). simpl. unfold Before, Add.
  specialize (Hrest p eq_refl).
  assert (Hl : lastUsedOf h' p = lastUsedOf h p) by (unfold lastUsedOf; by rewrite Hst).
  rewrite Hl.
  replace (lastUsedOf h p <? now + - duration) with false
    by (symmetry; apply Z.ltb_ge; lia).
  done.
Qed.

(** Ring: the sweep removes as many workers as it reports indices, the
    workers left are still idle and held in order, and a second sweep at
    the same instant finds nothing to remove and changes nothing. *)
Theorem ring_sweep_settles h now duration wq ps :
  holds wq ps -> idle_ok h ps ->
  exists h' wq' ix rest,
    Ring.refresh h now duration wq = Some (h', wq', ix) /\
    holds wq' rest /\
    (length ix + length rest = length ps)%nat /\
    idle_ok h' rest /\
    Ring.refresh h' now duration wq' = Some (h', wq', []).
Proof.
  intros Hh Hok.
  destruct (ring_refresh_prefix h now duration wq ps Hh Hok)
    as (h' & wq' & gone & rest & ix & Hr & -> & Hh' & Hlen & Hgone & Hrest
        & Hfin & Hoth & Hst).
  pose proof (idle_ok_rest h h' gone rest Hok Hoth) as Hok'.
  exists h', wq', ix, rest.
  split; [done|]. split; [done|]. split; [rewrite length_app; lia|]. split; [done|].
  unfold Ring.refresh.
  destruct rest as [|p rest].
  { by rewrite (holds_nil_empty wq' Hh'). }
  rewrite (holds_cons_nonempty wq' p rest Hh'). simpl.
  rewrite (holds_cons_nonempty wq' p rest Hh').
  destruct Hh' as [Hrok Hl]. rewrite fmap_cons in Hl.
  destruct (ring_pop wq' _ _ Hrok Hl) as (Hhd & _ & _). rewrite Hhd.
  destruct Hok' as [_ Hal]. apply Forall_cons in Hal as [Hp _].
  rewrite (alive_stamp _ _ Hp). unfold After, Add.
  specialize (Hrest p eq_refl).
  assert (Hlu : lastUsedOf h' p = lastUsedOf h p) by (unfold lastUsedOf; by rewrite Hst).
  rewrite Hlu.
  replace (now + - duration <? lastUsedOf h p) with true
    by (symmetry; apply Z.ltb_lt; lia).
  done.
Qed.
End SweepTwice.

(** ** Submissions and workers, one call at a time *)

Ltac world_red :=
  cbn [crashed clients pool locked objects routines notify chans sweepers clock logged
       set_clients set_locked on_pool set_objects set_routines set_notify set_chans
       set_sweepers set_clock add_log crash
       capacity running state workers options waiting stopCleaning cleaningDone
       set_running set_state set_workers set_waiting set_stopCleaning set_cleaningDone
       add_running add_waiting].

Ltac last_client_step :=
  erewrite run_cons_Some;
  [| unfold step, step_client, IsClosed; world_red;
     rewrite ?lookup_last; cbn [mbind option_bind]; world_red;
     repeat match goal with
            | H : _ = _ |- _ => rewrite H
            end;
     rewrite ?insert_last; reflexivity ].

Section Saturation.
Context {A : Type} (exec : A -> outcome).
Implicit Types (s : World (A:=A)).

Lemma saturated_branch s q' :
  saturated s q' ->
  (capacity (pool s) =? -1) || (running (pool s) <? capacity (pool s)) = false.
Proof.
  intros (_ & _ & _ & _ & Hne & Hle). apply orb_false_iff. split.
  - by apply Z.eqb_neq.
  - apply Z.ltb_ge. lia.
Qed.

(** Non-blocking mode, saturated pool: the submission is answered
    ErrPoolOverload without waiting; it takes and frees the lock and
    changes nothing else -- no worker is created, nothing is enqueued,
    [running] and [waiting] keep their values. *)
Theorem nonblocking_submit_overload s q' (t : option A) :
  saturated s q' ->
  Nonblocking (options (pool s)) = true ->
  run exec s (Call (Submit t) :: replicate 6 (Client (length (clients s))))
  = Some (set_clients
            (clients s ++ [(Submit t, SubmitReturned (Some ErrPoolOverload))])
            (set_locked false (on_pool (set_workers q') s))).
Proof.
  intros Hsat Hnb. pose proof (saturated_branch s q' Hsat) as Hb.
  destruct Hsat as (Hc & Hopen & Hl & Hd & _ & _). unfold IsClosed in Hopen.
  erewrite run_cons_Some; [|unfold step; rewrite Hc; reflexivity].
  cbn [replicate entry].
  do 6 last_client_step. reflexivity.
Qed.

(** Blocking mode, saturated pool: the submission counts itself in
    [waiting], joins the condition variable's queue behind the earlier
    waiters, frees the lock and sleeps: it cannot take another step until
    it is signalled. *)
Theorem blocking_submit_parks s q' (t : option A) :
  saturated s q' ->
  Nonblocking (options (pool s)) = false ->
  let i := length (clients s) in
  exists s',
    run exec s (Call (Submit t) :: replicate 8 (Client i)) = Some s' /\
    clients s' = clients s ++ [(Submit t, GwParked)] /\
    notify s' = notify s ++ [i] /\
    Waiting s' = wrap32 (Waiting s + 1) /\
    locked s' = false /\
    Running s' = Running s /\ objects s' = objects s /\
    step exec s' (Client i) = None.
Proof.
  intros Hsat Hnb i. subst i. pose proof (saturated_branch s q' Hsat) as Hb.
  destruct Hsat as (Hc & Hopen & Hl & Hd & _ & _). unfold IsClosed in Hopen.
  eexists. split.
  - erewrite run_cons_Some; [|unfold step; rewrite Hc; reflexivity].
    cbn [replicate entry].
    do 8 last_client_step. reflexivity.
  - world_red. repeat split; try done.
    unfold step, step_client. world_red. rewrite Hc, lookup_last.
    cbn [mbind option_bind]. world_red.
    rewrite bool_decide_eq_true_2; [done|].
    apply elem_of_app. right. by apply list_elem_of_singleton.
Qed.
End Saturation.

(** ** The worker goroutine after its task *)

Section WorkerAfterTask.
Context {A : Type} (exec : A -> outcome).
Implicit Types (s : World (A:=A)) (w : ptr).

Ltac worker_first Hc Hr Ho :=
  erewrite run_cons_Some;
  [| unfold step, step_worker, IsClosed; world_red; rewrite Hc, Hr, Ho;
     cbn [mbind option_bind];
     repeat match goal with
            | H : _ = _ |- _ => rewrite H
            end;
     reflexivity ].

Ltac worker_next Hc Ho :=
  erewrite run_cons_Some;
  [| unfold step, step_worker, IsClosed, Signal; world_red; rewrite Hc;
     rewrite ?list_lookup_insert_eq by (rewrite ?length_insert; assumption);
     rewrite ?Ho;
     cbn [mbind option_bind]; world_red;
     repeat match goal with
            | H : _ = _ |- _ => rewrite H
            end;
     reflexivity ].

(** A task that panics: the deferred function of the goroutine
    decrements [running], hands the panic to the handler, or else writes
    one log line if there is a logger, signals the condition variable,
    and the goroutine is gone.  The worker is not put back into the idle
    store and its object is left as it was. *)
Theorem task_panic_exits s w (a : A) o :
  crashed s = false ->
  routines s !! w = Some (WExec a) -> objects s !! w = Some o ->
  exec a = Panics ->
  exists s',
    run exec s (replicate 3 (Worker w)) = Some s' /\
    routines s' = <[w := WDone]> (routines s) /\
    step exec s' (Worker w) = None /\
    Running s' = wrap32 (Running s - 1) /\
    workers (pool s') = workers (pool s) /\
    objects s' = objects s /\
    notify s' = tail (notify s) /\
    logged s' = logged s ++ (if PanicHandler (options (pool s)) then []
                             else if Logger (options (pool s)) then [LogPanic]
                             else []) /\
    locked s' = locked s /\ crashed s' = false.
Proof.
  intros Hc Hr Ho Hx.
  assert (Hw : (w < length (routines s))%nat) by (by eapply lookup_lt_Some).
  eexists. split.
  - cbn [replicate].
    worker_first Hc Hr Ho. worker_next Hc Ho. worker_next Hc Ho. reflexivity.
  - unfold Running. destruct (PanicHandler (options (pool s)));
      [|destruct (Logger (options (pool s)))]; world_red; unfold Signal; world_red;
      rewrite ?app_nil_r, ?list_insert_insert_eq; repeat split; try done;
      unfold step, step_worker; world_red; rewrite Hc;
      rewrite list_lookup_insert_eq by (by rewrite ?length_insert); by rewrite Ho.
Qed.

(** A task that returns on an open pool whose store accepts the worker:
    [putWorker] stamps [lastUsed] with the current time, pushes the worker
    into the idle store under the lock, wakes the oldest waiter only if
    [waiting] is positive, and the goroutine is back at its inbox.
    [running] is unchanged. *)
Theorem task_return_recycles s w (a : A) o q' :
  crashed s = false -> IsClosed s = false -> locked s = false ->
  routines s !! w = Some (WExec a) -> objects s !! w = Some o ->
  exec a = Returns ->
  q_insert (workers (pool s)) w = Some (None, q') ->
  exists s',
    run exec s (replicate 6 (Worker w)) = Some s' /\
    routines s' = <[w := WRecv]> (routines s) /\
    workers (pool s') = q' /\
    objects s' = <[w := GoWorker (inbox o) (inboxClosed o) (clock s) (recycled o)]>
                   (objects s) /\
    notify s' = (if 0 <? Waiting s then tail (notify s) else notify s) /\
    Running s' = Running s /\ Waiting s' = Waiting s /\
    locked s' = false /\ crashed s' = false.
Proof.
  intros Hc Hopen Hl Hr Ho Hx Hq. unfold IsClosed in Hopen.
  assert (Hw : (w < length (routines s))%nat) by (by eapply lookup_lt_Some).
  assert (Hw' : (w < length (objects s))%nat) by (by eapply lookup_lt_Some).
  eexists. split.
  - cbn [replicate].
    worker_first Hc Hr Ho. worker_next Hc Ho. worker_next Hc Ho.
    worker_next Hc Ho.
    worker_next Hc Ho.
    worker_next Hc Ho.
    reflexivity.
  - unfold Running, Waiting. world_red.
    destruct (0 <? waiting (pool s)); unfold Signal; world_red;
      rewrite !list_insert_insert_eq; by repeat split.
Qed.

(** A task that returns after the pool was closed: [putWorker] refuses
    the worker before touching it, and the goroutine leaves through its
    deferred function -- [running] one less, a signal, no log line. *)
Theorem put_on_closed_pool s w (a : A) o :
  crashed s = false -> IsClosed s = true ->
  routines s !! w = Some (WExec a) -> objects s !! w = Some o ->
  exec a = Returns ->
  exists s',
    run exec s (replicate 4 (Worker w)) = Some s' /\
    routines s' = <[w := WDone]> (routines s) /\
    pool s' = add_running (-1) (pool s) /\
    objects s' = objects s /\
    notify s' = tail (notify s) /\
    logged s' = logged s /\ locked s' = locked s.
Proof.
  intros Hc Hclosed Hr Ho Hx. unfold IsClosed in Hclosed.
  assert (Hw : (w < length (routines s))%nat) by (by eapply lookup_lt_Some).
  eexists. split.
  - cbn [replicate].
    worker_first Hc Hr Ho. worker_next Hc Ho. worker_next Hc Ho. worker_next Hc Ho.
    reflexivity.
  - unfold Signal. world_red. rewrite !list_insert_insert_eq. by repeat split.
Qed.

(** A task that returns while the ring is full (submitters racing through
    the capacity check can create more workers than the ring has slots):
    [insert] answers ErrPoolOverload, [putWorker] frees the lock and
    refuses, and the goroutine leaves -- the worker was stamped but is
    not idle, the ring is unchanged, [running] is one less. *)
Theorem put_on_full_ring s w (a : A) o wq :
  crashed s = false -> IsClosed s = false -> locked s = false ->
  routines s !! w = Some (WExec a) -> objects s !! w = Some o ->
  exec a = Returns ->
  workers (pool s) = QRing wq -> Ring.isFull wq = true ->
  exists s',
    run exec s (replicate 7 (Worker w)) = Some s' /\
    routines s' = <[w := WDone]> (routines s) /\
    pool s' = add_running (-1) (pool s) /\
    stamp (objects s') w = Some (clock s) /\
    notify s' = tail (notify s) /\
    logged s' = logged s /\ locked s' = false.
Proof.
  intros Hc Hopen Hl Hr Ho Hx Hq Hfull. unfold IsClosed in Hopen.
  assert (Hw : (w < length (routines s))%nat) by (by eapply lookup_lt_Some).
  assert (Hw' : (w < length (objects s))%nat) by (by eapply lookup_lt_Some).
  assert (Hi : q_insert (workers (pool s)) w = Some (Some ErrPoolOverload, QRing wq)).
  { rewrite Hq. unfold q_insert, Ring.insert. by rewrite Hfull. }
  eexists. split.
  - cbn [replicate].
    worker_first Hc Hr Ho. worker_next Hc Ho. worker_next Hc Ho.
    worker_next Hc Ho.
    worker_next Hc Ho.
    worker_next Hc Ho.
    worker_next Hc Ho.
    reflexivity.
  - unfold Signal, stamp. world_red.
    rewrite !list_insert_insert_eq, list_lookup_insert_eq by done.
    repeat split; try done. unfold add_running, set_running. simpl. by rewrite <- Hq.
Qed.
End WorkerAfterTask.

(** ** Reboot *)

Section RebootFacts.
Context {A : Type} (exec : A -> outcome).
Implicit Types (s : World (A:=A)).

(** [Reboot] run to its return.  On a closed pool it reopens the pool,
    makes two fresh open channels for [stopCleaning] and [cleaningDone],
    and starts a new sweeper goroutine; counters, idle store and workers
    are left as they were.  On a pool that is not closed it does
    nothing. *)
Theorem reboot_reopens s :
  crashed s = false ->
  let i := length (clients s) in
  let n := length (chans s) in
  (state (pool s) = CLOSED ->
   exists s',
     run exec s (Call Reboot :: replicate 4 (Client i)) = Some s' /\
     clients s' = clients s ++ [(Reboot, RebootReturned)] /\
     state (pool s') = OPENED /\
     chans s' = chans s ++ [false; false] /\
     stopCleaning (pool s') = n /\ cleaningDone (pool s') = S n /\
     sweepers s' = sweepers s ++ [(CNewTicker, 0)] /\
     workers (pool s') = workers (pool s) /\
     Running s' = Running s /\ Waiting s' = Waiting s /\
     objects s' = objects s /\ routines s' = routines s /\
     notify s' = notify s /\ locked s' = locked s) /\
  (state (pool s) <> CLOSED ->
   run exec s [Call Reboot; Client i]
   = Some (set_clients (clients s ++ [(Reboot, RebootReturned)]) s)).
Proof.
  intros Hc i n. subst i n. split; intros Hst.
  - eexists. split.
    + erewrite run_cons_Some; [|unfold step; rewrite Hc; reflexivity].
      cbn [replicate entry].
      last_client_step. last_client_step.
      erewrite run_cons_Some;
        [| unfold step, step_client; world_red; rewrite Hc, lookup_last;
           cbn [mbind option_bind]; world_red; rewrite insert_last; reflexivity ].
      last_client_step.
      reflexivity.
    + unfold Running, Waiting. world_red.
      rewrite length_app, <- app_assoc. cbn [length app].
      replace (length (chans s) + 1)%nat with (S (length (chans s))) by lia.
      by repeat split.
  - apply Z.eqb_neq in Hst.
    erewrite run_cons_Some; [|unfold step; rewrite Hc; reflexivity].
    cbn [entry].
    last_client_step. reflexivity.
Qed.
End RebootFacts.

(** ** One sweep, one shutdown *)

Section SweepAndRelease.
Context {A : Type} (exec : A -> outcome).
Implicit Types (s : World (A:=A)).

Ltac sweeper_first Hc Hk :=
  erewrite run_cons_Some;
  [| unfold step, step_sweeper, IsClosed; world_red; rewrite Hc, Hk;
     cbn [mbind option_bind];
     repeat match goal with
            | H : _ = _ |- _ => rewrite H
            end;
     reflexivity ].

Ltac sweeper_next Hc :=
  erewrite run_cons_Some;
  [| unfold step, step_sweeper, IsClosed; world_red; rewrite Hc;
     rewrite ?list_lookup_insert_eq by (rewrite ?length_insert; assumption);
     cbn [mbind option_bind]; world_red;
     repeat match goal with
            | H : _ = _ |- _ => rewrite H
            end;
     reflexivity ].

(** One tick of the sweeper on an open pool, from the receive on
    [ticker.C] back to the [select]: [refresh] runs under the lock; one
    log line per index is written if there is a logger; [running] goes
    down by the number of indices; nobody is signalled. *)
Theorem sweep_tick s (k : nat) (due : Z) h' q' ix :
  crashed s = false -> IsClosed s = false -> locked s = false ->
  sweepers s !! k = Some (CSelect, due) -> due <= clock s ->
  q_refresh (objects s) (clock s) (ExpiryDuration (options (pool s)))
            (workers (pool s)) = Some (h', q', ix) ->
  let n := wrap32 (Z.of_nat (length ix)) in
  exists s',
    run exec s (replicate 6 (Sweeper k)) = Some s' /\
    sweepers s'
      = <[k := (CSelect, next_due due (ExpiryDuration (options (pool s))) (clock s))]>
          (sweepers s) /\
    objects s' = h' /\ workers (pool s') = q' /\
    Running s' = (if 0 <? n then wrap32 (Running s - n) else Running s) /\
    logged s' = logged s ++ (if Nat.ltb 0 (length ix) && Logger (options (pool s))
                             then LogExpired <$> ix else []) /\
    notify s' = notify s /\ Waiting s' = Waiting s /\
    locked s' = false /\ crashed s' = false.
Proof.
  intros Hc Hopen Hl Hk Hdue Hq n. subst n. unfold IsClosed in Hopen.
  assert (Hlt : (k < length (sweepers s))%nat) by (by eapply lookup_lt_Some).
  apply Z.leb_le in Hdue. unfold Running, Waiting.
  destruct (Nat.ltb 0 (length ix) && Logger (options (pool s))) eqn:Hlog;
    destruct (0 <? wrap32 (Z.of_nat (length ix))) eqn:Hn;
    (eexists; split;
     [ cbn [replicate];
       sweeper_first Hc Hk; do 5 sweeper_next Hc; reflexivity
     | world_red; rewrite ?app_nil_r, !list_insert_insert_eq;
       repeat split; try done; f_equal; lia ]).
Qed.

(** [Release] on an open pool, run to its return while the sweeper
    stops: the state is closed, both channels are closed, the sweeper
    goroutine is gone, the idle store has been reset under the lock, and
    every waiter has been woken.  [running] is left to the workers. *)
Theorem release_run s (k : nat) (due : Z) h' q' :
  crashed s = false -> state (pool s) = OPENED -> locked s = false ->
  chans s !! stopCleaning (pool s) = Some false ->
  chans s !! cleaningDone (pool s) = Some false ->
  stopCleaning (pool s) <> cleaningDone (pool s) ->
  sweepers s !! k = Some (CSelect, due) ->
  q_reset (objects s) (workers (pool s)) = Some (h', q') ->
  let i := length (clients s) in
  exists s',
    run exec s (Call Release :: replicate 3 (Client i)
                  ++ [SweeperStop k; Sweeper k] ++ replicate 4 (Client i)) = Some s' /\
    clients s' = clients s ++ [(Release, ReleaseReturned)] /\
    IsClosed s' = true /\
    chans s' = <[cleaningDone (pool s) := true]>
                 (<[stopCleaning (pool s) := true]> (chans s)) /\
    sweepers s' = <[k := (CDone, due)]> (sweepers s) /\
    objects s' = h' /\ workers (pool s') = q' /\
    notify s' = [] /\ Running s' = Running s /\
    locked s' = false /\ crashed s' = false.
Proof.
  intros Hc Hst Hl Hstop Hdone Hne Hk Hq i. subst i.
  assert (Hlt : (k < length (sweepers s))%nat) by (by eapply lookup_lt_Some).
  assert (Hls : (stopCleaning (pool s) < length (chans s))%nat)
    by (by eapply lookup_lt_Some).
  assert (Hld : (cleaningDone (pool s) < length (chans s))%nat)
    by (by eapply lookup_lt_Some).
  eexists. split.
  - erewrite run_cons_Some; [|unfold step; rewrite Hc; reflexivity].
    cbn [replicate entry app].
    (* compare-and-swap *)
    erewrite run_cons_Some;
      [| unfold step, step_client; world_red; rewrite Hc, lookup_last;
         cbn [mbind option_bind]; rewrite Hst; cbn [Z.eqb OPENED];
         world_red; rewrite insert_last; reflexivity ].
    (* close(p.stopCleaning) *)
    erewrite run_cons_Some;
      [| unfold step, step_client, close_chan; world_red; rewrite Hc, lookup_last;
         cbn [mbind option_bind]; world_red; rewrite Hstop;
         world_red; rewrite insert_last; reflexivity ].
    (* evaluate p.cleaningDone *)
    erewrite run_cons_Some;
      [| unfold step, step_client; world_red; rewrite Hc, lookup_last;
         cbn [mbind option_bind]; world_red; rewrite insert_last; reflexivity ].
    (* the sweeper sees stopCleaning closed *)
    erewrite run_cons_Some;
      [| unfold step, step_sweeper, is_closed_chan; world_red; rewrite Hc, Hk;
         cbn [mbind option_bind]; world_red;
         rewrite list_lookup_insert_eq by done; reflexivity ].
    (* its deferred function closes cleaningDone *)
    erewrite run_cons_Some;
      [| unfold step, step_sweeper, close_chan; world_red; rewrite Hc;
         rewrite list_lookup_insert_eq by done;
         cbn [mbind option_bind]; world_red;
         rewrite list_lookup_insert_ne by done; rewrite Hdone;
         world_red; rewrite list_insert_insert_eq; reflexivity ].
    (* <-p.cleaningDone *)
    erewrite run_cons_Some;
      [| unfold step, step_client, is_closed_chan; world_red; rewrite Hc, lookup_last;
         cbn [mbind option_bind]; world_red;
         rewrite list_lookup_insert_eq by (by rewrite length_insert);
         world_red; rewrite insert_last; reflexivity ].
    (* lock *)
    erewrite run_cons_Some;
      [| unfold step, step_client; world_red; rewrite Hc, lookup_last;
         cbn [mbind option_bind]; world_red; rewrite Hl;
         world_red; rewrite insert_last; reflexivity ].
    (* reset, unlock *)
    erewrite run_cons_Some;
      [| unfold step, step_client; world_red; rewrite Hc, lookup_last;
         cbn [mbind option_bind]; world_red; rewrite Hq;
         world_red; rewrite insert_last; reflexivity ].
    (* broadcast *)
    erewrite run_cons_Some;
      [| unfold step, step_client, Broadcast; world_red; rewrite Hc, lookup_last;
         cbn [mbind option_bind]; world_red; rewrite insert_last; reflexivity ].
    reflexivity.
  - unfold Running, IsClosed. world_red. by repeat split.
Qed.
End SweepAndRelease.

Lemma sweep_tick_witness :
  exists s1,
    run id pool_one (one_task_done ++ [Tick (2 * second)]) = Some s1 /\
    exists s',
      run id s1 (replicate 6 (Sweeper 0%nat)) = Some s' /\
      Running s' = 0 /\ logged s' = [LogExpired 0] /\ Free s' = 0%nat.
Proof.
  eexists. split; [vm_compute; reflexivity|].
  match goal with
  | |- exists s', run id ?s1 _ = Some _ /\ _ =>
      destruct (sweep_tick id s1 0%nat second
                  [GoWorker [] true 0 1] (QStack (Stack.WorkerStack [] 0)) [0])
        as (s' & Hrun & _ & _ & Hw & Hr & Hlog & _);
        [reflexivity|reflexivity|reflexivity|reflexivity|vm_compute; discriminate
        |vm_compute; reflexivity|]
  end.
  exists s'. split; [exact Hrun|]. split; [exact Hr|]. split; [exact Hlog|].
  unfold Free. rewrite Hw. reflexivity.
Defined.

Lemma release_run_witness :
  exists s1,
    run id pool_one one_task_done = Some s1 /\
    exists s',
      run id s1 (Call Release :: replicate 3 (Client 1%nat)
                   ++ [SweeperStop 0%nat; Sweeper 0%nat] ++ replicate 4 (Client 1%nat))
      = Some s' /\
      IsClosed s' = true /\ chans s' = [true; true] /\
      finished (objects s') 0 = true /\ Free s' = 0%nat /\ Running s' = 1.
Proof.
  eexists. split; [vm_compute; reflexivity|].
  match goal with
  | |- exists s', run id ?s1 _ = Some _ /\ _ =>
      destruct (release_run id s1 0%nat second
                  [GoWorker [] true 0 1] (QStack (Stack.WorkerStack [] 0)))
        as (s' & Hrun & _ & Hcl & Hch & _ & Ho & Hw & _ & Hr & _);
        [reflexivity|reflexivity|reflexivity|reflexivity|reflexivity|discriminate
        |reflexivity|vm_compute; reflexivity|]
  end.
  exists s'. split; [exact Hrun|]. split; [exact Hcl|]. split; [exact Hch|].
  split; [by rewrite Ho|]. split; [|exact Hr].
  unfold Free. rewrite Hw. reflexivity.
Defined.

(** ** What the clean-up of the idle store does to the workers *)

Section CleanUp.
Context {A : Type}.
Implicit Types (h : heap A) (p : ptr) (ps : list ptr).

Lemma closes_only_refl h : closes_only h h.
Proof. apply Forall2_same_length_lookup. split; [done|]. intros i x y ? ?. left. congruence. Qed.

Lemma closed_from_trans (o1 o2 o3 : goWorker A) :
  closed_from o1 o2 -> closed_from o2 o3 -> closed_from o1 o3.
Proof.
  intros [->|[H1 ->]] [->|[H2 ->]]; [by left|right; done|right; done|done].
Qed.

Lemma closes_only_trans h1 h2 h3 :
  closes_only h1 h2 -> closes_only h2 h3 -> closes_only h1 h3.
Proof.
  unfold closes_only. intros H12 H23.
  revert h3 H23. induction H12 as [|o1 o2 l1 l2 Ho _ IH]; intros h3 H23.
  - by inversion H23.
  - inversion H23 as [|? o3 ? l3 Ho' Hl]; subst. constructor.
    + by eapply closed_from_trans.
    + by apply IH.
Qed.

Lemma finish_closes h p h' : finish h p = Some h' -> closes_only h h'.
Proof.
  unfold finish. destruct (h !! p) as [w|] eqn:Hw; [|done]. simpl.
  destruct (inboxClosed w) eqn:Hc; [done|]. intros [= <-].
  rewrite <- (list_insert_id h p w) at 1 by done.
  apply Forall2_insert; [apply closes_only_refl|]. right. done.
Qed.

Lemma finish_all_closes ps : forall h h',
  finish_all h ps = Some h' -> closes_only h h'.
Proof.
  induction ps as [|p ps IH]; intros h h' H; simpl in H.
  - simplify_eq. apply closes_only_refl.
  - destruct (finish h p) as [h1|] eqn:Hf; [|done]. simpl in H.
    eapply closes_only_trans; [by eapply finish_closes|by apply IH].
Qed.

Lemma clear_range_closes : forall count from h its h' its',
  Ring.clear_range h its from count = Some (h', its') -> closes_only h h'.
Proof.
  induction count as [|count IH]; intros from h its h' its' H; simpl in H.
  - simplify_eq. apply closes_only_refl.
  - destruct (its !! from) as [slot|]; [|done]. simpl in H.
    destruct slot as [p|].
    + destruct (finish h p) as [h1|] eqn:Hf; [|done]. simpl in H.
      eapply closes_only_trans; [by eapply finish_closes|by eapply IH].
    + simpl in H. by eapply IH.
Qed.

Lemma q_refresh_closes h now d q h' q' ix :
  q_refresh h now d q = Some (h', q', ix) -> closes_only h h'.
Proof.
  destruct q as [wq|wq]; simpl.
  - unfold Stack.refresh. intros H.
    destruct (Nat.eqb _ 0); [simpl in H; simplify_eq; apply closes_only_refl|].
    destruct (Stack.scan h _ _ _) as [index|]; [|done]. simpl in H.
    destruct (Nat.ltb 0 index); [|simpl in H; simplify_eq; apply closes_only_refl].
    destruct (finish_all h _) as [h1|] eqn:Hf; [|done]. simpl in H. simplify_eq.
    by eapply finish_all_closes.
  - unfold Ring.refresh. intros H.
    destruct (Ring.isEmpty wq); [simpl in H; simplify_eq; apply closes_only_refl|].
    destruct (Ring.refresh_loop _ _ _ _ _ _) as [wq1 ix1 ex| |]; [|done|done].
    destruct (finish_all h ex) as [h1|] eqn:Hf; [|done]. simpl in H. simplify_eq.
    by eapply finish_all_closes.
Qed.

Lemma q_reset_closes h q h' q' :
  q_reset h q = Some (h', q') -> closes_only h h'.
Proof.
  destruct q as [wq|wq]; simpl.
  - unfold Stack.reset. intros H.
    destruct (finish_all _ _) as [h1|] eqn:Hf; [|done]. simpl in H. simplify_eq.
    by eapply finish_all_closes.
  - unfold Ring.reset. intros H.
    destruct (Ring.isEmpty wq); [simpl in H; simplify_eq; apply closes_only_refl|].
    destruct (Nat.ltb _ _).
    + destruct (Ring.clear_range _ _ _ _) as [[h1 its1]|] eqn:Hc; [|done].
      simpl in H. simplify_eq. by eapply clear_range_closes.
    + destruct (Ring.clear_range _ _ _ _) as [[h1 its1]|] eqn:Hc; [|done].
      simpl in H.
      destruct (Ring.clear_range h1 _ _ _) as [[h2 its2]|] eqn:Hc2; [|done].
      simpl in H. simplify_eq.
      eapply closes_only_trans; by eapply clear_range_closes.
Qed.

(** Whatever the idle store contains, an expiry sweep or a reset that
    returns has only closed inboxes: no worker object is added or
    removed, no time stamp and no queued task is changed, no closed
    inbox is reopened, and every worker it closed is marked recycled. *)
Theorem cleanup_closes_only h (now d : Z) (q : workerQueue) h' :
  (exists q' ix, q_refresh h now d q = Some (h', q', ix)) \/
  (exists q', q_reset h q = Some (h', q')) ->
  length h' = length h /\
  forall p o, h !! p = Some o ->
    exists o', h' !! p = Some o' /\
               lastUsed o' = lastUsed o /\ inbox o' = inbox o /\
               (inboxClosed o = true -> o' = o) /\
               (o' <> o -> isRecycled o' = true /\ inboxClosed o' = true).
Proof.
  intros Hrun.
  assert (Hc : closes_only h h').
  { destruct Hrun as [(q' & ix & H)|(q' & H)];
      [by eapply q_refresh_closes|by eapply q_reset_closes]. }
  split; [symmetry; by eapply Forall2_length|].
  intros p o Hp.
  destruct (Forall2_lookup_l _ _ _ _ _ Hc Hp) as (o' & Hp' & Hrel).
  exists o'. split; [done|].
  destruct Hrel as [->|[Hopen ->]]; simpl; repeat split; try done.
  intros Hcl. congruence.
Qed.
End CleanUp.

(** ** Invariants of every schedule *)

Section Invariants.
Context {A : Type} (exec : A -> outcome).
Implicit Types (s : World (A:=A)) (ev : event A).

Lemma run_invariant (P : World (A:=A) -> Prop) :
  (forall s ev s', P s -> step exec s ev = Some s' -> P s') ->
  forall evs s s', P s -> run exec s evs = Some s' -> P s'.
Proof.
  intros Hstep. induction evs as [|ev evs IH]; intros s s' HP Hrun; simpl in Hrun.
  - by simplify_eq.
  - destruct (step exec s ev) as [s1|] eqn:Hs; [|done]. simpl in Hrun.
    eapply IH; [|done]. by eapply Hstep.
Qed.

Lemma close_chan_rest c s s' :
  close_chan c s = Some s' ->
  pool s' = pool s /\ locked s' = locked s /\ notify s' = notify s /\
  objects s' = objects s /\ routines s' = routines s /\
  clients s' = clients s /\ sweepers s' = sweepers s /\ clock s' = clock s /\
  crashed s' = crashed s /\ logged s' = logged s.
Proof. unfold close_chan. intros. repeat case_match; simplify_eq; done. Qed.

(** *** Configuration, clock and heap *)

Lemma config_step s ev s' :
  step exec s ev = Some s' -> unchanged_config s s'.
Proof.
  unfold unchanged_config, step. intros H.
  destruct (crashed s); [done|]. destruct ev as [dt|c|i|w|k|k].
  - case_match; simplify_eq. simpl. repeat split; try done.
    match goal with H : (0 <? _) = true |- _ => apply Z.ltb_lt in H end. lia.
  - simplify_eq. simpl. repeat split; try done; lia.
  - unfold step_client in H.
    destruct (clients s !! i) as [[c pc]|] eqn:Hi; [|done]. simpl in H.
    destruct c; destruct pc; try done; repeat case_match; simplify_eq;
      try match goal with H : close_chan _ _ = Some _ |- _ =>
        apply close_chan_rest in H as (Hp & _ & _ & Ho & _ & _ & _ & Hk & _) end;
      simpl; rewrite ?Hp, ?Ho, ?Hk, ?length_app, ?length_insert;
      try (repeat split; try done; lia);
      match goal with H : q_reset _ _ = Some _ |- _ =>
        apply q_reset_closes, Forall2_length in H; repeat split; try done; lia end.
  - unfold step_worker in H.
    destruct (routines s !! w) as [pc|]; [|done].
    destruct (objects s !! w) as [o|]; [|done]. simpl in H.
    destruct pc; try done; repeat case_match; simplify_eq; simpl;
      rewrite ?length_insert; repeat split; try done; lia.
  - unfold step_sweeper in H.
    destruct (sweepers s !! k) as [[pc due]|]; [|done]. simpl in H.
    destruct pc; try done; repeat case_match; simplify_eq;
      try match goal with H : close_chan _ _ = Some _ |- _ =>
        apply close_chan_rest in H as (Hp & _ & _ & Ho & _ & _ & _ & Hk & _) end;
      simpl; rewrite ?Hp, ?Ho, ?Hk;
      try (repeat split; try done; lia);
      match goal with H : q_refresh _ _ _ _ = Some _ |- _ =>
        apply q_refresh_closes, Forall2_length in H; repeat split; try done; lia end.
  - unfold step_sweeper in H.
    destruct (sweepers s !! k) as [[pc due]|]; [|done]. simpl in H.
    destruct pc; try done; repeat case_match; simplify_eq;
      simpl; repeat split; try done; lia.
Qed.

Lemma config_run evs : forall s s',
  run exec s evs = Some s' -> unchanged_config s s'.
Proof.
  induction evs as [|ev evs IH]; intros s s' Hrun; simpl in Hrun.
  - simplify_eq. unfold unchanged_config. repeat split; try done; lia.
  - destruct (step exec s ev) as [s1|] eqn:Hs; [|done]. simpl in Hrun.
    apply config_step in Hs as (H1 & H2 & H3 & H4).
    apply IH in Hrun as (H1' & H2' & H3' & H4').
    unfold unchanged_config. rewrite H1', H2'. repeat split; try done; lia.
Qed.

(** *** Worker objects *)

Lemma heap_ok_closes s h' :
  heap_ok s -> closes_only (objects s) h' ->
  length (routines s) = length h' /\
  Forall (fun o => lastUsed o <= clock s /\ isRecycled o = inboxClosed o) h'.
Proof.
  intros [Hlen Hall] Hc. split; [by rewrite Hlen; eapply Forall2_length|].
  rewrite Forall_forall in Hall |- *. intros o' Ho'.
  apply list_elem_of_lookup in Ho' as [p Hp].
  destruct (Forall2_lookup_r _ _ _ _ _ Hc Hp) as (o & Hpo & Hrel).
  assert (Ho : o ∈ objects s) by (by eapply list_elem_of_lookup_2).
  destruct (Hall o Ho) as [Ht Hr].
  destruct Hrel as [-> | [Hopen ->]]; [done|]. simpl. done.
Qed.

Lemma heap_ok_step s ev s' :
  heap_ok s -> step exec s ev = Some s' -> heap_ok s'.
Proof.
  unfold step. intros Hok H.
  destruct (crashed s); [done|]. destruct ev as [dt|c|i|w|k|k].
  - case_match; simplify_eq. destruct Hok as [Hlen Hall]. split; [done|]. simpl.
    match goal with H : (0 <? _) = true |- _ => apply Z.ltb_lt in H end.
    rewrite Forall_forall in Hall |- *. intros o Ho. destruct (Hall o Ho). split; [lia|done].
  - simplify_eq. exact Hok.
  - unfold step_client in H.
    destruct (clients s !! i) as [[c pc]|] eqn:Hi; [|done]. simpl in H.
    pose proof Hok as [Hlen Hall].
    destruct c; destruct pc; try done; repeat case_match; simplify_eq;
      try match goal with H : close_chan _ _ = Some _ |- _ =>
        apply close_chan_rest in H as (Hp & _ & _ & Ho & Hr & _ & _ & Hk & _) end;
      try exact Hok;
      unfold heap_ok; simpl; rewrite ?Hp, ?Ho, ?Hr, ?Hk; try done.
    + (* a new worker *)
      rewrite !length_app, Hlen. split; [done|].
      apply Forall_app. split; [done|]. constructor; [|done]. simpl. split; [lia|done].
    + (* the goroutine starts *)
      by rewrite length_insert.
    + (* the task is sent *)
      rewrite length_insert. split; [done|].
      apply Forall_insert; [done|]. simpl.
      match goal with H : objects s !! _ = Some ?o |- _ =>
        assert (Hin : o ∈ objects s) by (by eapply list_elem_of_lookup_2);
        rewrite Forall_forall in Hall; destruct (Hall o Hin) as [? Hrc] end.
      split; [done|]. unfold isRecycled in *. simpl. congruence.
    + (* reset *)
      match goal with H : q_reset _ _ = Some _ |- _ => apply q_reset_closes in H end.
      by apply heap_ok_closes.
  - unfold step_worker in H.
    destruct (routines s !! w) as [pc|]; [|done].
    destruct (objects s !! w) as [o|] eqn:Ho; [|done]. simpl in H.
    pose proof Hok as [Hlen Hall].
    assert (Hin : o ∈ objects s) by (by eapply list_elem_of_lookup_2).
    pose proof Hall as Hall'. rewrite Forall_forall in Hall'.
    destruct (Hall' o Hin) as [Ht Hrc].
    destruct pc; try done; repeat case_match; simplify_eq;
      unfold heap_ok, Signal; simpl; rewrite ?length_insert; try done;
      (split; [done|]); apply Forall_insert; try done; simpl;
      (split; [try done; lia|exact Hrc]).
  - unfold step_sweeper in H.
    destruct (sweepers s !! k) as [[pc due]|]; [|done]. simpl in H.
    destruct pc; try done; repeat case_match; simplify_eq;
      try match goal with H : close_chan _ _ = Some _ |- _ =>
        apply close_chan_rest in H as (Hp & _ & _ & Ho & Hr & _ & _ & Hk & _) end;
      try exact Hok;
      unfold heap_ok; simpl; rewrite ?Hp, ?Ho, ?Hr, ?Hk; try done.
    match goal with H : q_refresh _ _ _ _ = Some _ |- _ => apply q_refresh_closes in H end.
    by apply heap_ok_closes.
  - unfold step_sweeper in H.
    destruct (sweepers s !! k) as [[pc due]|]; [|done]. simpl in H.
    destruct pc; try done; repeat case_match; simplify_eq; exact Hok.
Qed.

Lemma heap_ok_boot p now : heap_ok (boot (A:=A) p now).
Proof. split; [done|]. simpl. constructor. Qed.
End Invariants.

(** ** The lock and the waiters *)

Lemma tally_app {X} (f : X -> bool) l1 l2 :
  tally f (l1 ++ l2) = (tally f l1 + tally f l2)%nat.
Proof. induction l1 as [|x l1 IH]; simpl; [done|]. rewrite IH. lia. Qed.

Lemma tally_insert {X} (f : X -> bool) l i x y :
  l !! i = Some x ->
  (tally f (<[i := y]> l) + (if f x then 1 else 0)
   = tally f l + (if f y then 1 else 0))%nat.
Proof.
  revert i. induction l as [|z l IH]; intros [|i] Hi; simpl in *; try done.
  - simplify_eq. lia.
  - specialize (IH i Hi). lia.
Qed.

Lemma tally_insert_le {X} (f : X -> bool) l i y :
  f y = false -> (tally f (<[i := y]> l) <= tally f l)%nat.
Proof.
  intros Hy. destruct (l !! i) as [x|] eqn:Hi.
  - pose proof (tally_insert f l i x y Hi) as E. rewrite Hy in E.
    destruct (f x); lia.
  - rewrite list_insert_ge; [done|]. by apply lookup_ge_None.
Qed.

Lemma wrap32_add a b : wrap32 (wrap32 a + b) = wrap32 (a + b).
Proof.
  unfold wrap32. f_equal.
  replace ((a + 2 ^ 31) mod 2 ^ 32 - 2 ^ 31 + b + 2 ^ 31)
    with ((a + 2 ^ 31) mod 2 ^ 32 + b) by lia.
  replace (a + b + 2 ^ 31) with ((a + 2 ^ 31) + b) by lia.
  by rewrite Zplus_mod_idemp_l.
Qed.

Section LockFacts.
Context {A : Type} (exec : A -> outcome).
Implicit Types (s : World (A:=A)) (ev : event A).

Ltac tally_facts :=
  repeat match goal with
  | Hi : ?l !! ?i = Some ?x |- context [tally ?f (<[?i := ?y]> ?l)] =>
      lazymatch goal with
      | _ : (tally f (<[i := y]> l) + _ = _)%nat |- _ => fail
      | _ => pose proof (tally_insert f l i x y Hi)
      end
  | |- context [tally ?f (<[?i := ?y]> ?l)] =>
      lazymatch goal with
      | _ : (tally f (<[i := y]> l) <= _)%nat |- _ => fail
      | _ : (tally f (<[i := y]> l) + _ = _)%nat |- _ => fail
      | _ => pose proof (tally_insert_le f l i y eq_refl)
      end
  end.

Lemma mutex_step s ev s' :
  (lock_holders s <= if locked s then 1 else 0)%nat ->
  step exec s ev = Some s' ->
  (lock_holders s' <= if locked s' then 1 else 0)%nat.
Proof.
  unfold step. intros Hinv H.
  destruct (crashed s); [done|]. destruct ev as [dt|c|i|w|k|k].
  - case_match; simplify_eq. exact Hinv.
  - simplify_eq. unfold lock_holders in *. simpl. rewrite tally_app. simpl.
    destruct c; simpl; lia.
  - unfold step_client in H.
    destruct (clients s !! i) as [[c pc]|] eqn:Hi; [|done]. simpl in H.
    unfold lock_holders in *.
    destruct (locked s) eqn:Hl;
    destruct c; destruct pc; try done; repeat case_match; simplify_eq;
      simpl in *; try congruence;
      try match goal with H : close_chan _ _ = Some _ |- _ =>
        apply close_chan_rest in H as (_ & Hlk & _ & _ & Hr & Hcl & Hsw & _) end;
      try congruence;
      unfold Broadcast; simpl; rewrite ?Hlk, ?Hr, ?Hcl, ?Hsw, ?Hl, ?tally_app;
      tally_facts; simpl in *; lia.
  - unfold step_worker in H.
    destruct (routines s !! w) as [pc|] eqn:Hr; [|done].
    destruct (objects s !! w) as [o|] eqn:Ho; [|done]. simpl in H.
    unfold lock_holders in *.
    destruct (locked s) eqn:Hl;
    destruct pc; try done; repeat case_match; simplify_eq; simpl in *; try congruence;
      unfold Signal; simpl; rewrite ?Hl;
      tally_facts; simpl in *; lia.
  - unfold step_sweeper in H.
    destruct (sweepers s !! k) as [[pc due]|] eqn:Hk; [|done]. simpl in H.
    unfold lock_holders in *.
    destruct (locked s) eqn:Hl;
    destruct pc; try done; repeat case_match; simplify_eq; simpl in *; try congruence;
      try match goal with H : close_chan _ _ = Some _ |- _ =>
        apply close_chan_rest in H as (_ & Hlk & _ & _ & Hr & Hcl & Hsw & _) end;
      try congruence;
      simpl; rewrite ?Hlk, ?Hr, ?Hcl, ?Hsw, ?Hl;
      tally_facts; simpl in *; lia.
  - unfold step_sweeper in H.
    destruct (sweepers s !! k) as [[pc due]|] eqn:Hk; [|done]. simpl in H.
    unfold lock_holders in *.
    destruct (locked s) eqn:Hl;
    destruct pc; try done; repeat case_match; simplify_eq; simpl in *; try congruence;
      simpl; rewrite ?Hl;
      tally_facts; simpl in *; lia.
Qed.

Lemma waiting_step s ev s' :
  Waiting s = wrap32 (Z.of_nat (waiters s)) ->
  step exec s ev = Some s' ->
  Waiting s' = wrap32 (Z.of_nat (waiters s')).
Proof.
  unfold step, Waiting, waiters. intros Hinv H.
  destruct (crashed s); [done|]. destruct ev as [dt|c|i|w|k|k].
  - case_match; simplify_eq. exact Hinv.
  - simplify_eq. simpl. rewrite tally_app. simpl.
    destruct c; simpl; by rewrite Nat.add_0_r.
  - unfold step_client in H.
    destruct (clients s !! i) as [[c pc]|] eqn:Hi; [|done]. simpl in H.
    destruct c; destruct pc; try done; repeat case_match; simplify_eq;
      try match goal with H : close_chan _ _ = Some _ |- _ =>
        apply close_chan_rest in H as (Hp & _ & _ & _ & _ & Hcl & _) end;
      unfold Broadcast; simpl; rewrite ?Hp, ?Hcl, ?Hinv, ?wrap32_add;
      tally_facts; simpl in *; f_equal; lia.
  - unfold step_worker in H.
    destruct (routines s !! w) as [pc|] eqn:Hr; [|done].
    destruct (objects s !! w) as [o|] eqn:Ho; [|done]. simpl in H.
    destruct pc; try done; repeat case_match; simplify_eq;
      unfold Signal; simpl; exact Hinv.
  - unfold step_sweeper in H.
    destruct (sweepers s !! k) as [[pc due]|] eqn:Hk; [|done]. simpl in H.
    destruct pc; try done; repeat case_match; simplify_eq;
      try match goal with H : close_chan _ _ = Some _ |- _ =>
        apply close_chan_rest in H as (Hp & _ & _ & _ & _ & Hcl & _) end;
      simpl; rewrite ?Hp, ?Hcl; exact Hinv.
  - unfold step_sweeper in H.
    destruct (sweepers s !! k) as [[pc due]|] eqn:Hk; [|done]. simpl in H.
    destruct pc; try done; repeat case_match; simplify_eq; exact Hinv.
Qed.
End LockFacts.

(** ** Pools that never block, never refuse, never start *)

Section Modes.
Context {A : Type} (exec : A -> outcome).
Implicit Types (s : World (A:=A)) (ev : event A).

Lemma never_blocking_step s ev s' :
  never_blocking s -> step exec s ev = Some s' -> never_blocking s'.
Proof.
  unfold step. intros Hinv H.
  destruct (crashed s); [done|]. destruct ev as [dt|c|i|w|k|k].
  - case_match; simplify_eq. exact Hinv.
  - simplify_eq. destruct Hinv as (Hnb & Hw & Hn & Hall).
    unfold never_blocking. simpl. repeat split; try done.
    apply Forall_app. split; [done|]. constructor; [|done]. by destruct c.
  - unfold step_client in H.
    destruct (clients s !! i) as [[c pc]|] eqn:Hi; [|done]. simpl in H.
    destruct Hinv as (Hnb & Hw & Hn & Hall).
    assert (Hpc : on_wait_path pc = false).
    { rewrite Forall_forall in Hall.
      apply (Hall (c, pc)). by eapply list_elem_of_lookup_2. }
    destruct c; destruct pc; try done; repeat case_match; simplify_eq;
      try match goal with H : close_chan _ _ = Some _ |- _ =>
        apply close_chan_rest in H as (Hp & _ & Hnt & _ & _ & Hcl & _) end;
      unfold never_blocking, Broadcast; simpl; rewrite ?Hp, ?Hnt, ?Hcl;
      (repeat split; try done; try congruence); by apply Forall_insert.
  - unfold step_worker in H.
    destruct (routines s !! w) as [pc|] eqn:Hr; [|done].
    destruct (objects s !! w) as [o|] eqn:Ho; [|done]. simpl in H.
    destruct Hinv as (Hnb & Hw & Hn & Hall).
    destruct pc; try done; repeat case_match; simplify_eq;
      unfold never_blocking, Signal; simpl; rewrite ?Hn; try done.
  - unfold step_sweeper in H.
    destruct (sweepers s !! k) as [[pc due]|] eqn:Hk; [|done]. simpl in H.
    destruct Hinv as (Hnb & Hw & Hn & Hall).
    destruct pc; try done; repeat case_match; simplify_eq;
      try match goal with H : close_chan _ _ = Some _ |- _ =>
        apply close_chan_rest in H as (Hp & _ & Hnt & _ & _ & Hcl & _) end;
      unfold never_blocking; simpl; rewrite ?Hp, ?Hnt, ?Hcl; try done.
  - unfold step_sweeper in H.
    destruct (sweepers s !! k) as [[pc due]|] eqn:Hk; [|done]. simpl in H.
    destruct pc; try done; repeat case_match; simplify_eq; exact Hinv.
Qed.

Lemma unbounded_step s ev s' :
  unbounded s -> step exec s ev = Some s' -> unbounded s'.
Proof.
  unfold step. intros Hinv H.
  destruct (crashed s); [done|]. destruct ev as [dt|c|i|w|k|k].
  - case_match; simplify_eq. exact Hinv.
  - simplify_eq. destruct Hinv as (Hcap & Hn & Hall).
    unfold unbounded. simpl. split; [done|]. split; [done|].
    apply Forall_app. split; [done|]. constructor; [|done]. by destruct c.
  - unfold step_client in H.
    destruct (clients s !! i) as [[c pc]|] eqn:Hi; [|done]. simpl in H.
    destruct Hinv as (Hcap & Hn & Hall).
    assert (Hpc : unbounded_pc pc = true).
    { rewrite Forall_forall in Hall.
      apply (Hall (c, pc)). by eapply list_elem_of_lookup_2. }
    destruct c; destruct pc; try done; simpl in Hpc;
      repeat case_match; simplify_eq;
      try match goal with H : (_ || _) = false |- _ =>
        rewrite Hpc in H; discriminate H end;
      try match goal with H : close_chan _ _ = Some _ |- _ =>
        apply close_chan_rest in H as (Hp & _ & Hnt & _ & _ & Hcl & _) end;
      unfold unbounded, Broadcast; simpl; rewrite ?Hp, ?Hnt, ?Hcl;
      (split; [done|]); (split; [done|]); try done;
      apply Forall_insert; try done; simpl; rewrite ?Hcap; done.
  - unfold step_worker in H.
    destruct (routines s !! w) as [pc|] eqn:Hr; [|done].
    destruct (objects s !! w) as [o|] eqn:Ho; [|done]. simpl in H.
    destruct Hinv as (Hcap & Hn & Hall).
    destruct pc; try done; repeat case_match; simplify_eq;
      unfold unbounded, Signal; simpl; rewrite ?Hn; done.
  - unfold step_sweeper in H.
    destruct (sweepers s !! k) as [[pc due]|] eqn:Hk; [|done]. simpl in H.
    destruct Hinv as (Hcap & Hn & Hall).
    destruct pc; try done; repeat case_match; simplify_eq;
      try match goal with H : close_chan _ _ = Some _ |- _ =>
        apply close_chan_rest in H as (Hp & _ & Hnt & _ & _ & Hcl & _) end;
      unfold unbounded; simpl; rewrite ?Hp, ?Hnt, ?Hcl; try done.
  - unfold step_sweeper in H.
    destruct (sweepers s !! k) as [[pc due]|] eqn:Hk; [|done]. simpl in H.
    destruct pc; try done; repeat case_match; simplify_eq; exact Hinv.
Qed.
End Modes.

Section Workerless.
Context {A : Type} (exec : A -> outcome).
Implicit Types (s : World (A:=A)) (ev : event A) (h : heap A).

Lemma q_detach_empty q : store_empty q = true -> q_detach q = Some (None, q).
Proof.
  destruct q as [[its sz]|wq]; simpl; intros He.
  - unfold Stack.isEmpty in He. simpl in He. destruct its; [done|discriminate].
  - unfold Ring.detach. by rewrite He.
Qed.

Lemma q_refresh_empty h now d q :
  store_empty q = true -> q_refresh h now d q = Some (h, q, []).
Proof.
  destruct q as [[its sz]|wq]; simpl; intros He.
  - unfold Stack.isEmpty in He. simpl in He. destruct its; [done|discriminate].
  - unfold Ring.refresh. by rewrite He.
Qed.

Lemma q_reset_empty h q :
  store_empty q = true ->
  exists q', q_reset h q = Some (h, q') /\ store_empty q' = true.
Proof.
  destruct q as [[its sz]|wq]; simpl; intros He.
  - unfold Stack.isEmpty in He. simpl in He. destruct its; [|discriminate].
    by eexists.
  - unfold Ring.reset. rewrite He. by eexists.
Qed.

Lemma workerless_step s ev s' :
  workerless s -> step exec s ev = Some s' -> workerless s'.
Proof.
  unfold step. intros Hinv H.
  destruct (crashed s); [done|]. destruct ev as [dt|c|i|w|k|k].
  - case_match; simplify_eq. exact Hinv.
  - simplify_eq. destruct Hinv as (Hcap & Hrun & Ho & Hr & He & Hcl & Hsw).
    unfold workerless. simpl. repeat split; try done.
    apply Forall_app. split; [done|]. constructor; [|done]. by destruct c.
  - unfold step_client in H.
    destruct (clients s !! i) as [[c pc]|] eqn:Hi; [|done]. simpl in H.
    destruct Hinv as (Hcap & Hrun & Ho & Hr & He & Hcl & Hsw).
    assert (Hpc : workerless_pc (capacity (pool s)) pc = true).
    { rewrite Forall_forall in Hcl.
      apply (Hcl (c, pc)). by eapply list_elem_of_lookup_2. }
    pose proof (q_detach_empty _ He) as Hdet.
    destruct (q_reset_empty (objects s) _ He) as (q1 & Hreset & He1).
    destruct c; destruct pc; try done; simpl in Hpc;
      rewrite ?Hdet, ?Hreset in H;
      try (apply andb_true_iff in Hpc as [Hc1 Hc2];
           apply Z.eqb_eq in Hc1; apply Z.eqb_eq in Hc2; subst;
           replace ((capacity (pool s) =? -1) || (0 <? capacity (pool s)))
             with false in H
             by (symmetry; apply orb_false_iff; split;
                 [apply Z.eqb_neq|apply Z.ltb_ge]; lia));
      repeat case_match; simplify_eq;
      try match goal with H : close_chan _ _ = Some _ |- _ =>
        apply close_chan_rest in H as (Hp & _ & _ & Hob & Hrt & Hcc & Hss & _) end;
      unfold workerless, Broadcast; simpl; rewrite ?Hp, ?Hob, ?Hrt, ?Hcc, ?Hss;
      (repeat split; try done);
      try (apply Forall_insert; try done; simpl;
           rewrite ?Hrun, ?Z.eqb_refl, ?Hpc; done);
      try (apply Forall_app; split; [done|]; by constructor).
  - unfold step_worker in H.
    destruct Hinv as (Hcap & Hrun & Ho & Hr & He & Hcl & Hsw).
    rewrite Hr in H. done.
  - unfold step_sweeper in H.
    destruct (sweepers s !! k) as [[pc due]|] eqn:Hk; [|done]. simpl in H.
    destruct Hinv as (Hcap & Hrun & Ho & Hr & He & Hcl & Hsw).
    assert (Hpc : sweeper_empty_handed pc = true).
    { rewrite Forall_forall in Hsw.
      apply (Hsw (pc, due)). by eapply list_elem_of_lookup_2. }
    rewrite ?(q_refresh_empty _ _ _ _ He) in H.
    destruct pc as [| | | | |[|x ix]|[|x ix]| |]; try done;
      repeat case_match; simplify_eq;
      try match goal with H : close_chan _ _ = Some _ |- _ =>
        apply close_chan_rest in H as (Hp & _ & _ & Hob & Hrt & Hcc & Hss & _) end;
      unfold workerless; simpl; rewrite ?Hp, ?Hob, ?Hrt, ?Hcc, ?Hss;
      (repeat split; try done);
      try (by apply Forall_insert).
  - unfold step_sweeper in H.
    destruct (sweepers s !! k) as [[pc due]|] eqn:Hk; [|done]. simpl in H.
    destruct Hinv as (Hcap & Hrun & Ho & Hr & He & Hcl & Hsw).
    destruct pc; try done; repeat case_match; simplify_eq.
    unfold workerless; simpl. repeat split; try done. by apply Forall_insert.
Qed.
End Workerless.

(** ** Properties of every schedule *)

Section EverySchedule.
Context {A : Type} (exec : A -> outcome).
Implicit Types (s : World (A:=A)) (p : Pool) (evs : list (event A)).

(** No call and no goroutine ever changes the capacity or the options of
    a pool; the clock is never turned back; worker objects are never
    freed. *)
Theorem pool_configuration_fixed s evs s' :
  run exec s evs = Some s' ->
  Cap s' = Cap s /\ options (pool s') = options (pool s) /\
  clock s <= clock s' /\ (length (objects s) <= length (objects s'))%nat.
Proof. intros Hrun. by apply (config_run exec evs s s'). Qed.

(** Along every schedule of a pool just constructed: every worker object
    has a goroutine slot, no [lastUsed] stamp is in the future, and
    [isRecycled] is true of a worker exactly when its inbox has been
    closed. *)
Theorem worker_objects_consistent p (now : Z) evs s' :
  run exec (boot p now) evs = Some s' ->
  length (routines s') = length (objects s') /\
  stamps_past s' /\
  Forall (fun o => isRecycled o = inboxClosed o) (objects s').
Proof.
  intros Hrun.
  assert (Hok : heap_ok s').
  { eapply (run_invariant exec heap_ok); [apply heap_ok_step| |exact Hrun].
    apply heap_ok_boot. }
  destruct Hok as [Hlen Hall]. split; [done|]. unfold stamps_past.
  split; eapply Forall_impl; try exact Hall; by intros o [? ?].
Qed.

(** Mutual exclusion: along every schedule of a pool just constructed,
    at most one goroutine is between [p.lock.Lock()] and
    [p.lock.Unlock()], and none is while the lock is free. *)
Theorem lock_mutual_exclusion p (now : Z) evs s' :
  run exec (boot p now) evs = Some s' ->
  (lock_holders s' <= 1)%nat /\ (locked s' = false -> lock_holders s' = 0%nat).
Proof.
  intros Hrun.
  assert (Hinv : (lock_holders s' <= if locked s' then 1 else 0)%nat).
  { eapply (run_invariant exec
              (fun s => (lock_holders s <= if locked s then 1 else 0)%nat));
      [apply mutex_step| |exact Hrun].
    unfold lock_holders. simpl. lia. }
  destruct (locked s'); split; try done; lia.
Qed.

(** [Waiting()] is the number of submitters between the increment and
    the decrement around [cond.Wait], as an int32. *)
Theorem waiting_counts_waiters p (now : Z) evs s' :
  waiting p = 0 ->
  run exec (boot p now) evs = Some s' ->
  Waiting s' = wrap32 (Z.of_nat (waiters s')).
Proof.
  intros Hw Hrun.
  eapply (run_invariant exec (fun s => Waiting s = wrap32 (Z.of_nat (waiters s))));
    [apply waiting_step| |exact Hrun].
  unfold Waiting, waiters. simpl. by rewrite Hw.
Qed.

(** A non-blocking pool never makes a submitter wait: no submitter is
    ever on the blocking path of [getWorker], nobody sleeps on the
    condition variable, and [Waiting()] stays 0. *)
Theorem nonblocking_never_waits p (now : Z) evs s' :
  Nonblocking (options p) = true -> waiting p = 0 ->
  run exec (boot p now) evs = Some s' ->
  nobody_waits s' /\ notify s' = [] /\ Waiting s' = 0.
Proof.
  intros Hnb Hw Hrun.
  assert (Hinv : never_blocking s').
  { eapply (run_invariant exec never_blocking);
      [apply never_blocking_step| |exact Hrun].
    unfold never_blocking. simpl. repeat split; try done. }
  destruct Hinv as (_ & Hw' & Hn & Hall). split; [|done].
  intros i c pc Hi. rewrite Forall_forall in Hall.
  apply (Hall (c, pc)). by eapply list_elem_of_lookup_2.
Qed.

(** An unbounded pool (capacity -1) never answers ErrPoolOverload and
    never makes a submitter wait, blocking mode or not. *)
Theorem unbounded_never_overloaded p (now : Z) evs s' :
  capacity p = -1 ->
  run exec (boot p now) evs = Some s' ->
  nobody_waits s' /\ notify s' = [] /\
  forall i, answer i s' <> Some (Some ErrPoolOverload).
Proof.
  intros Hcap Hrun.
  assert (Hinv : unbounded s').
  { eapply (run_invariant exec unbounded); [apply unbounded_step| |exact Hrun].
    split; [done|]. split; [done|]. simpl. constructor. }
  destruct Hinv as (_ & Hn & Hall). rewrite Forall_forall in Hall.
  assert (Hpc : forall i c pc, clients s' !! i = Some (c, pc) -> unbounded_pc pc = true).
  { intros i c pc Hi. apply (Hall (c, pc)). by eapply list_elem_of_lookup_2. }
  split; [|split; [done|]].
  - intros i c pc Hi. specialize (Hpc i c pc Hi).
    destruct pc; try done; simpl in Hpc; by repeat case_match.
  - intros i Ha. unfold answer in Ha.
    destruct (clients s' !! i) as [[c pc]|] eqn:Hi; [|done].
    specialize (Hpc i c pc Hi). destruct pc; try done. by simplify_eq.
Qed.

(** A pool that [NewPool] builds from a size below -1 whose conversion
    to int32, the pool's capacity, is below -1 as well never creates a
    worker: along every schedule there is no worker object, [Running()]
    and [Free()] are 0, and no submission is ever answered with
    success. *)
Theorem negative_size_never_runs (sz now : Z) (opts : list Option) p evs s' :
  sz < -1 -> wrap32 sz < -1 ->
  NewPool sz opts = inr p ->
  run exec (boot p now) evs = Some s' ->
  objects s' = [] /\ Running s' = 0 /\ Free s' = 0%nat /\
  forall i, answer i s' <> Some None.
Proof.
  intros Hsz Hcap Hnew Hrun. apply NewPool_inr in Hnew as (_ & _ & ->).
  assert (Hinv : workerless s').
  { eapply (run_invariant exec workerless); [apply workerless_step| |exact Hrun].
    unfold workerless, buildPool. simpl.
    repeat split; try lia; try done.
    - unfold chooseQueue.
      destruct (Z.eqb_spec sz (-1)); [lia|].
      destruct (Z.ltb_spec sz queueSizeThreshold); [|unfold queueSizeThreshold in *; lia].
      by destruct (PreAlloc (NewOptions opts)).
    - by repeat constructor. }
  destruct Hinv as (_ & Hr & Ho & _ & He & Hcl & _).
  split; [done|]. split; [done|]. split.
  - unfold Free. destruct (workers (pool s')) as [[its z]|wq]; simpl in *.
    + unfold Stack.isEmpty in He. simpl in He. unfold Stack.len. simpl.
      by apply Nat.eqb_eq in He.
    + unfold Ring.isEmpty in He. apply andb_true_iff in He as [Heq Hf].
      apply Nat.eqb_eq in Heq. apply negb_true_iff in Hf.
      unfold Ring.len. rewrite Hf, Heq, Nat.leb_refl. lia.
  - intros i Ha. unfold answer in Ha.
    destruct (clients s' !! i) as [[c pc]|] eqn:Hi; [|done].
    rewrite Forall_forall in Hcl.
    assert (Hpc : workerless_pc (capacity (pool s')) pc = true).
    { apply (Hcl (c, pc)). by eapply list_elem_of_lookup_2. }
    destruct pc; try done. by simplify_eq.
Qed.
End EverySchedule.

(** ** The properties on the example pools *)

Lemma future_timed_get_witness :
  exists s : Fut.fstate (V:=Z) (E:=error),
    Fut.frun Fut.finit [Fut.CallGet; Fut.CallSet (Some 42) None] = Some s /\
    Fut.IsDone (Fut.cell s) = true /\
    Fut.GetWithTimeout false (Fut.cell s) = Some (inr (Some 42, None)) /\
    Fut.GetWithTimeout true (Fut.cell s) = Some (inl (None, Some ErrTimeout)).
Proof.
  eexists. split; [reflexivity|].
  match goal with
  | |- Fut.IsDone (Fut.cell ?s) = true /\ _ =>
      pose proof (future_timed_get [Fut.CallGet; Fut.CallSet (Some 42) None] s false
                    eq_refl) as [Hd _]
  end.
  split; [apply Hd; discriminate|]. split; reflexivity.
Defined.

Lemma stack_sweep_settles_witness :
  exists h' wq' ix,
    Stack.refresh three_idle 10 4 (Stack.WorkerStack [0; 1; 2]%nat 0)
    = Some (h', wq', ix) /\
    (length ix + Stack.len wq' = 3)%nat /\
    Stack.refresh h' 10 4 wq' = Some (h', wq', []).
Proof.
  destruct (stack_sweep_settles three_idle 10 4 (Stack.WorkerStack [0; 1; 2]%nat 0)
              three_idle_ok) as (h' & wq' & ix & H1 & H2 & _ & H3).
  by exists h', wq', ix.
Defined.

Lemma ring_sweep_settles_witness :
  exists h' wq' ix rest,
    Ring.refresh three_idle 10 4 ring_three = Some (h', wq', ix) /\
    holds wq' rest /\ (length ix + length rest = 3)%nat /\
    Ring.refresh h' 10 4 wq' = Some (h', wq', []).
Proof.
  destruct (ring_sweep_settles three_idle 10 4 ring_three [0; 1; 2]%nat
              ring_three_holds three_idle_ok)
    as (h' & wq' & ix & rest & H1 & H2 & H3 & _ & H4).
  by exists h', wq', ix, rest.
Defined.

Lemma cleanup_closes_only_witness :
  exists h',
    q_reset three_idle (QRing ring_three) = Some (h', QRing (Ring.LoopQueue
      [None; None; None; None] 0 0 4 false)) /\
    length h' = 3%nat /\
    exists o', h' !! 1%nat = Some o' /\ lastUsed o' = 5.
Proof.
  eexists. split; [vm_compute; reflexivity|].
  match goal with
  | |- length ?h' = _ /\ _ =>
      destruct (cleanup_closes_only three_idle 0 0 (QRing ring_three) h') as [Hl Hp];
        [right; eexists; vm_compute; reflexivity|]
  end.
  split; [exact Hl|].
  destruct (Hp 1%nat (GoWorker [] false 5 0) eq_refl) as (o' & Ho & Hs & _).
  by exists o'.
Defined.

Lemma nonblocking_submit_overload_witness :
  run id (busy Returns [WithNonblocking true])
      (Call (Submit (Some Returns)) :: replicate 6 (Client 1%nat))
  = Some (set_clients
            (clients (busy Returns [WithNonblocking true])
             ++ [(Submit (Some Returns), SubmitReturned (Some ErrPoolOverload))])
            (set_locked false
               (on_pool (set_workers (QStack (Stack.newWorkerStack 0)))
                  (busy Returns [WithNonblocking true])))).
Proof.
  apply (nonblocking_submit_overload id (busy Returns [WithNonblocking true])
           (QStack (Stack.newWorkerStack 0)) (Some Returns)).
  - repeat split; try reflexivity; vm_compute; congruence.
  - reflexivity.
Defined.

Lemma blocking_submit_parks_witness :
  exists s',
    run id (busy Returns [])
        (Call (Submit (Some Returns)) :: replicate 8 (Client 1%nat)) = Some s' /\
    Waiting s' = 1 /\ notify s' = [1%nat] /\ step id s' (Client 1%nat) = None.
Proof.
  destruct (blocking_submit_parks id (busy Returns [])
              (QStack (Stack.newWorkerStack 0)) (Some Returns))
    as (s' & Hrun & _ & Hn & Hw & _ & _ & _ & Hstuck).
  - repeat split; try reflexivity; vm_compute; congruence.
  - reflexivity.
  - exists s'. split; [exact Hrun|]. split; [exact Hw|]. split; [exact Hn|exact Hstuck].
Defined.

Lemma task_panic_exits_witness :
  exists s',
    run id (busy Panics []) (replicate 3 (Worker 0%nat)) = Some s' /\
    Running s' = 0 /\ logged s' = [LogPanic] /\ Free s' = 0%nat.
Proof.
  destruct (task_panic_exits id (busy Panics []) 0%nat Panics (GoWorker [] false 0 0))
    as (s' & Hrun & _ & _ & Hr & Hw & _ & _ & Hl & _); try reflexivity.
  exists s'. split; [exact Hrun|]. split; [exact Hr|]. split; [exact Hl|].
  unfold Free. by rewrite Hw.
Defined.

Lemma task_return_recycles_witness :
  exists s',
    run id (busy Returns []) (replicate 6 (Worker 0%nat)) = Some s' /\
    workers (pool s') = QStack (Stack.WorkerStack [0%nat] 0) /\
    Running s' = 1 /\ routines s' = [WRecv].
Proof.
  destruct (task_return_recycles id (busy Returns []) 0%nat Returns
              (GoWorker [] false 0 0) (QStack (Stack.WorkerStack [0%nat] 0)))
    as (s' & Hrun & Hrt & Hw & _ & _ & Hr & _); try reflexivity.
  exists s'. split; [exact Hrun|]. split; [exact Hw|]. split; [exact Hr|exact Hrt].
Defined.

Lemma put_on_closed_pool_witness :
  exists s',
    run id busy_closed (replicate 4 (Worker 0%nat)) = Some s' /\
    routines s' = [WDone] /\ running (pool s') = 0 /\
    workers (pool s') = QStack (Stack.newWorkerStack 0).
Proof.
  destruct (put_on_closed_pool id busy_closed 0%nat Returns (GoWorker [] false 0 0))
    as (s' & Hrun & Hrt & Hp & _); try reflexivity.
  exists s'. split; [exact Hrun|]. split; [exact Hrt|].
  rewrite Hp. split; vm_compute; reflexivity.
Defined.

Lemma put_on_full_ring_witness :
  exists s',
    run id full_ring (replicate 7 (Worker 1%nat)) = Some s' /\
    routines s' = [WRecv; WDone] /\ running (pool s') = 1 /\
    workers (pool s') = workers (pool full_ring) /\ locked s' = false.
Proof.
  destruct (put_on_full_ring id full_ring 1%nat Returns (GoWorker [] false 0 0)
              (Ring.LoopQueue [Some 0%nat] 0 0 1 true))
    as (s' & Hrun & Hrt & Hp & _ & _ & _ & Hl); try reflexivity.
  exists s'. split; [exact Hrun|]. split; [exact Hrt|].
  rewrite Hp. split; [vm_compute; reflexivity|]. split; [reflexivity|exact Hl].
Defined.

Lemma reboot_reopens_witness :
  exists s',
    run id pool_one_closed (Call Reboot :: replicate 4 (Client 1%nat)) = Some s' /\
    IsClosed s' = false /\ chans s' = [true; true; false; false] /\
    sweepers s' = [(CDone, second); (CNewTicker, 0)].
Proof.
  destruct (reboot_reopens id pool_one_closed eq_refl) as [Hre _].
  destruct (Hre eq_refl) as (s' & Hrun & _ & Hst & Hch & _ & _ & Hsw & _).
  exists s'. split; [exact Hrun|]. split; [|split; [exact Hch|exact Hsw]].
  unfold IsClosed. by rewrite Hst.
Defined.

Lemma pool_configuration_fixed_witness :
  exists s',
    run id pool_one (one_task_done ++ expiry_sweep) = Some s' /\
    Cap s' = 1 /\ 0 <= clock s'.
Proof.
  eexists. split; [vm_compute; reflexivity|].
  match goal with
  | |- Cap ?s' = _ /\ _ =>
      destruct (pool_configuration_fixed id pool_one (one_task_done ++ expiry_sweep) s')
        as (Hc & _ & Hk & _); [vm_compute; reflexivity|]
  end.
  split; [exact Hc|exact Hk].
Defined.

Lemma worker_objects_consistent_witness :
  exists s',
    run id pool_one (one_task_done ++ expiry_sweep) = Some s' /\
    stamps_past s' /\
    Forall (fun o => isRecycled o = inboxClosed o) (objects s').
Proof.
  eexists. split; [vm_compute; reflexivity|].
  match goal with
  | |- stamps_past ?s' /\ _ =>
      destruct (worker_objects_consistent id
                  (buildPool 1 (NewOptions [WithExpiryDuration second])) 0
                  (one_task_done ++ expiry_sweep) s')
        as (_ & Hs & Hr); [vm_compute; reflexivity|]
  end.
  split; [exact Hs|exact Hr].
Defined.

Lemma lock_mutual_exclusion_witness :
  exists s',
    run id blocking_one steal = Some s' /\ (lock_holders s' <= 1)%nat.
Proof.
  eexists. split; [vm_compute; reflexivity|].
  match goal with
  | |- (lock_holders ?s' <= 1)%nat =>
      destruct (lock_mutual_exclusion id (buildPool 1 (NewOptions [])) 0 steal s')
        as [Hm _]; [vm_compute; reflexivity|exact Hm]
  end.
Defined.

Lemma waiting_counts_waiters_witness :
  exists s',
    run id pool_minus_five two_submissions = Some s' /\
    Waiting s' = wrap32 (Z.of_nat (waiters s')).
Proof.
  eexists. split; [vm_compute; reflexivity|].
  match goal with
  | |- Waiting ?s' = _ =>
      apply (waiting_counts_waiters id (buildPool (-5) (NewOptions [])) 0
               two_submissions s'); [reflexivity|vm_compute; reflexivity]
  end.
Defined.

Lemma nonblocking_never_waits_witness :
  exists s',
    run id (boot (buildPool 1 (NewOptions [WithNonblocking true])) 0) both_create
    = Some s' /\
    nobody_waits s' /\ Waiting s' = 0.
Proof.
  eexists. split; [vm_compute; reflexivity|].
  match goal with
  | |- nobody_waits ?s' /\ _ =>
      destruct (nonblocking_never_waits id
                  (buildPool 1 (NewOptions [WithNonblocking true])) 0 both_create s')
        as (Hn & _ & Hw); [reflexivity|reflexivity|vm_compute; reflexivity|]
  end.
  split; [exact Hn|exact Hw].
Defined.

Lemma unbounded_never_overloaded_witness :
  exists s',
    run id (boot (buildPool (-1) (NewOptions [])) 0) both_create = Some s' /\
    nobody_waits s' /\ answer 1 s' <> Some (Some ErrPoolOverload).
Proof.
  eexists. split; [vm_compute; reflexivity|].
  match goal with
  | |- nobody_waits ?s' /\ _ =>
      destruct (unbounded_never_overloaded id (buildPool (-1) (NewOptions [])) 0
                  both_create s')
        as (Hn & _ & Ha); [reflexivity|vm_compute; reflexivity|]
  end.
  split; [exact Hn|apply Ha].
Defined.

Lemma negative_size_never_runs_witness :
  exists s',
    run id pool_minus_five two_submissions = Some s' /\
    objects s' = [] /\ Running s' = 0 /\ answer 0 s' <> Some None.
Proof.
  eexists. split; [vm_compute; reflexivity|].
  match goal with
  | |- objects ?s' = _ /\ _ =>
      destruct (negative_size_never_runs id (-5) 0 []
                  (buildPool (-5) (NewOptions [])) two_submissions s')
        as (Ho & Hr & _ & Ha); [lia|reflexivity|reflexivity|vm_compute; reflexivity|]
  end.
  split; [exact Ho|]. split; [exact Hr|apply Ha].
Defined.

(** Below -2^31 the conversion to int32 can wrap to a positive capacity,
    and then the pool runs tasks: size -4294967291 gives capacity 5. *)
Lemma wrapped_size_runs :
  exists s',
    run id (boot (buildPool (-4294967291) (NewOptions [])) 0) (submit_next 0)
    = Some s' /\
    Cap s' = 5 /\ Running s' = 1 /\ answer 0 s' = Some None.
Proof.
  eexists. split; [vm_compute; reflexivity|].
  repeat split; vm_compute; reflexivity.
Qed.

(** ** Memory safety of the pool *)

Lemma tally_elem_of (v : nat) ps : (1 <= tally (Nat.eqb v) ps)%nat <-> v ∈ ps.
Proof.
  induction ps as [|p ps IH]; simpl.
  - split; [lia|by intros ?%elem_of_nil].
  - rewrite elem_of_cons. destruct (Nat.eqb_spec v p) as [->|Hne].
    + split; [by left|lia].
    + rewrite <- IH. split; [intros; right; lia|intros [?|?]; [done|lia]].
Qed.

Lemma tally_NoDup ps : (forall v, (tally (Nat.eqb v) ps <= 1)%nat) -> NoDup ps.
Proof.
  induction ps as [|p ps IH]; intros H; constructor.
  - intros Hin. apply tally_elem_of in Hin. specialize (H p). simpl in H.
    rewrite Nat.eqb_refl in H. lia.
  - apply IH. intros v. specialize (H v). simpl in H. lia.
Qed.

Lemma tally_lookup {X} (f : X -> bool) l i x :
  l !! i = Some x -> f x = true -> (1 <= tally f l)%nat.
Proof.
  revert i. induction l as [|y l IH]; intros [|i] Hi Hx; simpl in *; try done.
  - simplify_eq. rewrite Hx. lia.
  - specialize (IH i Hi Hx). lia.
Qed.

Section StoreSafety.
Context {A : Type}.
Implicit Types (h : heap A) (q : workerQueue) (ps : list ptr) (w : ptr).

Lemma q_detach_sound q ps :
  stored q ps ->
  (exists w q' rest,
     q_detach q = Some (Some w, q') /\ stored q' rest /\
     forall v, tally (Nat.eqb v) ps
               = ((if Nat.eqb v w then 1 else 0) + tally (Nat.eqb v) rest)%nat) \/
  (exists q', q_detach q = Some (None, q') /\ stored q' ps /\ ps = []).
Proof.
  destruct q as [[its sz]|wq]; simpl.
  - intros <-. destruct its as [|x its _] using rev_ind.
    + right. by eexists.
    + left. exists x, (QStack (Stack.WorkerStack its sz)), its.
      unfold Stack.detach. simpl. rewrite length_app. simpl.
      replace (length its + 1)%nat with (S (length its)) by lia. simpl.
      rewrite Nat.sub_0_r, list_lookup_middle by done. rewrite take_app_length.
      split; [done|]. split; [done|]. intros v. rewrite tally_app. simpl. lia.
  - intros Hh. destruct ps as [|p rest]; unfold Ring.detach.
    + right. rewrite (holds_nil_empty wq Hh). by eexists.
    + left. rewrite (holds_cons_nonempty wq p rest Hh).
      destruct Hh as [Hok Hl]. rewrite fmap_cons in Hl.
      destruct (ring_pop wq _ _ Hok Hl) as (Hhd & Hok' & Hl').
      rewrite Hhd. simpl. exists p, (QRing (popped wq)), rest.
      split; [done|]. split; [by split|]. done.
Qed.

Lemma q_insert_sound q ps w :
  stored q ps ->
  (exists q', q_insert q w = Some (None, q') /\ stored q' (ps ++ [w])) \/
  (exists e, q_insert q w = Some (Some e, q)).
Proof.
  destruct q as [[its sz]|wq]; simpl.
  - intros <-. left. by eexists.
  - intros [Hok Hl]. destruct (Ring.isFull wq) eqn:Hf.
    + right. exists ErrPoolOverload. unfold Ring.insert. by rewrite Hf.
    + left. destruct (ring_push wq w Hok Hf) as (wq' & Hi & Hok' & Hl').
      exists (QRing wq'). rewrite Hi. simpl. split; [done|]. split; [done|].
      by rewrite Hl', Hl, fmap_app.
Qed.

Lemma q_reset_sound h q ps :
  stored q ps -> idle_ok h ps ->
  exists h' q',
    q_reset h q = Some (h', q') /\ stored q' [] /\
    (forall p, p ∉ ps -> h' !! p = h !! p).
Proof.
  destruct q as [[its sz]|wq]; simpl.
  - intros <- Hok. destruct (finish_all_spec its h Hok) as (h' & Hf & _ & Ho & _).
    exists h', (QStack (Stack.WorkerStack [] sz)). unfold Stack.reset. simpl.
    rewrite Hf. done.
  - intros Hh Hok. destruct ps as [|p ps].
    + exists h, (QRing wq). unfold Ring.reset. rewrite (holds_nil_empty wq Hh). done.
    + destruct (ring_reset_nonempty h wq (p :: ps) Hh Hok)
        as (h' & wq' & Hr & Hh' & _ & _ & _ & _ & Ho & _); [done|].
      exists h', (QRing wq'). rewrite Hr. done.
Qed.

Lemma q_refresh_sound h now d q ps :
  stored q ps -> idle_ok h ps ->
  exists h' q' ix gone rest,
    q_refresh h now d q = Some (h', q', ix) /\ ps = gone ++ rest /\
    stored q' rest /\ (forall p, p ∉ gone -> h' !! p = h !! p).
Proof.
  destruct q as [wq|wq]; simpl.
  - intros <- Hok.
    destruct (stack_refresh_prefix h now d wq Hok)
      as (h' & gone & rest & Hr & Hits & _ & _ & _ & Ho & _).
    exists h', (QStack (Stack.WorkerStack rest (Stack.size wq))),
      (Z.of_nat <$> seq 0 (length gone)), gone, rest.
    rewrite Hr. done.
  - intros Hh Hok.
    destruct (ring_refresh_prefix h now d wq ps Hh Hok)
      as (h' & wq' & gone & rest & ix & Hr & Hps & Hh' & _ & _ & _ & _ & Ho & _).
    exists h', (QRing wq'), ix, gone, rest. rewrite Hr. done.
Qed.
End StoreSafety.

Section WorkerSafety.
Context {A : Type} (exec : A -> outcome).
Implicit Types (s : World (A:=A)) (ps : list ptr) (w : ptr).

Lemma worker_sound_ext s s' ps ps' w :
  owners s' ps' w = owners s ps w ->
  routines s' !! w = routines s !! w ->
  objects s' !! w = objects s !! w ->
  (length (objects s) <= length (objects s'))%nat ->
  worker_sound s ps w -> worker_sound s' ps' w.
Proof.
  unfold worker_sound. intros -> -> -> Hlen (H1 & H2 & H3).
  split; [done|]. split; [|done]. intros Hw. apply H2. lia.
Qed.

Lemma owners_goto s s0 ps ps' i c pc pc' w :
  clients s !! i = Some (c, pc) ->
  (owners (set_clients (<[i := (c, pc')]> (clients s)) s0) ps' w
   + (if holds_worker w pc then 1 else 0) + tally (Nat.eqb w) ps
   = owners s ps w + (if holds_worker w pc' then 1 else 0) + tally (Nat.eqb w) ps')%nat.
Proof.
  intros Hi. unfold owners. simpl.
  pose proof (tally_insert (fun c => holds_worker w c.2) _ _ _ (c, pc') Hi) as E.
  simpl in E. lia.
Qed.

Lemma sound_owned s ps w :
  length (routines s) = length (objects s) ->
  worker_sound s ps w -> (1 <= owners s ps w)%nat ->
  exists pc o,
    routines s !! w = Some pc /\ objects s !! w = Some o /\
    resting_pc pc = true /\ inboxClosed o = false /\ inbox o = [].
Proof.
  intros Hlen (H1 & H2 & H3) Ho.
  assert (Hw : (w < length (objects s))%nat).
  { destruct (Nat.lt_ge_cases w (length (objects s))) as [?|Hge]; [done|].
    specialize (H2 Hge). lia. }
  destruct (lookup_lt_is_Some_2 (objects s) w Hw) as [o Hob].
  destruct (lookup_lt_is_Some_2 (routines s) w) as [pc Hpc]; [lia|].
  exists pc, o. split; [done|]. split; [done|].
  destruct (H3 pc o Hpc Hob) as (_ & _ & Hown & _). apply Hown. lia.
Qed.

Lemma sound_idle_ok s ps :
  length (routines s) = length (objects s) ->
  (forall w, worker_sound s ps w) -> idle_ok (objects s) ps.
Proof.
  intros Hlen Hws. split.
  - apply tally_NoDup. intros v. destruct (Hws v) as (H1 & _).
    unfold owners in H1. lia.
  - rewrite Forall_forall. intros p Hp. apply tally_elem_of in Hp.
    destruct (sound_owned s ps p Hlen (Hws p)) as (pc & o & _ & Ho & _ & Hcl & _).
    { unfold owners. lia. }
    unfold alive. by rewrite Ho, Hcl.
Qed.

(** A submitter moves on without taking or giving up a worker. *)
Lemma ws_goto s s0 ps i c pc pc' :
  (forall w, worker_sound s ps w) ->
  clients s !! i = Some (c, pc) ->
  (forall w, holds_worker w pc' = holds_worker w pc) ->
  routines s0 = routines s -> objects s0 = objects s ->
  forall w, worker_sound (set_clients (<[i := (c, pc')]> (clients s)) s0) ps w.
Proof.
  intros Hws Hi Hh Hr Ho w. apply (worker_sound_ext s _ ps ps w); simpl;
    rewrite ?Hr, ?Ho; try done.
  pose proof (owners_goto s s0 ps ps i c pc pc' w Hi) as E. rewrite Hh in E. lia.
Qed.

Lemma ws_frame s s' ps :
  (forall w, worker_sound s ps w) ->
  clients s' = clients s -> routines s' = routines s -> objects s' = objects s ->
  forall w, worker_sound s' ps w.
Proof.
  intros Hws Hc Hr Ho w. apply (worker_sound_ext s _ ps ps w);
    rewrite ?Hr, ?Ho; try done.
  unfold owners. by rewrite Hc.
Qed.

(** A submitter takes the worker [w0] out of the store. *)
Lemma ws_detach s s0 ps rest i c pc w0 :
  (forall w, worker_sound s ps w) ->
  clients s !! i = Some (c, pc) ->
  (forall w, holds_worker w pc = false) ->
  (forall v, tally (Nat.eqb v) ps
             = ((if Nat.eqb v w0 then 1 else 0) + tally (Nat.eqb v) rest)%nat) ->
  routines s0 = routines s -> objects s0 = objects s ->
  forall w, worker_sound (set_clients (<[i := (c, SubmitSend w0)]> (clients s)) s0) rest w.
Proof.
  intros Hws Hi Hh Ht Hr Ho w. apply (worker_sound_ext s _ ps rest w); simpl;
    rewrite ?Hr, ?Ho; try done.
  pose proof (owners_goto s s0 ps rest i c pc (SubmitSend w0) w Hi) as E.
  rewrite Hh, (Ht w) in E. simpl in E. lia.
Qed.

Lemma ws_call s ps (c : call A) :
  (forall w, worker_sound s ps w) ->
  forall w, worker_sound (set_clients (clients s ++ [(c, entry c)]) s) ps w.
Proof.
  intros Hws w. apply (worker_sound_ext s _ ps ps w); simpl; try done.
  unfold owners. simpl. rewrite tally_app. simpl.
  replace (holds_worker w (entry c)) with false by (by destruct c). lia.
Qed.

(** A submitter creates a worker. *)
Lemma ws_new s s' ps i c pc o :
  length (routines s) = length (objects s) ->
  (forall w, worker_sound s ps w) ->
  clients s !! i = Some (c, pc) ->
  (forall w, holds_worker w pc = false) ->
  inbox o = [] -> inboxClosed o = false ->
  clients s' = <[i := (c, GwIncRunning (length (objects s)))]> (clients s) ->
  routines s' = routines s ++ [WNotStarted] ->
  objects s' = objects s ++ [o] ->
  forall w, worker_sound s' ps w.
Proof.
  intros Hlen Hws Hi Hh Hin Hcl Hc Hr Ho w.
  assert (Eo : (owners s' ps w + 0
                = owners s ps w + (if Nat.eqb w (length (objects s)) then 1 else 0))%nat).
  { pose proof (owners_goto s s ps ps i c pc (GwIncRunning (length (objects s))) w Hi) as E.
    rewrite Hh in E. simpl in E. unfold owners in *. rewrite Hc. simpl in E. lia. }
  destruct (decide (w = length (objects s))) as [Heq|Hne].
  - subst w. rewrite Nat.eqb_refl in Eo.
    destruct (Hws (length (objects s))) as (H1 & H2 & _).
    specialize (H2 (le_n _)).
    assert (Hr1 : routines s' !! length (objects s) = Some WNotStarted)
      by (rewrite Hr; by apply list_lookup_middle).
    assert (Ho1 : objects s' !! length (objects s) = Some o)
      by (rewrite Ho; by apply list_lookup_middle).
    unfold worker_sound. rewrite Hr1, Ho1.
    split; [lia|]. split; [rewrite Ho, length_app; simpl; lia|].
    intros pc1 o1 [= <-] [= <-]. rewrite Hin, Hcl.
    split; [simpl; lia|]. split; [done|]. split; [intros _; by repeat split|done].
  - replace (Nat.eqb w (length (objects s))) with false in Eo
      by (symmetry; by apply Nat.eqb_neq).
    apply (worker_sound_ext s _ ps ps w); try done; try lia.
    + rewrite Hr. destruct (Nat.lt_ge_cases w (length (routines s))) as [Hlt|Hge].
      * by rewrite lookup_app_l.
      * rewrite lookup_ge_None_2 by (rewrite length_app; simpl; lia).
        symmetry. by apply lookup_ge_None_2.
    + rewrite Ho. destruct (Nat.lt_ge_cases w (length (objects s))) as [Hlt|Hge].
      * by rewrite lookup_app_l.
      * rewrite lookup_ge_None_2 by (rewrite length_app; simpl; lia).
        symmetry. by apply lookup_ge_None_2.
    + rewrite Ho, length_app. lia.
Qed.

(** The goroutine of [w0] or its object changes, its inbox does not. *)
Lemma ws_worker s s' ps w0 pc0 pc' o o' :
  (forall w, worker_sound s ps w) ->
  routines s !! w0 = Some pc0 -> objects s !! w0 = Some o ->
  inbox o' = inbox o -> inboxClosed o' = inboxClosed o ->
  (resting_pc pc0 = true -> inboxClosed o = false -> resting_pc pc' = true) ->
  (busy_pc pc' = true -> busy_pc pc0 = true) ->
  clients s' = clients s ->
  routines s' = <[w0 := pc']> (routines s) ->
  objects s' = <[w0 := o']> (objects s) ->
  forall w, worker_sound s' ps w.
Proof.
  intros Hws Hpc Hob Hin Hcl Hrest Hbusy Hc Hr Ho w.
  assert (Eo : owners s' ps w = owners s ps w) by (unfold owners; by rewrite Hc).
  destruct (decide (w = w0)) as [->|Hne].
  - destruct (Hws w0) as (H1 & H2 & H3).
    destruct (H3 pc0 o Hpc Hob) as (Hl & Hce & Hown & Hb).
    unfold worker_sound. rewrite Eo, Hr, Ho, length_insert.
    rewrite !list_lookup_insert_eq by (by eapply lookup_lt_Some).
    split; [done|]. split; [done|].
    intros pc1 o1 [= <-] [= <-]. rewrite Hin, Hcl.
    split; [done|]. split; [done|]. split.
    + intros Hone. destruct (Hown Hone) as (Hrp & Hop & Hie). auto.
    + intros Hb'. apply Hb. by apply Hbusy.
  - apply (worker_sound_ext s _ ps ps w); try done.
    + rewrite Hr. by rewrite list_lookup_insert_ne.
    + rewrite Ho. by rewrite list_lookup_insert_ne.
    + rewrite Ho, length_insert. lia.
Qed.

Lemma ws_routine s s' ps w0 pc0 pc' o :
  (forall w, worker_sound s ps w) ->
  routines s !! w0 = Some pc0 -> objects s !! w0 = Some o ->
  (resting_pc pc0 = true -> inboxClosed o = false -> resting_pc pc' = true) ->
  (busy_pc pc' = true -> busy_pc pc0 = true) ->
  clients s' = clients s ->
  routines s' = <[w0 := pc']> (routines s) ->
  objects s' = objects s ->
  forall w, worker_sound s' ps w.
Proof.
  intros Hws Hpc Hob Hrest Hbusy Hc Hr Ho.
  eapply (ws_worker s s' ps w0 pc0 pc' o o); try done.
  by rewrite Ho, list_insert_id.
Qed.

(** [w.run()]: the goroutine of a held worker starts. *)
Lemma ws_run s s' ps i c w0 :
  length (routines s) = length (objects s) ->
  (forall w, worker_sound s ps w) ->
  clients s !! i = Some (c, GwRun w0) ->
  clients s' = <[i := (c, SubmitSend w0)]> (clients s) ->
  routines s' = <[w0 := WRecv]> (routines s) ->
  objects s' = objects s ->
  forall w, worker_sound s' ps w.
Proof.
  intros Hlen Hws Hi Hc Hr Ho.
  destruct (sound_owned s ps w0 Hlen (Hws w0)) as (pc0 & o & Hpc & Hob & _).
  { unfold owners.
    pose proof (tally_lookup (fun c => holds_worker w0 c.2) _ _ _ Hi) as Ht.
    simpl in Ht. rewrite Nat.eqb_refl in Ht. specialize (Ht eq_refl). lia. }
  set (s1 := set_clients (<[i := (c, SubmitSend w0)]> (clients s)) s).
  assert (Hws1 : forall w, worker_sound s1 ps w).
  { by eapply (ws_goto s s ps i c (GwRun w0)). }
  by apply (ws_routine s1 s' ps w0 pc0 WRecv o).
Qed.

(** The send: the submitter gives up the worker, the task is queued. *)
Lemma ws_send s s' ps i c w0 o (task : option A) :
  length (routines s) = length (objects s) ->
  (forall w, worker_sound s ps w) ->
  clients s !! i = Some (c, SubmitSend w0) ->
  objects s !! w0 = Some o ->
  clients s' = <[i := (c, SubmitReturned None)]> (clients s) ->
  routines s' = routines s ->
  objects s' = <[w0 := GoWorker (inbox o ++ [task]) false (lastUsed o) (recycled o)]>
                 (objects s) ->
  forall w, worker_sound s' ps w.
Proof.
  intros Hlen Hws Hi Hob Hc Hr Ho w.
  assert (Eo : (owners s' ps w + (if Nat.eqb w w0 then 1 else 0)
                = owners s ps w)%nat).
  { pose proof (owners_goto s s ps ps i c (SubmitSend w0) (SubmitReturned None) w Hi) as E.
    simpl in E. unfold owners in *. rewrite Hc. simpl in E. lia. }
  destruct (decide (w = w0)) as [Heq|Hne];
    [subst w; rewrite Nat.eqb_refl in Eo
    |replace (Nat.eqb w w0) with false in Eo by (symmetry; by apply Nat.eqb_neq)].
  - destruct (Hws w0) as (H1 & H2 & H3).
    destruct (sound_owned s ps w0 Hlen (Hws w0)) as (pc & o1 & Hpc & Ho1 & Hrp & Hop & Hie);
      [lia|]. simplify_eq.
    unfold worker_sound. rewrite Hr, Ho, length_insert.
    rewrite list_lookup_insert_eq by (by eapply lookup_lt_Some).
    split; [lia|]. split; [intros Hge; specialize (H2 Hge); lia|].
    intros pc1 o2 Hpc1 [= <-]. simplify_eq. simpl. rewrite Hie. simpl.
    split; [done|]. split; [done|]. split; [intros; lia|].
    intros Hb.
    match goal with H : resting_pc ?p = true |- _ => by destruct p end.
  - apply (worker_sound_ext s _ ps ps w); try done; try lia.
    + by rewrite Hr.
    + rewrite Ho. by rewrite list_lookup_insert_ne.
    + rewrite Ho, length_insert. lia.
Qed.

(** A worker takes a task from its inbox. *)
Lemma ws_recv s s' ps w0 o t rest pc' :
  (forall w, worker_sound s ps w) ->
  routines s !! w0 = Some WRecv -> objects s !! w0 = Some o ->
  inbox o = t :: rest ->
  clients s' = clients s ->
  routines s' = <[w0 := pc']> (routines s) ->
  objects s' = <[w0 := GoWorker rest (inboxClosed o) (lastUsed o) (recycled o)]>
                 (objects s) ->
  forall w, worker_sound s' ps w.
Proof.
  intros Hws Hpc Hob Hin Hc Hr Ho w.
  assert (Eo : owners s' ps w = owners s ps w) by (unfold owners; by rewrite Hc).
  destruct (decide (w = w0)) as [->|Hne].
  - destruct (Hws w0) as (H1 & H2 & H3).
    destruct (H3 WRecv o Hpc Hob) as (Hl & Hce & Hown & Hb).
    rewrite Hin in Hl, Hce, Hown. simpl in Hl.
    assert (rest = []) as -> by (destruct rest; [done|simpl in Hl; lia]).
    assert (Hopen : inboxClosed o = false).
    { destruct (inboxClosed o); [|done]. by specialize (Hce eq_refl). }
    assert (Hzero : owners s ps w0 <> 1%nat).
    { intros Hone. by destruct (Hown Hone) as (_ & _ & ?). }
    unfold worker_sound. rewrite Eo, Hr, Ho, length_insert.
    rewrite !list_lookup_insert_eq by (by eapply lookup_lt_Some).
    split; [done|]. split; [done|].
    intros pc1 o1 [= <-] [= <-]. simpl. rewrite Hopen.
    split; [lia|]. split; [done|]. split; [intros Hone; by destruct Hzero|done].
  - apply (worker_sound_ext s _ ps ps w); try done.
    + rewrite Hr. by rewrite list_lookup_insert_ne.
    + rewrite Ho. by rewrite list_lookup_insert_ne.
    + rewrite Ho, length_insert. lia.
Qed.

(** A worker puts itself into the idle store. *)
Lemma ws_insert s s' ps w0 o :
  (forall w, worker_sound s ps w) ->
  routines s !! w0 = Some WPutInsert -> objects s !! w0 = Some o ->
  clients s' = clients s ->
  routines s' = <[w0 := WPutSignal]> (routines s) ->
  objects s' = objects s ->
  forall w, worker_sound s' (ps ++ [w0]) w.
Proof.
  intros Hws Hpc Hob Hc Hr Ho w.
  assert (Eo : owners s' (ps ++ [w0]) w
               = (owners s ps w + (if Nat.eqb w w0 then 1 else 0))%nat).
  { unfold owners. rewrite Hc, tally_app. simpl. lia. }
  destruct (decide (w = w0)) as [Heq|Hne];
    [subst w; rewrite Nat.eqb_refl in Eo
    |replace (Nat.eqb w w0) with false in Eo by (symmetry; by apply Nat.eqb_neq)].
  - destruct (Hws w0) as (H1 & H2 & H3).
    destruct (H3 WPutInsert o Hpc Hob) as (Hl & Hce & Hown & Hb).
    destruct (Hb eq_refl) as [Hopen Hie].
    assert (Hzero : owners s ps w0 = 0%nat).
    { destruct (owners s ps w0) as [|[|n]]; [done| |lia].
      by destruct (Hown eq_refl) as (? & _). }
    unfold worker_sound. rewrite Eo, Hr, Ho, Hzero.
    rewrite list_lookup_insert_eq by (by eapply lookup_lt_Some).
    split; [done|]. split.
    { intros Hge. apply lookup_lt_Some in Hob. lia. }
    intros pc1 o1 [= <-] Ho1. simplify_eq.
    split; [done|]. split; [done|]. split; [intros _; by repeat split|done].
  - apply (worker_sound_ext s _ ps (ps ++ [w0]) w); try done; try lia.
    + rewrite Hr. by rewrite list_lookup_insert_ne.
    + by rewrite Ho.
    + by rewrite Ho.
Qed.

(** A sweep or a reset finishes the workers [gone] of the store. *)
Lemma ws_cleanup s s' gone rest h' :
  length (routines s) = length (objects s) ->
  (forall w, worker_sound s (gone ++ rest) w) ->
  closes_only (objects s) h' ->
  (forall p, p ∉ gone -> h' !! p = objects s !! p) ->
  clients s' = clients s -> routines s' = routines s -> objects s' = h' ->
  forall w, worker_sound s' rest w.
Proof.
  intros Hlen Hws Hcl Hoth Hc Hr Ho w.
  assert (Hlh : length h' = length (objects s)) by (symmetry; by eapply Forall2_length).
  assert (Eo : (owners s' rest w + tally (Nat.eqb w) gone
                = owners s (gone ++ rest) w)%nat).
  { unfold owners. rewrite Hc, tally_app. lia. }
  destruct (decide (w ∈ gone)) as [Hin|Hnin].
  - apply tally_elem_of in Hin.
    destruct (Hws w) as (H1 & H2 & H3).
    destruct (sound_owned s _ w Hlen (Hws w)) as (pc & o & Hpc & Hob & Hrp & Hop & Hie);
      [lia|].
    destruct (Forall2_lookup_l _ _ _ _ _ Hcl Hob) as (o' & Hob' & Hrel).
    unfold worker_sound. rewrite Hr, Ho, Hlh.
    split; [lia|]. split; [intros Hge; specialize (H2 Hge); lia|].
    intros pc1 o1 Hpc1 Ho1. rewrite Hpc in Hpc1. rewrite Hob' in Ho1.
    injection Hpc1 as <-. injection Ho1 as <-.
    assert (Hin' : inbox o' = []) by (destruct Hrel as [->|[_ ->]]; done).
    rewrite Hin'. split; [simpl; lia|]. split; [done|]. split; [intros; lia|].
    intros Hb. by destruct pc.
  - apply (worker_sound_ext s _ (gone ++ rest) rest w); try done.
    + assert (tally (Nat.eqb w) gone = 0%nat).
      { destruct (tally (Nat.eqb w) gone) eqn:E; [done|].
        exfalso. apply Hnin. apply tally_elem_of. lia. }
      lia.
    + by rewrite Hr.
    + rewrite Ho. by apply Hoth.
    + rewrite Ho. lia.
Qed.
End WorkerSafety.

Section SafetyStep.
Context {A : Type} (exec : A -> outcome).
Implicit Types (s : World (A:=A)) (ps : list ptr) (w : ptr).

Lemma workers_sound_step s ev s' :
  workers_sound s -> step exec s ev = Some s' -> workers_sound s'.
Proof.
  intros (Hlen & ps & Hst & Hws) H. unfold step in H.
  destruct (crashed s); [done|]. destruct ev as [dt|c|i|w|k|k].
  - case_match; simplify_eq. split; [done|]. exists ps. split; [done|].
    by apply (ws_frame s).
  - simplify_eq. split; [done|]. exists ps. split; [done|]. by apply ws_call.
  - unfold step_client in H.
    destruct (clients s !! i) as [[c pc]|] eqn:Hi; [|done]. simpl in H.
    pose proof (sound_idle_ok s ps Hlen Hws) as Hidle.
    destruct (q_reset_sound (objects s) _ ps Hst Hidle)
      as (h1 & q2 & Hreset & Hst2 & Hoth).
    pose proof (q_reset_closes _ _ _ _ Hreset) as Hcl.
    destruct (q_detach_sound _ ps Hst)
      as [(w0 & q1 & rest & Hd & Hst1 & Ht)|(q1 & Hd & Hst1 & _)];
      destruct c; destruct pc; try done; rewrite ?Hd, ?Hreset in H;
      repeat case_match; simplify_eq;
      try match goal with H : close_chan _ _ = Some _ |- _ =>
        apply close_chan_rest in H as (Hp & _ & _ & Hob & Hrt & Hcc & _) end;
      first
        [ solve [ split; [simpl; by rewrite ?Hob, ?Hrt|]; exists ps;
                  split; [simpl; by rewrite ?Hp|];
                  rewrite ?Hcc;
                  by eapply (ws_goto s _ ps i _ _ _ Hws Hi) ]
        | solve [ split; [done|]; exists ps; split; [done|]; by apply (ws_frame s) ]
        | solve [ split; [done|]; exists rest; split; [done|];
                  by eapply (ws_detach s _ ps rest i _ _ _ Hws Hi) ]
        | solve [ split; [simpl; rewrite !length_app; simpl; lia|]; exists ps;
                  split; [done|];
                  by eapply (ws_new s _ ps i _ _ (GoWorker [] false (clock s) 0)
                               Hlen Hws Hi) ]
        | solve [ split; [simpl; by rewrite length_insert|]; exists ps;
                  split; [done|];
                  by eapply (ws_run s _ ps i _ _ Hlen Hws Hi) ]
        | solve [ split; [simpl; by rewrite length_insert|]; exists ps;
                  split; [done|];
                  by eapply (ws_send s _ ps i _ _ _ _ Hlen Hws Hi) ]
        | solve [ split; [simpl; rewrite Hlen; exact (Forall2_length _ _ _ Hcl)|];
                  exists []; split; [exact Hst2|];
                  eapply (ws_goto (set_objects h1 s) _ [] i _ _ _); try done;
                  eapply (ws_cleanup s _ ps [] h1); rewrite ?app_nil_r; try done ]
        | idtac ].
  - unfold step_worker in H.
    destruct (routines s !! w) as [pc|] eqn:Hpc; [|done].
    destruct (objects s !! w) as [o|] eqn:Hob; [|done]. simpl in H.
    destruct (q_insert_sound _ ps w Hst) as [(q1 & Hins & Hst1)|(e & Hins)];
      destruct pc; try done; rewrite ?Hins in H;
      repeat case_match; simplify_eq; unfold Signal;
      first
        [ solve [ split; [simpl; by rewrite !length_insert|]; exists ps;
                  split; [done|];
                  by eapply (ws_recv s _ ps w _ _ _ _ Hws Hpc Hob) ]
        | solve [ split; [simpl; by rewrite !length_insert|]; exists ps;
                  split; [done|];
                  eapply (ws_routine s _ ps w _ _ _ Hws Hpc Hob);
                  [ | | reflexivity | reflexivity | reflexivity ];
                  try done; intros; congruence ]
        | solve [ split; [simpl; by rewrite !length_insert|]; exists ps;
                  split; [done|];
                  eapply (ws_worker s _ ps w _ _ _
                            (GoWorker (inbox o) (inboxClosed o) (clock s) (recycled o))
                            Hws Hpc Hob);
                  [ | | | | reflexivity | reflexivity | reflexivity ]; done ]
        | solve [ split; [simpl; by rewrite !length_insert|]; exists (ps ++ [w]);
                  split; [done|];
                  by eapply (ws_insert s _ ps w _ Hws Hpc Hob) ]
        | idtac ].
  - unfold step_sweeper in H.
    destruct (sweepers s !! k) as [[pc due]|] eqn:Hk; [|done]. simpl in H.
    pose proof (sound_idle_ok s ps Hlen Hws) as Hidle.
    destruct (q_refresh_sound (objects s) (clock s)
                (ExpiryDuration (options (pool s))) _ ps Hst Hidle)
      as (h1 & q1 & ix & gone & rest & Href & Hps & Hst1 & Hoth).
    pose proof (q_refresh_closes _ _ _ _ _ _ _ Href) as Hcl.
    destruct pc; try done; rewrite ?Href in H;
      repeat case_match; simplify_eq;
      try match goal with H : close_chan _ _ = Some _ |- _ =>
        apply close_chan_rest in H as (Hp & _ & _ & Hob & Hrt & Hcc & _) end;
      first
        [ solve [ split; [simpl; by rewrite ?Hob, ?Hrt|]; exists (gone ++ rest);
                  split; [simpl; by rewrite ?Hp|];
                  by apply (ws_frame s) ]
        | solve [ split; [simpl; rewrite Hlen; exact (Forall2_length _ _ _ Hcl)|];
                  exists rest; split; [exact Hst1|];
                  by eapply (ws_cleanup s _ gone rest h1) ]
        | idtac ].
    all: match goal with |- ?g => idtac g end.
    all: fail.
  - unfold step_sweeper in H.
    destruct (sweepers s !! k) as [[pc due]|] eqn:Hk; [|done]. simpl in H.
    destruct pc; try done; repeat case_match; simplify_eq.
    split; [done|]. exists ps. split; [done|]. by apply (ws_frame s).
Qed.
End SafetyStep.

Section LifecycleSafety.
Context {A : Type} (exec : A -> outcome).
Implicit Types (s : World (A:=A)).

Lemma lifecycle_close_chan c s s' :
  close_chan c s = Some s' ->
  chans s !! c = Some false /\ chans s' = <[c := true]> (chans s).
Proof. unfold close_chan. intros. repeat case_match; by simplify_eq. Qed.

Lemma lifecycle_sound_step s ev s' :
  lifecycle_sound s -> ev <> Call Reboot -> step exec s ev = Some s' ->
  lifecycle_sound s'.
Proof.
  intros Hinv Hev H. unfold step in H.
  destruct (crashed s); [done|]. destruct ev as [dt|c|i|w|k|k].
  - case_match; simplify_eq. exact Hinv.
  - simplify_eq.
    destruct Hinv as (Hs0 & Hs1 & Hst & Hd & Hnr & b0 & spc0 & due & Hch & Hsw & Htal).
    unfold lifecycle_sound. simpl. repeat split; try done.
    + intros j c1 pc1 [Hj|[_ Hj]]%lookup_app_Some; [by eapply Hnr|].
      apply list_lookup_singleton_Some in Hj as [_ [= <- <-]]. congruence.
    + exists b0, spc0, due. repeat split; try done.
      rewrite tally_app. simpl. destruct c; simpl; lia.
  - unfold step_client in H.
    destruct (clients s !! i) as [[c pc]|] eqn:Hi; [|done]. simpl in H.
    destruct c; destruct pc; try done; repeat case_match; simplify_eq;
      try exact Hinv;
      try match goal with H : close_chan _ _ = Some _ |- _ =>
        pose proof (lifecycle_close_chan _ _ _ H) as [Hopen Hchans];
        apply close_chan_rest in H as (Hp & _ & _ & _ & _ & Hcc & Hss & _) end;
      destruct Hinv as (Hs0 & Hs1 & Hst & Hd & Hnr & b0 & spc0 & due & Hch & Hsw & Htal);
      try (exfalso; by eapply Hnr);
      unfold lifecycle_sound, Broadcast; simpl; rewrite ?Hp, ?Hcc, ?Hss;
      (split; [done|]); (split; [done|]);
      (split; [by auto|]); (split; [done|]);
      (split;
       [ intros j c1 pc1 Hj; destruct (decide (j = i)) as [->|Hne];
         [ rewrite list_lookup_insert_eq in Hj by (by eapply lookup_lt_Some); congruence
         | rewrite list_lookup_insert_ne in Hj by done; by eapply Hnr ] |]);
      match goal with |- context [tally ?f (<[i := ?y]> (clients s))] =>
        pose proof (tally_insert f (clients s) i _ y Hi) as E; simpl in E end;
      try match goal with H : (state (pool s) =? OPENED) = true |- _ =>
        apply Z.eqb_eq in H; rewrite H in Htal; simpl in Htal end;
      first
        [ rewrite Hchans, Hs0, Hch; rewrite Hs0, Hch in Hopen; simpl in Hopen;
          injection Hopen as ->; exists true, spc0, due;
          split; [done|]; split; [done|];
          destruct (state (pool s) =? CLOSED); simpl in *; lia
        | exists b0, spc0, due; split; [done|]; split; [done|];
          destruct b0; destruct (state (pool s) =? CLOSED); simpl in *; lia ].
  - unfold step_worker in H.
    destruct (routines s !! w) as [pc|] eqn:Hpc; [|done].
    destruct (objects s !! w) as [o|] eqn:Hob; [|done]. simpl in H.
    destruct pc; try done; repeat case_match; simplify_eq; exact Hinv.
  - unfold step_sweeper in H.
    destruct (sweepers s !! k) as [[pc due1]|] eqn:Hk; [|done]. simpl in H.
    destruct pc; try done; repeat case_match; simplify_eq;
      try exact Hinv;
      try match goal with H : close_chan _ _ = Some _ |- _ =>
        pose proof (lifecycle_close_chan _ _ _ H) as [Hopen Hchans];
        apply close_chan_rest in H as (Hp & _ & _ & _ & _ & Hcc & Hss & _) end;
      destruct Hinv as (Hs0 & Hs1 & Hst & Hd & Hnr & b0 & spc0 & due & Hch & Hsw & Htal);
      rewrite Hsw in Hk; destruct k as [|k]; simpl in Hk; simplify_eq;
      unfold lifecycle_sound; simpl; rewrite ?Hp, ?Hcc, ?Hss, ?Hchans, ?Hs1, ?Hch, ?Hsw;
      simpl; repeat split; try done; eexists b0, _, _; by repeat split.
  - unfold step_sweeper in H.
    destruct (sweepers s !! k) as [[pc due1]|] eqn:Hk; [|done]. simpl in H.
    destruct pc; try done; repeat case_match; simplify_eq.
    destruct Hinv as (Hs0 & Hs1 & Hst & Hd & Hnr & b0 & spc0 & due & Hch & Hsw & Htal).
    rewrite Hsw in Hk; destruct k as [|k]; simpl in Hk; simplify_eq.
    unfold lifecycle_sound; simpl. rewrite Hch, Hsw. simpl.
    repeat split; try done. eexists b0, _, _; by repeat split.
Qed.
End LifecycleSafety.

Section NoCrash.
Context {A : Type} (exec : A -> outcome).
Implicit Types (s : World (A:=A)).

Lemma no_crash_step s ev s' :
  lifecycle_sound s -> workers_sound s -> crashed s = false ->
  step exec s ev = Some s' -> crashed s' = false.
Proof.
  intros Hlife (Hlen & ps & Hst & Hws) Hc H. unfold step in H. rewrite Hc in H.
  destruct ev as [dt|c|i|w|k|k].
  - case_match; by simplify_eq.
  - by simplify_eq.
  - unfold step_client in H.
    destruct (clients s !! i) as [[c pc]|] eqn:Hi; [|done]. simpl in H.
    pose proof (sound_idle_ok s ps Hlen Hws) as Hidle.
    destruct (q_reset_sound (objects s) _ ps Hst Hidle)
      as (h1 & q2 & Hreset & _).
    assert (Hsend : forall w0, pc = SubmitSend w0 ->
              exists o, objects s !! w0 = Some o /\ inboxClosed o = false).
    { intros w0 ->.
      destruct (sound_owned s ps w0 Hlen (Hws w0)) as (pc0 & o & _ & Hob & _ & Hopen & _).
      - unfold owners.
        pose proof (tally_lookup (fun c => holds_worker w0 c.2) _ _ _ Hi) as Ht.
        simpl in Ht. rewrite Nat.eqb_refl in Ht. specialize (Ht eq_refl). lia.
      - by exists o. }
    assert (Hclose : pc = ReleaseCloseStop ->
              close_chan (stopCleaning (pool s)) s
              = Some (set_chans (<[0%nat := true]> (chans s)) s)).
    { intros ->.
      destruct Hlife as (Hs0 & _ & _ & _ & _ & b0 & spc0 & due & Hch & _ & Htal).
      pose proof (tally_lookup (fun c => at_close_stop c.2) _ _ _ Hi eq_refl) as Ht.
      unfold close_chan. rewrite Hs0, Hch. simpl.
      destruct b0; [|done]. destruct (state (pool s) =? CLOSED); lia. }
    destruct (q_detach_sound _ ps Hst)
      as [(w0 & q1 & rest & Hd & _)|(q1 & Hd & _)];
      destruct c; destruct pc; try done; rewrite ?Hd, ?Hreset in H;
      try rewrite (Hclose eq_refl) in H;
      try (destruct (Hsend _ eq_refl) as (o & Hob & Hopen); rewrite Hob, Hopen in H);
      repeat case_match; by simplify_eq.
  - unfold step_worker in H.
    destruct (routines s !! w) as [pc|] eqn:Hpc; [|done].
    destruct (objects s !! w) as [o|] eqn:Hob; [|done]. simpl in H.
    destruct pc; try done; repeat case_match; simplify_eq; unfold Signal; done.
  - unfold step_sweeper in H.
    destruct (sweepers s !! k) as [[pc due1]|] eqn:Hk; [|done]. simpl in H.
    pose proof (sound_idle_ok s ps Hlen Hws) as Hidle.
    destruct (q_refresh_sound (objects s) (clock s)
                (ExpiryDuration (options (pool s))) _ ps Hst Hidle)
      as (h1 & q1 & ix & gone & rest & Href & _).
    destruct Hlife as (Hs0 & Hs1 & _ & Hd & _ & b0 & spc0 & due & Hch & Hsw & Htal).
    rewrite Hsw in Hk. destruct k as [|k]; simpl in Hk; [|done]. simplify_eq.
    unfold NewTicker, close_chan in H. rewrite Hs1, Hch in H.
    replace (ExpiryDuration (options (pool s)) <=? 0) with false in H
      by (symmetry; apply Z.leb_gt; lia).
    destruct pc; try done; rewrite ?Href in H; simpl in H;
      repeat case_match; by simplify_eq.
  - unfold step_sweeper in H.
    destruct (sweepers s !! k) as [[pc due1]|] eqn:Hk; [|done]. simpl in H.
    destruct pc; try done; repeat case_match; by simplify_eq.
Qed.

Lemma sound_step s ev s' :
  lifecycle_sound s /\ workers_sound s /\ crashed s = false ->
  ev <> Call Reboot -> step exec s ev = Some s' ->
  lifecycle_sound s' /\ workers_sound s' /\ crashed s' = false.
Proof.
  intros (Hl & Hw & Hc) Hev H. split; [|split].
  - by eapply lifecycle_sound_step.
  - by eapply workers_sound_step.
  - by eapply no_crash_step.
Qed.

Lemma sound_run evs : forall s s',
  lifecycle_sound s /\ workers_sound s /\ crashed s = false ->
  no_reboot_call evs = true -> run exec s evs = Some s' ->
  lifecycle_sound s' /\ workers_sound s' /\ crashed s' = false.
Proof.
  induction evs as [|ev evs IH]; intros s s' Hinv Hno Hrun; simpl in *.
  - by simplify_eq.
  - apply andb_true_iff in Hno as [Hev Hno].
    destruct (step exec s ev) as [s1|] eqn:Hstep; [|done]. simpl in Hrun.
    eapply IH; [|done|done]. eapply sound_step; [done| |done].
    intros ->. done.
Qed.

Lemma stored_new (sz : Z) (opts : Options) :
  sz <> 0 -> stored (chooseQueue sz opts) [].
Proof.
  intros Hsz. unfold chooseQueue.
  destruct (sz =? -1); [done|].
  destruct (Z.ltb_spec sz queueSizeThreshold) as [Hlt|Hge].
  - by destruct (PreAlloc opts).
  - simpl. unfold queueSizeThreshold in Hge. split; [|done].
    unfold ring_ok. simpl. rewrite length_replicate. repeat split; try done; lia.
Qed.

Lemma sound_boot sz (opts : list Option) p now :
  NewPool sz opts = inr p -> 0 < ExpiryDuration (NewOptions opts) ->
  lifecycle_sound (boot (A:=A) p now) /\ workers_sound (boot (A:=A) p now)
  /\ crashed (boot (A:=A) p now) = false.
Proof.
  intros Hnew Hd. apply NewPool_inr in Hnew as (Hsz & _ & ->).
  split; [|split; [|done]].
  - unfold lifecycle_sound. simpl. repeat split; try done; [by left|].
    by exists false, CNewTicker, 0.
  - split; [done|]. exists []. split; [by apply stored_new|].
    intros w. unfold worker_sound, owners. simpl.
    split; [lia|]. split; [done|]. intros pc o Hpc. by destruct w.
Qed.

(** Memory safety.  A pool made by [NewPool] with a positive expiry
    period, used through Submit / Invoke and Release but never rebooted,
    does not panic on its own account, whatever the schedule: no send on
    a closed inbox, no inbox or channel closed twice, no access to a
    worker that does not exist, no index outside the ring.  Along the
    way every worker is owned by at most one place (one slot of the idle
    store or one submitter about to send), an owned worker is at rest
    with an open, empty inbox, and an inbox never holds more than one
    task. *)
Theorem pool_never_panics (sz now : Z) (opts : list Option) p evs s' :
  NewPool sz opts = inr p -> 0 < ExpiryDuration (NewOptions opts) ->
  no_reboot_call evs = true ->
  run exec (boot p now) evs = Some s' ->
  crashed s' = false /\
  exists ps, stored (workers (pool s')) ps /\ NoDup ps /\
             Free s' = length ps /\
             Forall (fun p => alive (objects s') p = true) ps /\
             forall w, worker_sound s' ps w.
Proof.
  intros Hnew Hd Hno Hrun.
  destruct (sound_run evs _ _ (sound_boot sz opts p now Hnew Hd) Hno Hrun)
    as (_ & (Hlen & ps & Hst & Hws) & Hc).
  split; [done|]. exists ps. split; [done|].
  destruct (sound_idle_ok s' ps Hlen Hws) as [Hnd Hal].
  split; [done|]. split; [|done].
  unfold Free. destruct (workers (pool s')) as [wq|wq]; simpl in *.
  - unfold Stack.len. by rewrite Hst.
  - destruct Hst as [Hok Hl]. rewrite (ring_len_live wq Hok), Hl. by rewrite length_fmap.
Qed.
End NoCrash.

Lemma pool_never_panics_witness :
  exists s',
    run id pool_one (one_task_done ++ expiry_sweep ++ worker_exit) = Some s' /\
    crashed s' = false /\ Free s' = 0%nat.
Proof.
  eexists. split; [vm_compute; reflexivity|].
  match goal with
  | |- crashed ?s' = false /\ _ =>
      destruct (pool_never_panics id 1 0 [WithExpiryDuration second]
                  (buildPool 1 (NewOptions [WithExpiryDuration second]))
                  (one_task_done ++ expiry_sweep ++ worker_exit) s')
        as (Hc & _); [reflexivity|reflexivity|reflexivity|vm_compute; reflexivity|]
  end.
  split; [exact Hc|reflexivity].
Defined.

(** Why rebooting is excluded: a [Reboot] that overtakes a [Release]
    makes the fresh [stopCleaning] channel the one that [Release]
    closes; the next [Release] closes it again, and the pool panics. *)
Lemma release_reboot_race_panics :
  exists s', run id pool_one reboot_race = Some s' /\ crashed s' = true.
Proof. eexists. split; vm_compute; reflexivity. Qed.
